(** * tools/tag_atlas.py: the sprite enrichment and consistency pipeline

    A shallow embedding of the batch planner, the oracle response
    extraction, the merge step, the verify pass and the consistency
    checks of [tools/tag_atlas.py], with the properties of the pipeline
    stated over it.

    Conventions.  A Python [str] is a [string] (its UTF-8 bytes, so that
    the byte-wise lexicographic order of [String.leb] is the code point
    order Python's [sorted] uses).  A Python [dict] is an association
    list in insertion order with distinct keys.  A value decoded from
    JSON is a [json].  Code that may raise returns a [result]. *)

From Stdlib Require Import Bool Arith ZArith QArith Lia List Ascii String.
From Stdlib Require Import Permutation Sorted Orders Mergesort.
Import ListNotations.

Local Open Scope string_scope.
Local Open Scope list_scope.
Local Open Scope nat_scope.

(* ------------------------------------------------------------------ *)
(** ** Python string primitives *)

Module PyStr.

(** [s.replace(a, b)] for one-character [a] and [b]. *)
Fixpoint replace_char (a b : ascii) (s : string) : string :=
  match s with
  | EmptyString => EmptyString
  | String c r =>
      String (if Ascii.eqb c a then b else c) (replace_char a b r)
  end.

(** [s.split(sep)] for a one-character separator: never empty. *)
Fixpoint split (sep : ascii) (s : string) : list string :=
  match s with
  | EmptyString => [EmptyString]
  | String c r =>
      if Ascii.eqb c sep then EmptyString :: split sep r
      else match split sep r with
           | [] => [String c EmptyString]
           | h :: t => String c h :: t
           end
  end.

(** [sep.join(parts)]. *)
Definition join (sep : string) (parts : list string) : string :=
  String.concat sep parts.

(** [s.startswith(p)]. *)
Definition startswith (s p : string) : bool := String.prefix p s.

(** [parts[-1]] of a non-empty list ([d] stands for the IndexError
    that [split] never triggers). *)
Definition last_part (parts : list string) : string :=
  List.last parts EmptyString.

End PyStr.

(* ------------------------------------------------------------------ *)
(** ** The order of [sorted] on strings *)

Module StringOrder <: TotalLeBool.
Definition t := string.
Definition leb := String.leb.
Theorem leb_total : forall a1 a2, leb a1 a2 = true \/ leb a2 a1 = true.
Proof. exact String.leb_total. Qed.
End StringOrder.

(** [sorted(xs)] on a list of strings.  Python's sort is stable, and two
    strings that compare equal are the same string, so the result is the
    one ordered rearrangement of [xs], whatever the algorithm. *)
Module StringSort := Sort StringOrder.

Definition sorted (xs : list string) : list string := StringSort.sort xs.

Definition str_le (a b : string) : Prop := String.leb a b = true.
Definition str_lt (a b : string) : Prop := String.ltb a b = true.

(* ------------------------------------------------------------------ *)
(** ** Values decoded from JSON *)

(** What [json.loads] builds.  [JFloat q] is a finite float, given by
    its exact rational value; an object keeps its members in insertion
    order. *)
#[warnings="-register-all"]
Inductive json : Type :=
| JNull
| JBool (b : bool)
| JInt (n : Z)
| JFloat (q : Q)
| JStr (s : string)
| JArr (items : list json)
| JObj (members : list (string * json)).

(** Python dictionaries as association lists in insertion order. *)
Module Dict.
Section Ops.
Variable V : Type.

Fixpoint get (k : string) (d : list (string * V)) : option V :=
  match d with
  | [] => None
  | (k', v) :: r => if String.eqb k' k then Some v else get k r
  end.

Definition mem (k : string) (d : list (string * V)) : bool :=
  match get k d with Some _ => true | None => false end.

(** [d[k] = v]: replaces in place, or appends a new key. *)
Fixpoint set (k : string) (v : V) (d : list (string * V))
  : list (string * V) :=
  match d with
  | [] => [(k, v)]
  | (k', v') :: r =>
      if String.eqb k' k then (k', v) :: r else (k', v') :: set k v r
  end.

(** [d[k] = f(d[k])] for a key that is present; a missing key leaves
    [d] as it is. *)
Fixpoint update (k : string) (f : V -> V) (d : list (string * V))
  : list (string * V) :=
  match d with
  | [] => []
  | (k', v') :: r =>
      if String.eqb k' k then (k', f v') :: r
      else (k', v') :: update k f r
  end.

Definition keys (d : list (string * V)) : list string := map fst d.
End Ops.
Arguments get {V} k d.
Arguments mem {V} k d.
Arguments set {V} k v d.
Arguments update {V} k f d.
Arguments keys {V} d.
End Dict.

(** Truth value of a decoded value ([bool(v)], [if v:]). *)
Definition truthy (v : json) : bool :=
  match v with
  | JNull => false
  | JBool b => b
  | JInt n => negb (Z.eqb n 0)
  | JFloat q => negb (Qeq_bool q 0)
  | JStr s => negb (String.eqb s EmptyString)
  | JArr l => match l with [] => false | _ => true end
  | JObj m => match m with [] => false | _ => true end
  end.

(** The number a [bool], [int] or [float] stands for in a comparison. *)
Definition num_of (v : json) : option Q :=
  match v with
  | JBool b => Some (if b then 1%Q else 0%Q)
  | JInt n => Some (inject_Z n)
  | JFloat q => Some q
  | _ => None
  end.

(** Python's [==] on decoded values: numbers by value across [bool],
    [int] and [float]; lists element by element; dictionaries member by
    member, whatever the order. *)
Fixpoint py_eq (a b : json) {struct a} : bool :=
  match a, b with
  | JNull, JNull => true
  | JStr s, JStr t => String.eqb s t
  | JArr l, JArr m =>
      (fix all2 (l m : list json) {struct l} : bool :=
         match l, m with
         | [], [] => true
         | x :: l', y :: m' => py_eq x y && all2 l' m'
         | _, _ => false
         end) l m
  | JObj ka, JObj kb =>
      Nat.eqb (List.length ka) (List.length kb) &&
      (fix members (ka : list (string * json)) {struct ka} : bool :=
         match ka with
         | [] => true
         | (k, v) :: r =>
             match Dict.get k kb with
             | Some w => py_eq v w
             | None => false
             end && members r
         end) ka
  | _, _ =>
      match num_of a, num_of b with
      | Some x, Some y => Qeq_bool x y
      | _, _ => false
      end
  end.

(** [x in xs] and [xs.remove(x)] (first occurrence) on a list. *)
Definition py_in (x : json) (xs : list json) : bool := existsb (py_eq x) xs.

Fixpoint remove_first (x : json) (xs : list json) : list json :=
  match xs with
  | [] => []
  | y :: r => if py_eq x y then r else y :: remove_first x r
  end.

Definition str_tags (l : list string) : list json := map JStr l.

(* ------------------------------------------------------------------ *)
(** ** Exceptions *)

Inductive exn : Type :=
| TypeError | KeyError | AttributeError | ValueError
| ZeroDivisionError | StopIteration | UnicodeEncodeError | OSError.

Inductive result (A : Type) : Type :=
| Ok (a : A)
| Raise (e : exn).
Arguments Ok {A} a.
Arguments Raise {A} e.

Definition bind {A B} (m : result A) (k : A -> result B) : result B :=
  match m with
  | Ok a => k a
  | Raise e => Raise e
  end.

Notation "x <- m ;; k" := (bind m (fun x => k))
  (at level 61, m at next level, right associativity).

Fixpoint mapM {A B} (f : A -> result B) (l : list A) : result (list B) :=
  match l with
  | [] => Ok []
  | x :: r => y <- f x ;; ys <- mapM f r ;; Ok (y :: ys)
  end.

Fixpoint foldM {A S} (f : S -> A -> result S) (l : list A) (s : S)
  : result S :=
  match l with
  | [] => Ok s
  | x :: r => s' <- f s x ;; foldM f r s'
  end.

(* ------------------------------------------------------------------ *)
(** ** The catalog *)

(** One entry of the ["sprites"] dictionary.  [None] is a key that is
    absent: the sprites an index starts from only have ["row"] and
    ["col"].  Those and every other member are never read or written by
    the functions below, so the record carries the three enrichment
    fields alone.  ["tags"], when present, is a JSON array, as the
    catalog format has it and as every assignment of the script keeps
    it. *)
Record sprite_info : Type := mkSprite {
  description : option json;
  tags : option (list json);
  tile_type : option json;
}.

(** [data["sprites"]]: key to sprite, in file order, keys distinct. *)
Definition catalog : Type := list (string * sprite_info).

(** [info.get(field)]: [None] for an absent key. *)
Definition get_or_none (o : option json) : json :=
  match o with Some v => v | None => JNull end.

(** [info.get("tags", [])]. *)
Definition tags_or_empty (o : option (list json)) : list json :=
  match o with Some l => l | None => [] end.

(** [is_enriched(sprite_info)]. *)
Definition is_enriched (info : sprite_info) : bool :=
  truthy (get_or_none (description info))
  && match tags info with Some (_ :: _) => true | _ => false end
  && truthy (get_or_none (tile_type info)).

(* ------------------------------------------------------------------ *)
(** ** Batch planner ([group_by_prefix] and the slicing of [process_atlas]) *)

(** The group a key goes to: its first two path segments when it has
    three or more, its first when it has two, ["_root"] otherwise. *)
Definition prefix_of (key : string) : string :=
  let parts := PyStr.split "/" (PyStr.replace_char "\" "/" key) in
  if 3 <=? List.length parts then PyStr.join "/" (firstn 2 parts)
  else if 2 <=? List.length parts then hd EmptyString parts
  else "_root".

(** [groups[prefix].append(key)] on a [defaultdict(list)]. *)
Fixpoint group_append (prefix key : string)
         (groups : list (string * list string)) : list (string * list string) :=
  match groups with
  | [] => [(prefix, [key])]
  | (p, ks) :: r =>
      if String.eqb p prefix then (p, ks ++ [key]) :: r
      else (p, ks) :: group_append prefix key r
  end.

(** [group_by_prefix(sprites)], on the keys of [sprites] in iteration
    order. *)
Definition group_by_prefix (keys : list string) : list (string * list string) :=
  fold_left (fun groups key => group_append (prefix_of key) key groups) keys [].

(** [groups[prefix]] for a prefix taken from [groups.keys()]. *)
Definition group_of (groups : list (string * list string)) (prefix : string)
  : list string :=
  match Dict.get prefix groups with Some ks => ks | None => [] end.

(** [todo = [key for key in sprites if not is_enriched(sprites[key])]]. *)
Definition todo (sprites : catalog) : list string :=
  map fst (filter (fun kv => negb (is_enriched (snd kv))) sprites).

(** [ordered_keys]: the groups in sorted prefix order, each sorted. *)
Definition ordered_keys (sprites : catalog) : list string :=
  let groups := group_by_prefix (todo sprites) in
  flat_map (fun prefix => sorted (group_of groups prefix))
           (sorted (Dict.keys groups)).

(** [range(0, stop, step)] for [step >= 1], by the loop it abbreviates:
    [stop] rounds are enough since the counter grows each round. *)
Fixpoint range_loop (fuel cur stop step : nat) : list nat :=
  match fuel with
  | 0 => []
  | S fuel' =>
      if cur <? stop then cur :: range_loop fuel' (cur + step) stop step
      else []
  end.

Definition py_range (stop step : nat) : list nat :=
  range_loop stop 0 stop step.

(** [xs[a:b]] for [0 <= a <= b]. *)
Definition slice {A} (xs : list A) (a b : nat) : list A :=
  firstn (b - a) (skipn a xs).

(** The batches of the dry run and of the main loop:
    [ordered_keys[start:start + batch_size]] for
    [start in range(0, len(ordered_keys), batch_size)]. *)
Definition batch_slices (keys : list string) (batch_size : nat)
  : list (list string) :=
  map (fun start => slice keys start (start + batch_size))
      (py_range (List.length keys) batch_size).

(** [if limit: ordered_keys = ordered_keys[:limit * batch_size]]. *)
Definition apply_limit (limit batch_size : nat) (keys : list string)
  : list string :=
  if limit =? 0 then keys else firstn (limit * batch_size) keys.

Definition plan_batches (sprites : catalog) (batch_size limit : nat)
  : list (list string) :=
  batch_slices (apply_limit limit batch_size (ordered_keys sprites)) batch_size.

(** [math.ceil(n / b)] for [b >= 1]. *)
Definition ceil_div (n b : nat) : nat := (n + b - 1) / b.

(** Membership of a key in the group of prefix [p]. *)
Definition has (p k : string) : bool := String.eqb (prefix_of k) p.

(** The order of the planner: by group prefix, then by key. *)
Definition key_order (a b : string) : Prop :=
  str_lt (prefix_of a) (prefix_of b) \/
  (prefix_of a = prefix_of b /\ str_le a b).

(** The planner read as slicing every group on its own: the batches of
    each group, one group after the other.  A second reading, kept
    beside [plan_batches] to compare the two. *)
Definition plan_by_group (sprites : catalog) (batch_size : nat)
  : list (list string) :=
  let groups := group_by_prefix (todo sprites) in
  flat_map (fun prefix => batch_slices (sorted (group_of groups prefix)) batch_size)
           (sorted (Dict.keys groups)).

(** No batch holds keys of two groups. *)
Definition respects_groups (batches : list (list string)) : Prop :=
  forall batch k1 k2,
    In batch batches -> In k1 batch -> In k2 batch ->
    prefix_of k1 = prefix_of k2.

(** A sprite as the indexer leaves it: no enrichment field yet. *)
Definition bare_sprite : sprite_info := mkSprite None None None.

(** A sprite with the three fields set to strings. *)
Definition tagged_sprite (d : string) (ts : list string) (tt : string)
  : sprite_info :=
  mkSprite (Some (JStr d)) (Some (str_tags ts)) (Some (JStr tt)).

(* ------------------------------------------------------------------ *)
(** ** Decoding JSON text *)

(** [json.loads] belongs to Python's standard library.  The functions of
    the script that call it take the decoder as a parameter; [JsonText]
    is a decoder after the library's documented grammar, used to run
    them on concrete texts.  It differs from the library on the literals
    [NaN], [Infinity] and [-Infinity] (rejected here), and a float is its
    exact decimal value, not the nearest double. *)
Module JsonText.

Definition is_ws (c : ascii) : bool :=
  Ascii.eqb c " " || Ascii.eqb c "009" || Ascii.eqb c "010" || Ascii.eqb c "013".

Fixpoint skip_ws (s : string) : string :=
  match s with
  | String c r => if is_ws c then skip_ws r else s
  | EmptyString => s
  end.

Definition digit_val (c : ascii) : option Z :=
  let n := N_of_ascii c in
  if (48 <=? n)%N && (n <=? 57)%N then Some (Z.of_N (n - 48)) else None.

Definition hex_val (c : ascii) : option N :=
  let n := N_of_ascii c in
  if (48 <=? n)%N && (n <=? 57)%N then Some (n - 48)%N
  else if (97 <=? n)%N && (n <=? 102)%N then Some (n - 87)%N
  else if (65 <=? n)%N && (n <=? 70)%N then Some (n - 55)%N
  else None.

(** The digits at the head of [s]: their value after [acc], how many,
    and what follows. *)
Fixpoint read_digits (s : string) (acc : Z) (count : nat)
  : Z * nat * string :=
  match s with
  | String c r =>
      match digit_val c with
      | Some d => read_digits r (acc * 10 + d)%Z (S count)
      | None => (acc, count, s)
      end
  | EmptyString => (acc, count, s)
  end.

(** A number at the head of [s]: an optional minus sign; then a single
    zero, or a digit from one to nine and any digits; then, optionally, a
    dot and one digit or more; then, optionally, an [e] or [E], a sign or
    none, and one digit or more.  An integer when there is neither
    fraction nor exponent, a float otherwise. *)
Definition read_number (s : string) : option (json * string) :=
  let '(neg, s1) :=
    match s with
    | String "-" r => (true, r)
    | _ => (false, s)
    end in
  let int_part :=
    match s1 with
    | String "0" r => Some (0%Z, r)
    | _ => match read_digits s1 0%Z 0 with
           | (_, O, _) => None
           | (v, _, r) => Some (v, r)
           end
    end in
  match int_part with
  | None => None
  | Some (iv, s2) =>
      let '(frac, s3) :=
        match s2 with
        | String "." r =>
            match read_digits r 0%Z 0 with
            | (_, O, _) => (None, s2)
            | (v, n, r') => (Some (v, n), r')
            end
        | _ => (None, s2)
        end in
      let '(expo, s4) :=
        match s3 with
        | String e r =>
            if Ascii.eqb e "e" || Ascii.eqb e "E" then
              let '(eneg, r1) :=
                match r with
                | String "-" r' => (true, r')
                | String "+" r' => (false, r')
                | _ => (false, r)
                end in
              match read_digits r1 0%Z 0 with
              | (_, O, _) => (None, s3)
              | (v, _, r') => (Some (if eneg then (- v)%Z else v), r')
              end
            else (None, s3)
        | EmptyString => (None, s3)
        end in
      let sign := if neg then (-1)%Z else 1%Z in
      match frac, expo with
      | None, None => Some (JInt (sign * iv), s4)
      | _, _ =>
          let '(fv, fn) := match frac with Some p => p | None => (0%Z, O) end in
          let mantissa :=
            (inject_Z sign *
             (inject_Z iv + inject_Z fv / inject_Z (10 ^ Z.of_nat fn)))%Q in
          let e := match expo with Some e => e | None => 0%Z end in
          let scale :=
            if (0 <=? e)%Z then inject_Z (10 ^ e)
            else (1 / inject_Z (10 ^ (- e)))%Q in
          Some (JFloat (Qred (mantissa * scale)), s4)
      end
  end.

(** The UTF-8 bytes of a code point (a lone surrogate is written like any
    other three-byte code point). *)
Definition utf8 (cp : N) (tail : string) : string :=
  let byte n := ascii_of_N n in
  (if cp <? 128 then String (byte cp) tail
   else if cp <? 2048 then
     String (byte (192 + cp / 64)) (String (byte (128 + cp mod 64)) tail)
   else if cp <? 65536 then
     String (byte (224 + cp / 4096))
       (String (byte (128 + (cp / 64) mod 64))
          (String (byte (128 + cp mod 64)) tail))
   else
     String (byte (240 + cp / 262144))
       (String (byte (128 + (cp / 4096) mod 64))
          (String (byte (128 + (cp / 64) mod 64))
             (String (byte (128 + cp mod 64)) tail))))%N.

Definition read_hex4 (s : string) : option (N * string) :=
  match s with
  | String a (String b (String c (String d r))) =>
      match hex_val a, hex_val b, hex_val c, hex_val d with
      | Some x, Some y, Some z, Some w =>
          Some (((x * 16 + y) * 16 + z) * 16 + w, r)%N
      | _, _, _, _ => None
      end
  | _ => None
  end.

(** The rest of a string literal, after its opening quote. *)
Fixpoint read_string (fuel : nat) (s : string) : option (string * string) :=
  match fuel with
  | O => None
  | S fuel' =>
      match s with
      | EmptyString => None
      | String c r =>
          if Ascii.eqb c "034" then Some (EmptyString, r)
          else if Ascii.eqb c "\" then
            match r with
            | String e r' =>
                let simple (x : ascii) :=
                  match read_string fuel' r' with
                  | Some (t, rest) => Some (String x t, rest)
                  | None => None
                  end in
                if Ascii.eqb e "034" then simple "034"%char
                else if Ascii.eqb e "\" then simple "\"%char
                else if Ascii.eqb e "/" then simple "/"%char
                else if Ascii.eqb e "b" then simple "008"%char
                else if Ascii.eqb e "f" then simple "012"%char
                else if Ascii.eqb e "n" then simple "010"%char
                else if Ascii.eqb e "r" then simple "013"%char
                else if Ascii.eqb e "t" then simple "009"%char
                else if Ascii.eqb e "u" then
                  match read_hex4 r' with
                  | None => None
                  | Some (hi, r1) =>
                      let pair :=
                        if (55296 <=? hi)%N && (hi <=? 56319)%N then
                          match r1 with
                          | String "\" (String "u" r2) =>
                              match read_hex4 r2 with
                              | Some (lo, r3) =>
                                  if (56320 <=? lo)%N && (lo <=? 57343)%N
                                  then Some
                                         (65536 + (hi - 55296) * 1024
                                          + (lo - 56320), r3)%N
                                  else None
                              | None => None
                              end
                          | _ => None
                          end
                        else None in
                      let '(cp, r4) :=
                        match pair with Some p => p | None => (hi, r1) end in
                      match read_string fuel' r4 with
                      | Some (t, rest) => Some (utf8 cp t, rest)
                      | None => None
                      end
                  end
                else None
            | EmptyString => None
            end
          else if (N_of_ascii c <? 32)%N then None
          else match read_string fuel' r with
               | Some (t, rest) => Some (String c t, rest)
               | None => None
               end
      end
  end.

Definition literal (word : string) (v : json) (s : string)
  : option (json * string) :=
  if String.prefix word s
  then Some (v, String.substring (String.length word)
                  (String.length s - String.length word) s)
  else None.

(** One value at the head of [s], and what follows it. *)
Fixpoint read_value (fuel : nat) (s : string) : option (json * string) :=
  match fuel with
  | O => None
  | S fuel' =>
      (* the members after the first, up to the closing bracket *)
      let fix read_items (n : nat) (s : string) (acc : list json)
        : option (list json * string) :=
        match n with
        | O => None
        | S n' =>
            match skip_ws s with
            | String "]" r => Some (rev acc, r)
            | String "," r =>
                match read_value fuel' (skip_ws r) with
                | Some (v, r') => read_items n' r' (v :: acc)
                | None => None
                end
            | _ => None
            end
        end in
      let read_member (s : string) : option (string * json * string) :=
        match s with
        | String "034" r =>
            match read_string (S (String.length r)) r with
            | Some (k, r1) =>
                match skip_ws r1 with
                | String ":" r2 =>
                    match read_value fuel' (skip_ws r2) with
                    | Some (v, r3) => Some (k, v, r3)
                    | None => None
                    end
                | _ => None
                end
            | None => None
            end
        | _ => None
        end in
      let fix read_members (n : nat) (s : string) (acc : list (string * json))
        : option (list (string * json) * string) :=
        match n with
        | O => None
        | S n' =>
            match skip_ws s with
            | String "}" r => Some (acc, r)
            | String "," r =>
                match read_member (skip_ws r) with
                | Some (k, v, r') => read_members n' r' (Dict.set k v acc)
                | None => None
                end
            | _ => None
            end
        end in
      match s with
      | String "034" r =>
          match read_string (S (String.length r)) r with
          | Some (t, rest) => Some (JStr t, rest)
          | None => None
          end
      | String "[" r =>
          match skip_ws r with
          | String "]" r' => Some (JArr [], r')
          | r0 =>
              match read_value fuel' r0 with
              | Some (v, r1) =>
                  match read_items (S (String.length r1)) r1 [v] with
                  | Some (vs, r2) => Some (JArr vs, r2)
                  | None => None
                  end
              | None => None
              end
          end
      | String "{" r =>
          match skip_ws r with
          | String "}" r' => Some (JObj [], r')
          | r0 =>
              match read_member r0 with
              | Some (k, v, r1) =>
                  match read_members (S (String.length r1)) r1 [(k, v)] with
                  | Some (ms, r2) => Some (JObj ms, r2)
                  | None => None
                  end
              | None => None
              end
          end
      | String "n" _ => literal "null" JNull s
      | String "t" _ => literal "true" (JBool true) s
      | String "f" _ => literal "false" (JBool false) s
      | _ => read_number s
      end
  end.

(** [json.loads(s)]: one value, white space around it, nothing else;
    [None] stands for [JSONDecodeError]. *)
Definition loads (s : string) : option json :=
  match read_value (S (String.length s)) (skip_ws s) with
  | Some (v, rest) =>
      match skip_ws rest with
      | EmptyString => Some v
      | _ => None
      end
  | None => None
  end.

End JsonText.

(* ------------------------------------------------------------------ *)
(** ** Extraction of the oracle's answer ([parse_ai_response]) *)

(** White space as [str.strip()] and the regular expression class for
    white space see it, a string being the UTF-8 bytes of the text: the
    characters U+0009 to U+000D, U+001C to U+0020, U+0085, U+00A0,
    U+1680, U+2000 to U+200A, U+2028, U+2029, U+202F, U+205F and
    U+3000.  Those of one byte, of two and of three. *)
Definition is_space (c : ascii) : bool :=
  let n := N_of_ascii c in
  ((9 <=? n) && (n <=? 13) || (28 <=? n) && (n <=? 32))%N.

Definition is_space2 (c d : ascii) : bool :=
  let m := N_of_ascii c in
  let n := N_of_ascii d in
  ((m =? 194) && ((n =? 133) || (n =? 160)))%N.

Definition is_space3 (c d e : ascii) : bool :=
  let l := N_of_ascii c in
  let m := N_of_ascii d in
  let n := N_of_ascii e in
  ((l =? 225) && (m =? 154) && (n =? 128)
   || (l =? 226) && (m =? 128)
      && ((128 <=? n) && (n <=? 138) || (n =? 168) || (n =? 169) || (n =? 175))
   || (l =? 226) && (m =? 129) && (n =? 159)
   || (l =? 227) && (m =? 128) && (n =? 128))%N.

Fixpoint lstrip (s : string) : string :=
  match s with
  | EmptyString => EmptyString
  | String c r =>
      if is_space c then lstrip r
      else
        match r with
        | EmptyString => s
        | String d r2 =>
            if is_space2 c d then lstrip r2
            else
              match r2 with
              | EmptyString => s
              | String e r3 => if is_space3 c d e then lstrip r3 else s
              end
        end
  end.

(** What is left when the white space at the end goes: nothing of a
    text that is white space only, and otherwise its first byte and
    what is left of the rest. *)
Fixpoint rstrip (s : string) : string :=
  match s with
  | EmptyString => EmptyString
  | String c r =>
      match lstrip s with
      | EmptyString => EmptyString
      | _ => String c (rstrip r)
      end
  end.

(** [s.strip()]. *)
Definition strip (s : string) : string := rstrip (lstrip s).

(** [s[n:]]. *)
Fixpoint drop (n : nat) (s : string) : string :=
  match n, s with
  | S n', String _ r => drop n' r
  | _, _ => s
  end.

(** [s.partition(pat)] without the separator: what is before the first
    occurrence of [pat] and what is after it; [None] when there is none. *)
Fixpoint cut_at (pat s : string) : option (string * string) :=
  if String.prefix pat s then Some (EmptyString, drop (String.length pat) s)
  else match s with
       | EmptyString => None
       | String c r =>
           match cut_at pat r with
           | Some (before, after) => Some (String c before, after)
           | None => None
           end
       end.

(** [pat in s]. *)
Definition contains (pat s : string) : bool :=
  match cut_at pat s with Some _ => true | None => false end.

(** [s] up to its last [c], that [c] included. *)
Fixpoint upto_last (c : ascii) (s : string) : option string :=
  match s with
  | EmptyString => None
  | String x r =>
      match upto_last c r with
      | Some t => Some (String x t)
      | None => if Ascii.eqb x c then Some (String x EmptyString) else None
      end
  end.

Definition fence : string := "```".

(** Group 1 of the first match of the fence pattern: three backquotes,
    an optional [json], white space, the shortest text up to white space
    and the next three backquotes.  The match starts at the first fence
    of the text; the group is what lies between the opening fence (and
    [json]) and the next fence, less white space at its two ends, which
    the [strip()] applied to the group removes in any case. *)
Definition fence_group (text : string) : option string :=
  match cut_at fence text with
  | None => None
  | Some (_, rest) =>
      let rest' := if String.prefix "json" rest then drop 4 rest else rest in
      match cut_at fence rest' with
      | None => None
      | Some (body, _) => Some body
      end
  end.

(** The match of an opening square bracket, anything, a closing square
    bracket, the middle taken as long as possible: from the first
    opening bracket of the text to its last closing bracket. *)
Definition bracket_span (text : string) : option string :=
  match cut_at "[" text with
  | None => None
  | Some (_, rest) =>
      match upto_last "]" rest with
      | Some t => Some (String "[" t)
      | None => None
      end
  end.

Section Extraction.

(** [json.loads]; [None] is [JSONDecodeError]. *)
Variable json_loads : string -> option json.

(** The text of each block of type ["text"] (the empty string when the
    block has none), as the
    arguments of [" ".join]: a text that is not a string makes the join
    raise. *)
Definition text_blocks (content : list json) : result (list string) :=
  mapM (fun block =>
          match block with
          | JObj m =>
              match Dict.get "text" m with
              | None => Ok EmptyString
              | Some (JStr s) => Ok s
              | Some _ => Raise TypeError
              end
          | _ => Ok EmptyString
          end)
       (filter (fun block =>
                  match block with
                  | JObj m =>
                      py_eq (get_or_none (Dict.get "type" m)) (JStr "text")
                  | _ => false
                  end) content).

(** The first of the given keys whose value is a string gives the text
    (and ends the search, even when that string is empty). *)
Fixpoint first_str_member (keys : list string) (m : list (string * json))
  : string :=
  match keys with
  | [] => EmptyString
  | k :: r =>
      match Dict.get k m with
      | Some (JStr s) => s
      | _ => first_str_member r m
      end
  end.

(** The [text] the wrapper carries: any non-empty ["result"], else the
    ["content"] (its text blocks, or the string it is), else the first
    string among ["text"], ["message"] and ["output"]. *)
Definition extract_text (response : json) : result json :=
  match response with
  | JObj m =>
      text <-
        (if Dict.mem "result" m && truthy (get_or_none (Dict.get "result" m))
         then Ok (get_or_none (Dict.get "result" m))
         else if Dict.mem "content" m then
           match get_or_none (Dict.get "content" m) with
           | JArr blocks =>
               parts <- text_blocks blocks ;;
               Ok (JStr (PyStr.join " " parts))
           | JStr s => Ok (JStr s)
           | _ => Ok (JStr EmptyString)
           end
         else Ok (JStr EmptyString)) ;;
      if truthy text then Ok text
      else Ok (JStr (first_str_member ["text"; "message"; "output"] m))
  | _ => Ok (JStr EmptyString)
  end.

(** The three attempts on the stripped text, as the function has them
    one after the other. *)
Definition parse_text (text : string) : option (list json) :=
  let fallback :=
    match bracket_span text with
    | Some span =>
        match json_loads span with
        | Some (JArr parsed) => Some parsed
        | _ => None
        end
    | None => None
    end in
  let fenced :=
    if contains fence text then
      match fence_group text with
      | Some group =>
          match json_loads (strip group) with
          | Some (JArr parsed) => Some parsed
          | _ => fallback
          end
      | None => fallback
      end
    else fallback in
  match json_loads text with
  | Some (JArr parsed) => Some parsed
  | _ => fenced
  end.

(** [parse_ai_response(stdout)]: [Ok None] is the [None] it returns. *)
Definition parse_ai_response (stdout : string) : result (option (list json)) :=
  match json_loads stdout with
  | None => Ok None
  | Some response =>
      text <- extract_text response ;;
      if negb (truthy text) then Ok None
      else match text with
           | JStr s => Ok (parse_text (strip s))
           | _ => Raise AttributeError
           end
  end.





End Extraction.






(* ------------------------------------------------------------------ *)
(** ** Merging a batch result ([process_atlas], the merge loop) *)

(** [entry.get(k)] on a dictionary. *)
Definition entry_get (k : string) (entry : list (string * json)) : json :=
  get_or_none (Dict.get k entry).

Definition set_description (v : json) (info : sprite_info) : sprite_info :=
  mkSprite (Some v) (tags info) (tile_type info).

Definition set_tags (l : list json) (info : sprite_info) : sprite_info :=
  mkSprite (description info) (Some l) (tile_type info).

Definition set_tile_type (v : json) (info : sprite_info) : sprite_info :=
  mkSprite (description info) (tags info) (Some v).

(** The three guarded assignments of the merge loop. *)
Definition assign_entry (entry : list (string * json)) (info : sprite_info)
  : sprite_info :=
  let info1 :=
    if truthy (entry_get "description" entry)
    then set_description (entry_get "description" entry) info
    else info in
  let info2 :=
    match entry_get "tags" entry with
    | JArr (t :: ts) => set_tags (t :: ts) info1
    | _ => info1
    end in
  if truthy (entry_get "tile_type" entry)
  then set_tile_type (entry_get "tile_type" entry) info2
  else info2.

(** "Strip tile_type from tags if it snuck in":
    [if tt and tt in tags: tags.remove(tt); sprites[key]["tags"] = tags]. *)
Definition strip_tile_type (info : sprite_info) : sprite_info :=
  let tt := get_or_none (tile_type info) in
  let ts := tags_or_empty (tags info) in
  if truthy tt && py_in tt ts then set_tags (remove_first tt ts) info
  else info.

Definition merge_entry (entry : list (string * json)) (info : sprite_info)
  : sprite_info :=
  strip_tile_type (assign_entry entry info).

(** The merge loop: key [i] of [valid_keys] with element [i] of
    [enrichments], up to the shorter of the two; an element that is not
    a dictionary is passed over.  Returns the sprites and [applied]. *)
Fixpoint merge_enrichments (valid_keys : list string) (enrichments : list json)
         (sprites : catalog) (applied : nat) : catalog * nat :=
  match valid_keys, enrichments with
  | key :: keys, entry :: entries =>
      match entry with
      | JObj members =>
          merge_enrichments keys entries
            (Dict.update key (merge_entry members) sprites) (S applied)
      | _ => merge_enrichments keys entries sprites applied
      end
  | _, _ => (sprites, applied)
  end.

(* ------------------------------------------------------------------ *)
(** ** The retry loop of [process_atlas] *)

(** How one [subprocess.run] of the oracle ends. *)
Inductive run_outcome : Type :=
| TimeoutExpired
| SubprocessError
| Completed (returncode : Z) (stdout : string).

Definition max_retries : nat := 3.

Section Attempts.

Variable json_loads : string -> option json.

(** The outcome of the [n]-th oracle call of the run. *)
Variable oracle : nat -> run_outcome.

(** The retry loop, with [n] attempts left: the calls made so far and
    the enrichments, or the exception [parse_ai_response] raised. *)
Fixpoint attempts (n calls : nat) : nat * result (option (list json)) :=
  match n with
  | O => (calls, Ok None)
  | S n' =>
      match oracle calls with
      | TimeoutExpired => attempts n' (S calls)
      | SubprocessError => attempts n' (S calls)
      | Completed returncode stdout =>
          if negb (Z.eqb returncode 0) then attempts n' (S calls)
          else match parse_ai_response json_loads stdout with
               | Raise e => (S calls, Raise e)
               | Ok (Some enrichments) => (S calls, Ok (Some enrichments))
               | Ok None => attempts n' (S calls)
               end
      end
  end.


End Attempts.
(* ------------------------------------------------------------------ *)
(** ** Writing the catalog ([save_index]) *)

(** What [save_index] does to the file at [path], one operation after
    the other: [open(path, "w")] empties the file or creates it,
    [json.dump] writes the pieces the encoder yields, [f.write] adds the
    line feed, and the [with] block closes the file. *)
Inductive file_op : Type :=
| OpenTruncate
| WriteText (s : string)
| CloseFile.

(** The content of the file ([None]: no such file) after an operation. *)
Definition file_step (content : option string) (op : file_op)
  : option string :=
  match op with
  | OpenTruncate => Some EmptyString
  | WriteText s =>
      match content with
      | Some c => Some (c ++ s)%string
      | None => None
      end
  | CloseFile => content
  end.

Definition run_ops (ops : list file_op) (content : option string)
  : option string :=
  fold_left file_step ops content.

Definition newline : string := String "010" EmptyString.

Section SaveIndex.

(** The pieces [json.dump(data, f, indent=2, ensure_ascii=False)] writes,
    in order: the encoder is the library's. *)
Variable json_dump : catalog -> list string.

Definition save_index_ops (data : catalog) : list file_op :=
  OpenTruncate :: map WriteText (json_dump data)
    ++ [WriteText newline; CloseFile].

(** A save that runs to its end. *)
Definition save_index (data : catalog) (content : option string)
  : option string :=
  run_ops (save_index_ops data) content.

(** A save that fails after [n] of its operations. *)
Definition save_index_interrupted (n : nat) (data : catalog)
           (content : option string) : option string :=
  run_ops (firstn n (save_index_ops data)) content.

(** The text a completed save leaves. *)
Definition encoded (data : catalog) : string :=
  (String.concat EmptyString (json_dump data) ++ newline)%string.

End SaveIndex.

(** Saving is atomic: whenever it fails, the file is as it was or holds
    the whole new text. *)
Definition save_is_atomic (json_dump : catalog -> list string) : Prop :=
  forall data old n,
    save_index_interrupted json_dump n data (Some old) = Some old \/
    save_index_interrupted json_dump n data (Some old)
      = Some (encoded json_dump data).

(* ------------------------------------------------------------------ *)
(** ** Applying the fixes of a verify batch ([verify_atlas], the fix loop) *)

(** What the loop writes to the fix log: the line naming the sprite, and
    for each changed field its value before and after. *)
Inductive log_event : Type :=
| LogFix (key : string)
| LogChange (field : string) (before after : json).

Record verify_state : Type := mkVerify {
  v_sprites : catalog;
  v_applied : nat;
  v_log : list log_event;
}.

(** A Python number: an [int] or a [float]. *)
Inductive py_num : Type :=
| PInt (n : Z)
| PFloat (q : Q).

(** [fix["index"] - 1]: defined on numbers ([bool] included) only. *)
Definition index_minus_one (v : json) : result py_num :=
  match v with
  | JInt n => Ok (PInt (n - 1))
  | JBool b => Ok (PInt ((if b then 1 else 0) - 1))
  | JFloat q => Ok (PFloat (q - 1))
  | _ => Raise TypeError
  end.

(** [if idx < 0 or idx >= len(valid_keys): continue] and then
    [valid_keys[idx]]: [Ok None] is the [continue]; a float that passes
    the test cannot index a list. *)
Definition key_at (idx : py_num) (valid_keys : list string)
  : result (option string) :=
  match idx with
  | PInt n =>
      if (n <? 0)%Z || (Z.of_nat (List.length valid_keys) <=? n)%Z
      then Ok None
      else Ok (nth_error valid_keys (Z.to_nat n))
  | PFloat q =>
      if negb (Qle_bool 0 q)
         || Qle_bool (inject_Z (Z.of_nat (List.length valid_keys))) q
      then Ok None
      else Raise TypeError
  end.

(** [info.get(field, "")]. *)
Definition get_or_empty (o : option json) : json :=
  match o with Some v => v | None => JStr EmptyString end.

(** The guarded assignments of the fix loop and the strip that follows. *)
Definition apply_fix_fields (patch : list (string * json)) (info : sprite_info)
  : sprite_info :=
  let old_description := get_or_empty (description info) in
  let old_tile_type := get_or_empty (tile_type info) in
  let info1 :=
    if truthy (entry_get "description" patch)
       && negb (py_eq (entry_get "description" patch) old_description)
    then set_description (entry_get "description" patch) info
    else info in
  let info2 :=
    match entry_get "tags" patch with
    | JArr (t :: ts) => set_tags (t :: ts) info1
    | _ => info1
    end in
  let info3 :=
    if truthy (entry_get "tile_type" patch)
       && negb (py_eq (entry_get "tile_type" patch) old_tile_type)
    then set_tile_type (entry_get "tile_type" patch) info2
    else info2 in
  strip_tile_type info3.

(** "Determine what actually changed": the three comparisons of the
    sprite with [old], whose defaults are [""], [[]] and [""]. *)
Definition changed_fields (old new : sprite_info) : list string :=
  (if negb (py_eq (get_or_none (description new))
                  (get_or_empty (description old)))
   then ["description"] else [])
  ++ (if match tags new with
          | None => true
          | Some l => negb (py_eq (JArr l) (JArr (tags_or_empty (tags old))))
          end
      then ["tags"] else [])
  ++ (if negb (py_eq (get_or_none (tile_type new))
                     (get_or_empty (tile_type old)))
      then ["tile_type"] else []).

(** [old[full]] and [sprites[key][full]]: the latter raises when the
    sprite has no such member. *)
Definition field_before (field : string) (old : sprite_info) : json :=
  if String.eqb field "description" then get_or_empty (description old)
  else if String.eqb field "tags" then JArr (tags_or_empty (tags old))
  else get_or_empty (tile_type old).

Definition field_after (field : string) (new : sprite_info) : result json :=
  let present (o : option json) :=
    match o with Some v => Ok v | None => Raise KeyError end in
  if String.eqb field "description" then present (description new)
  else if String.eqb field "tags" then
    match tags new with Some l => Ok (JArr l) | None => Raise KeyError end
  else present (tile_type new).

(** The log lines of one fix, up to the first that cannot be written. *)
Fixpoint log_changes (fields : list string) (old new : sprite_info)
         (log : list log_event) : list log_event * option exn :=
  match fields with
  | [] => (log, None)
  | field :: rest =>
      match field_after field new with
      | Raise e => (log, Some e)
      | Ok after =>
          log_changes rest old new
            (log ++ [LogChange field (field_before field old) after])
      end
  end.

(** One round of the fix loop. *)
Definition apply_fix (valid_keys : list string) (item : json) (st : verify_state)
  : verify_state * option exn :=
  match item with
  | JObj members =>
      match Dict.get "index" members with
      | None => (st, None)
      | Some index =>
          match index_minus_one index with
          | Raise e => (st, Some e)
          | Ok idx =>
              match key_at idx valid_keys with
              | Raise e => (st, Some e)
              | Ok None => (st, None)
              | Ok (Some key) =>
                  match Dict.get key (v_sprites st) with
                  | None => (st, Some KeyError)
                  | Some old =>
                      let new := apply_fix_fields members old in
                      let sprites :=
                        Dict.update key (fun _ => new) (v_sprites st) in
                      match changed_fields old new with
                      | [] => (mkVerify sprites (v_applied st) (v_log st), None)
                      | changed =>
                          let '(log, e) :=
                            log_changes changed old new
                              (v_log st ++ [LogFix key]) in
                          (mkVerify sprites (S (v_applied st)) log, e)
                      end
                  end
              end
          end
      end
  | _ => (st, None)
  end.

(** The fix loop; an exception ends it. *)
Fixpoint apply_fixes (valid_keys : list string) (fixes : list json)
         (st : verify_state) : verify_state * option exn :=
  match fixes with
  | [] => (st, None)
  | item :: rest =>
      match apply_fix valid_keys item st with
      | (st', None) => apply_fixes valid_keys rest st'
      | (st', Some e) => (st', Some e)
      end
  end.

(** The sprites [verify_atlas] reviews: those with a description and a
    tile type ("tags may be empty after check --fix"). *)
Definition verifiable (info : sprite_info) : bool :=
  truthy (get_or_none (description info))
  && truthy (get_or_none (tile_type info)).

(* ------------------------------------------------------------------ *)
(** ** The consistency checks ([check_atlas], [check_dcss]) *)

Definition HOLY_GODS : list string := ["zin"; "shining_one"; "elyvilon"].
Definition UNHOLY_GODS : list string :=
  ["beogh"; "jiyva"; "kikubaaqudgha"; "lugonu"; "makhleb"; "yredelemnul"].
Definition CREATURE_STRIP_TAGS : list string :=
  ["armour"; "equipment"; "weapon"; "player"].
Definition ALTAR_STRIP_TAGS : list string := ["weapon"; "sword"].
Definition TAG_SPELLING : list (string * string) :=
  [("gray", "grey"); ("armor", "armour")].

(** The words of [DESC_SPELLING], each matched as a whole word, letter
    case ignored, with its replacement. *)
Definition DESC_SPELLING : list (string * string) :=
  [("gray", "grey"); ("armor", "armour")].

Definition DIR_EXPECTED_TAGS : list (string * list string) :=
  [ ("dungeon/doors", ["door"]); ("dungeon/altars", ["altar"]);
    ("dungeon/walls", ["wall"]); ("dungeon/floor", ["floor"]);
    ("monster/undead", ["undead"]); ("monster/demons", ["demon"]);
    ("monster/dragons", ["dragon"]); ("monster/insects", ["insect"]);
    ("item/weapon", ["weapon"]); ("item/armour", ["armour"]);
    ("item/potion", ["potion"]); ("item/scroll", ["scroll"]);
    ("item/wand", ["wand"]); ("item/ring", ["ring"]);
    ("item/amulet", ["amulet"]); ("item/book", ["book"]);
    ("item/food", ["food"]); ("item/gold", ["gold"]);
    ("player/", ["player"]) ].

(** An issue: its category and the key it names (the wording of the
    detail is left out). *)
Definition issue : Type := (string * string)%type.

Record check_state : Type := mkCheck {
  c_sprites : catalog;
  c_issues : list issue;
  c_fixes : nat;
}.

Definition add_issue (category key : string) (st : check_state) : check_state :=
  mkCheck (c_sprites st) (c_issues st ++ [(category, key)]) (c_fixes st).

(** A fix: the tags of the sprite replaced, one more fix counted. *)
Definition fix_tags (key : string) (new_tags : list json) (st : check_state)
  : check_state :=
  mkCheck (Dict.update key (set_tags new_tags) (c_sprites st))
          (c_issues st) (S (c_fixes st)).

Definition fix_description (key : string) (d : string) (st : check_state)
  : check_state :=
  mkCheck (Dict.update key (set_description (JStr d)) (c_sprites st))
          (c_issues st) (S (c_fixes st)).

(** [t in S] for a set [S] of strings: a list or a dictionary cannot be
    hashed. *)
Definition in_str_set (t : json) (set : list string) : result bool :=
  match t with
  | JStr s => Ok (existsb (String.eqb s) set)
  | JArr _ => Raise TypeError
  | JObj _ => Raise TypeError
  | _ => Ok false
  end.

(** [[t for t in tags if t in S]] and [[t for t in tags if t not in S]]. *)
Fixpoint split_by_set (set : list string) (ts : list json)
  : result (list json * list json) :=
  match ts with
  | [] => Ok ([], [])
  | t :: r =>
      b <- in_str_set t set ;;
      p <- split_by_set set r ;;
      Ok (if b then (t :: fst p, snd p) else (fst p, t :: snd p))
  end.

(** [TAG_SPELLING.get(t, t)]. *)
Definition spell_tag (t : json) : result json :=
  match t with
  | JStr s =>
      Ok (JStr (match Dict.get s TAG_SPELLING with Some s' => s' | None => s end))
  | JArr _ => Raise TypeError
  | JObj _ => Raise TypeError
  | _ => Ok t
  end.

(** Characters of a word for the regular expressions: the letters and
    digits of ASCII and the underscore.  The expressions of the source
    also count the letters and digits outside ASCII, for which there is
    no table here: on a text with such a character next to a word of
    [DESC_SPELLING] the source sees no word boundary where this
    definition sees one. *)
Definition is_word_char (c : ascii) : bool :=
  let n := N_of_ascii c in
  ((48 <=? n) && (n <=? 57) || (65 <=? n) && (n <=? 90)
   || (97 <=? n) && (n <=? 122) || (n =? 95))%N.

Definition is_digit (c : ascii) : bool :=
  let n := N_of_ascii c in ((48 <=? n) && (n <=? 57))%N.

Definition lower (c : ascii) : ascii :=
  let n := N_of_ascii c in
  if ((65 <=? n) && (n <=? 90))%N then ascii_of_N (n + 32) else c.

(** [word] (in lower case) at the head of [s], letter case ignored. *)
Fixpoint prefix_nocase (word s : string) : bool :=
  match word with
  | EmptyString => true
  | String w word' =>
      match s with
      | EmptyString => false
      | String c s' => Ascii.eqb (lower c) w && prefix_nocase word' s'
      end
  end.

Definition starts_with_word_char (s : string) : bool :=
  match s with
  | String c _ => is_word_char c
  | EmptyString => false
  end.

(** [pattern.sub(repl, s)] for the pattern of [word] between two word
    boundaries, letter case ignored: every occurrence of [word] that is
    neither preceded nor followed by a word character, from the left.
    [skip] counts the characters of a match still to pass over. *)
Fixpoint sub_word (word repl : string) (after_word_char : bool) (skip : nat)
         (s : string) : string :=
  match s with
  | EmptyString => EmptyString
  | String c r =>
      match skip with
      | S k => sub_word word repl (is_word_char c) k r
      | O =>
          if negb after_word_char && prefix_nocase word s
             && negb (starts_with_word_char (drop (String.length word) s))
          then (repl ++ sub_word word repl (is_word_char c)
                          (String.length word - 1) r)%string
          else String c (sub_word word repl (is_word_char c) 0 r)
      end
  end.

(** The description after all of [DESC_SPELLING]. *)
Definition spell_description (d : string) : string :=
  fold_left (fun acc wr => sub_word (fst wr) (snd wr) false 0 acc)
            DESC_SPELLING d.

(** [s.replace(pat, "")] for a non-empty [pat]. *)
Fixpoint remove_sub (pat : string) (skip : nat) (s : string) : string :=
  match s with
  | EmptyString => EmptyString
  | String c r =>
      match skip with
      | S k => remove_sub pat k r
      | O =>
          if String.prefix pat s
          then remove_sub pat (String.length pat - 1) r
          else String c (remove_sub pat 0 r)
      end
  end.

(** Digits, one at least, up to the end of the string (or up to a line
    feed that ends it): what is left after them. *)
Fixpoint digits_to_end (seen : bool) (s : string) : option string :=
  match s with
  | EmptyString => if seen then Some EmptyString else None
  | String c r =>
      if is_digit c then digits_to_end true r
      else if seen && Ascii.eqb c "010"
           && match r with EmptyString => true | _ => false end
      then Some s
      else None
  end.

(** [re.sub] of an underscore and digits at the end of the string by
    nothing: the first underscore that only digits follow goes, with
    them. *)
Fixpoint strip_number_suffix (s : string) : string :=
  match s with
  | EmptyString => EmptyString
  | String c r =>
      if Ascii.eqb c "_" then
        match digits_to_end false r with
        | Some rest => rest
        | None => String c (strip_number_suffix r)
        end
      else String c (strip_number_suffix r)
  end.

(** [re.sub] of a leading [altar] and an underscore, if any, by nothing. *)
Definition strip_altar_prefix (s : string) : string :=
  if String.prefix "altar" s then
    match drop 5 s with
    | String "_" r => r
    | r => r
    end
  else s.

(** [key.split("/")[-1].replace(".png", "")]. *)
Definition file_stem (key : string) : string :=
  remove_sub ".png" 0 (PyStr.last_part (PyStr.split "/" key)).

Definition norm_key (key : string) : string :=
  PyStr.replace_char "\" "/" key.

Definition in_list (s : string) (l : list string) : bool :=
  existsb (String.eqb s) l.

(** The god an altar key names, and whether its altar should be holy or
    unholy. *)
Definition god_name (key : string) : string :=
  strip_number_suffix (strip_altar_prefix (file_stem (norm_key key))).

Definition god_base (key : string) : string :=
  match god_name key with
  | EmptyString => EmptyString
  | name => hd EmptyString (PyStr.split "_" name)
  end.

Definition should_holy (key : string) : bool :=
  in_list (god_base key) HOLY_GODS || in_list (god_name key) HOLY_GODS.

Definition should_unholy (key : string) : bool :=
  in_list (god_base key) UNHOLY_GODS || in_list (god_name key) UNHOLY_GODS.

Inductive tag_action : Type := AddTag | RemoveTag.

(** [tag_fixes] for an altar with tags [ts]. *)
Definition altar_tag_fixes (key : string) (ts : list json)
  : list (tag_action * string) :=
  let has t := py_in (JStr t) ts in
  (if negb (has "sacred") then [(AddTag, "sacred")] else [])
  ++ (if should_holy key && negb (has "holy") then [(AddTag, "holy")] else [])
  ++ (if negb (should_holy key) && has "holy"
      then [(RemoveTag, "holy")] else [])
  ++ (if should_unholy key && negb (has "unholy")
      then [(AddTag, "unholy")] else [])
  ++ (if negb (should_unholy key) && has "unholy"
      then [(RemoveTag, "unholy")] else []).

(** The loop that carries the [tag_fixes] out on the list of tags. *)
Definition apply_tag_fix (ts : list json) (f : tag_action * string)
  : list json :=
  match f with
  | (AddTag, t) => if py_in (JStr t) ts then ts else ts ++ [JStr t]
  | (RemoveTag, t) => if py_in (JStr t) ts then remove_first (JStr t) ts else ts
  end.

(** [for t in missing: if t not in tags: tags.append(t)]. *)
Definition append_missing (ts : list json) (missing : list string)
  : list json :=
  fold_left (fun acc t => if py_in (JStr t) acc then acc else acc ++ [JStr t])
            missing ts.

Section Rules.

(** [fix]: whether the checks repair what they find. *)
Variable fix_mode : bool.

(** The sprite of an enriched key ([info] in the loops): every key of
    [enriched] is a key of the catalog. *)
Definition with_sprite (key : string) (st : check_state)
           (body : sprite_info -> result check_state) : result check_state :=
  match Dict.get key (c_sprites st) with
  | Some info => body info
  | None => Ok st
  end.

(** "Strip tile_type from tags". *)
Definition rule_tile_type (st : check_state) (key : string)
  : result check_state :=
  with_sprite key st (fun info =>
    let tt := get_or_none (tile_type info) in
    let ts := tags_or_empty (tags info) in
    if truthy tt && py_in tt ts then
      if fix_mode then Ok (fix_tags key (remove_first tt ts) st)
      else Ok (add_issue "TILE_TYPE_IN_TAGS" key st)
    else Ok st).

(** "Spelling normalization in tags". *)
Definition rule_tag_spelling (st : check_state) (key : string)
  : result check_state :=
  with_sprite key st (fun info =>
    let ts := tags_or_empty (tags info) in
    new_tags <- mapM spell_tag ts ;;
    if negb (py_eq (JArr new_tags) (JArr ts)) then
      if fix_mode then Ok (fix_tags key new_tags st)
      else Ok (add_issue "SPELLING" key st)
    else Ok st).

(** "Spelling normalization in descriptions": the substitution is on
    strings only. *)
Definition rule_description_spelling (st : check_state) (key : string)
  : result check_state :=
  with_sprite key st (fun info =>
    match description info with
    | Some (JStr d) =>
        let new_desc := spell_description d in
        if negb (String.eqb new_desc d) then
          if fix_mode then Ok (fix_description key new_desc st)
          else Ok (add_issue "SPELLING_DESC" key st)
        else Ok st
    | _ => Raise TypeError
    end).

(** [check_dcss]: "Remove equipment/armour/weapon/player tags from
    creatures" and "Remove weapon/sword tags from altars". *)
Definition rule_strip_for (kind : string) (set : list string)
           (category : string) (st : check_state) (key : string)
  : result check_state :=
  with_sprite key st (fun info =>
    if py_eq (get_or_none (tile_type info)) (JStr kind) then
      p <- split_by_set set (tags_or_empty (tags info)) ;;
      match fst p with
      | [] => Ok st
      | _ =>
          if fix_mode then Ok (fix_tags key (snd p) st)
          else Ok (add_issue category key st)
      end
    else Ok st).

(** [check_dcss]: "Altar sacred/holy/unholy alignment". *)
Definition rule_altar_alignment (st : check_state) (key : string)
  : result check_state :=
  with_sprite key st (fun info =>
    if negb (PyStr.startswith (norm_key key) "dungeon/altars") then Ok st
    else
      let ts := tags_or_empty (tags info) in
      match altar_tag_fixes key ts with
      | [] => Ok st
      | tag_fixes =>
          if fix_mode
          then Ok (fix_tags key (fold_left apply_tag_fix tag_fixes ts) st)
          else Ok (add_issue "ALTAR_ALIGN" key st)
      end).

(** [check_dcss]: "Directory prefix mismatches", for one entry of
    [DIR_EXPECTED_TAGS]. *)
Definition dir_step (key : string) (st : check_state)
           (entry : string * list string) : check_state :=
  match Dict.get key (c_sprites st) with
  | None => st
  | Some info =>
      if PyStr.startswith (norm_key key) (fst entry) then
        let tt := get_or_empty (tile_type info) in
        let ts := tags_or_empty (tags info) in
        match filter (fun t => negb (py_in (JStr t) ts)
                               && negb (py_eq (JStr t) tt)) (snd entry) with
        | [] => st
        | missing =>
            if fix_mode then fix_tags key (append_missing ts missing) st
            else add_issue "DIR_MISMATCH" key st
        end
      else st
  end.

Definition rule_directory (st : check_state) (key : string)
  : result check_state :=
  Ok (fold_left (dir_step key) DIR_EXPECTED_TAGS st).

(** [check_dcss(enriched, issues, fix)]: its four loops over the
    enriched sprites. *)
Definition check_dcss (enriched : list string) (st : check_state)
  : result check_state :=
  st1 <- foldM (rule_strip_for "creature" CREATURE_STRIP_TAGS
                               "CREATURE_EQUIP_TAG") enriched st ;;
  st2 <- foldM (rule_strip_for "altar" ALTAR_STRIP_TAGS "ALTAR_EQUIP_TAG")
               enriched st1 ;;
  st3 <- foldM rule_altar_alignment enriched st2 ;;
  foldM rule_directory enriched st3.

End Rules.

(** The number of code points of a string in UTF-8. *)
Fixpoint py_len (s : string) : nat :=
  match s with
  | EmptyString => 0
  | String c r =>
      let n := N_of_ascii c in
      if ((128 <=? n) && (n <? 192))%N then py_len r else S (py_len r)
  end.

(** The checks that only report: tag count, description length,
    duplicate descriptions. *)
Definition report_tag_count (st : check_state) (key : string)
  : result check_state :=
  with_sprite key st (fun info =>
    let n := List.length (tags_or_empty (tags info)) in
    if n <? 3 then Ok (add_issue "FEW_TAGS" key st)
    else if 10 <? n then Ok (add_issue "MANY_TAGS" key st)
    else Ok st).

Definition report_description_length (st : check_state) (key : string)
  : result check_state :=
  with_sprite key st (fun info =>
    match description info with
    | Some (JStr d) =>
        if py_len d <? 30 then Ok (add_issue "SHORT_DESC" key st)
        else if 300 <? py_len d then Ok (add_issue "LONG_DESC" key st)
        else Ok st
    | _ => Raise TypeError
    end).

(** [desc_map]: description to the keys that carry it, in order. *)
Fixpoint desc_map_add (d key : string) (m : list (string * list string))
  : list (string * list string) :=
  match m with
  | [] => [(d, [key])]
  | (d', ks) :: r =>
      if String.eqb d' d then (d', ks ++ [key]) :: r
      else (d', ks) :: desc_map_add d key r
  end.

Definition description_of (sprites : catalog) (key : string) : string :=
  match Dict.get key sprites with
  | Some info =>
      match description info with Some (JStr d) => d | _ => EmptyString end
  | None => EmptyString
  end.

Fixpoint dedup (l : list string) : list string :=
  match l with
  | [] => []
  | x :: r => if in_list x r then dedup r else x :: dedup r
  end.

Definition report_duplicates (enriched : list string) (st : check_state)
  : check_state :=
  let desc_map :=
    fold_left (fun m key => desc_map_add (description_of (c_sprites st) key) key m)
              enriched [] in
  fold_left
    (fun acc dk =>
       let keys := snd dk in
       if (1 <? List.length keys)
          && (1 <? List.length
                     (dedup (map (fun k => strip_number_suffix (file_stem k))
                                 keys)))
       then add_issue "DUPE_DESC" (PyStr.join ", " keys) acc
       else acc)
    desc_map st.

(** The atlases of the registry and their [check_extra]. *)
Inductive atlas : Type := Utumno | Supplemental | Combined | Urizen | Kenney.

Definition has_check_extra (a : atlas) : bool :=
  match a with
  | Utumno => true
  | Supplemental => true
  | Combined => true
  | Urizen => false
  | Kenney => false
  end.

(** [enriched = {k: v for k, v in sprites.items() if is_enriched(v)}]:
    the keys, the sprites being those of the catalog itself. *)
Definition enriched_keys (sprites : catalog) : list string :=
  map fst (filter (fun kv => is_enriched (snd kv)) sprites).

(** All the checks of [check_atlas], in order, on the loaded sprites. *)
Definition run_checks (a : atlas) (fix_mode : bool) (sprites : catalog)
  : result check_state :=
  let enriched := enriched_keys sprites in
  st1 <- foldM (rule_tile_type fix_mode) enriched (mkCheck sprites [] 0) ;;
  st2 <- foldM (rule_tag_spelling fix_mode) enriched st1 ;;
  st3 <- foldM (rule_description_spelling fix_mode) enriched st2 ;;
  st4 <- (if has_check_extra a then check_dcss fix_mode enriched st3
          else Ok st3) ;;
  st5 <- foldM report_tag_count enriched st4 ;;
  st6 <- foldM report_description_length enriched st5 ;;
  Ok (report_duplicates enriched st6).

(** What [check_atlas] does to the files. *)
Inductive io_event : Type :=
| BackupTaken (content : catalog)
| IndexSaved (content : catalog).

(** [check_atlas(atlas_name, dcss_dir, fix)] on the tagged output file
    ([None]: there is none): the file operations in order, and how the
    checks ended ([Ok None]: nothing was checked). *)
Definition check_atlas (a : atlas) (fix_mode : bool) (file : option catalog)
  : list io_event * result (option check_state) :=
  match file with
  | None => ([], Ok None)
  | Some data =>
      let backup := if fix_mode then [BackupTaken data] else [] in
      match enriched_keys data with
      | [] => (backup, Ok None)
      | _ =>
          match run_checks a fix_mode data with
          | Raise e => (backup, Raise e)
          | Ok st =>
              (backup ++ (if fix_mode && (0 <? c_fixes st)
                          then [IndexSaved (c_sprites st)] else []),
               Ok (Some st))
          end
      end
  end.

(* ------------------------------------------------------------------ *)
(** ** The batches of the verify pass ([verify_atlas], planning) *)

(** [enriched_keys] of [verify_atlas]: the keys of the sprites with a
    description and a tile type, then [enriched_keys.sort()]. *)
Definition verify_keys (sprites : catalog) : list string :=
  sorted (map fst (filter (fun kv => verifiable (snd kv)) sprites)).

(** The batches the verify loop goes through. *)
Definition verify_batches (sprites : catalog) (batch_size limit : nat)
  : list (list string) :=
  batch_slices (apply_limit limit batch_size (verify_keys sprites)) batch_size.

(* ------------------------------------------------------------------ *)
(** ** The batch grid ([compose_batch_grid]) *)

(** How [compose_batch_grid] fails: [ValueError("No images to compose")],
    or the [ZeroDivisionError] of [len(images) / cols]. *)
Inductive compose_error : Type :=
| NoImagesToCompose
| ColsIsZero.

(** An image pasted on the grid: where, and its size. *)
Record pasted : Type := mkPasted {
  at_x : nat;
  at_y : nat;
  img_w : nat;
  img_h : nat;
}.

(** The grid: its size and what was pasted on it, in order. *)
Record grid : Type := mkGrid {
  grid_w : nat;
  grid_h : nat;
  pastes : list pasted;
}.

Definition label_h : nat := 20.

(** The loop over [enumerate(zip(images, names))], from index [i] on:
    [r, c = divmod(i, cols)], the image centred in its cell, the room
    for the label below it. *)
Fixpoint paste_all (cols cell_w cell_h i : nat)
         (items : list ((nat * nat) * string)) : list pasted :=
  match items with
  | [] => []
  | ((w, h), _) :: rest =>
      mkPasted ((i mod cols) * cell_w + (cell_w - w) / 2)
               ((i / cols) * cell_h) w h
      :: paste_all cols cell_w cell_h (S i) rest
  end.

(** [compose_batch_grid(images, names, cols)], an image being its width
    and height. *)
Definition compose_batch_grid (images : list (nat * nat))
           (names : list string) (cols : nat) : compose_error + grid :=
  match images with
  | [] => inl NoImagesToCompose
  | _ =>
      if cols =? 0 then inl ColsIsZero
      else
        let rows := ceil_div (List.length images) cols in
        let cell_w := list_max (map fst images) in
        let cell_h := list_max (map snd images) + label_h in
        inr (mkGrid (cols * cell_w) (rows * cell_h)
                    (paste_all cols cell_w cell_h 0 (combine images names)))
  end.

(** Two pasted images share no pixel. *)
Definition apart (p q : pasted) : Prop :=
  at_x p + img_w p <= at_x q \/ at_x q + img_w q <= at_x p \/
  at_y p + img_h p <= at_y q \/ at_y q + img_h q <= at_y p.

(* ------------------------------------------------------------------ *)
(** ** The report of unindexed tiles ([report_unindexed]) *)

(** What the scan reads of a sprite of the main index: [sprite["row"]],
    [sprite["col"]], [sprite.get("tiles_x", 1)] and
    [sprite.get("tiles_y", 1)]. *)
Record placement : Type := mkPlacement {
  p_row : nat;
  p_col : nat;
  p_tiles_x : nat;
  p_tiles_y : nat;
}.

Definition pos : Type := (nat * nat)%type.

Definition pos_eqb (a b : pos) : bool :=
  (fst a =? fst b) && (snd a =? snd b).

(** [p in s] and [s.add(p)] on a set of positions, kept in the order of
    first insertion. *)
Definition pos_mem (p : pos) (s : list pos) : bool := existsb (pos_eqb p) s.

Definition pos_add (s : list pos) (p : pos) : list pos :=
  if pos_mem p s then s else s ++ [p].

(** The positions the three nested loops add, in the order they add
    them: for each sprite, for [dr in range(ty)], for [dc in range(tx)],
    [(r + dr, c + dc)]. *)
Definition covered_positions (sprites : list placement) : list pos :=
  flat_map (fun s =>
              flat_map (fun dr =>
                          map (fun dc => (p_row s + dr, p_col s + dc))
                              (seq 0 (p_tiles_x s)))
                       (seq 0 (p_tiles_y s)))
           sprites.

(** The set [indexed]. *)
Definition indexed_positions (sprites : list placement) : list pos :=
  fold_left pos_add (covered_positions sprites) [].

(** The report: the fields that are counted or listed. *)
Record unindexed_report : Type := mkReport {
  total_atlas_tiles : nat;
  indexed_tile_positions : nat;
  unindexed_nonempty_tiles : nat;
  tiles : list pos;
}.

Section ReportUnindexed.

(** The size of the atlas image, the tile size of the index, and
    whether the tile at a position has a visible pixel
    ([tile.getbbox() is not None]). *)
Variable atlas_width atlas_height : nat.
Variable tw th : nat.
Variable visible : nat -> nat -> bool.

(** The scan of all the tiles, row by row. *)
Definition scan_tiles (indexed : list pos) (total_rows total_cols : nat)
  : list pos :=
  flat_map (fun row =>
              flat_map (fun col =>
                          if pos_mem (row, col) indexed then []
                          else if visible row col then [(row, col)]
                          else [])
                       (seq 0 total_cols))
           (seq 0 total_rows).

(** [report_unindexed]: [None] is the [ZeroDivisionError] of a tile size
    of zero. *)
Definition report_unindexed (sprites : list placement)
  : option unindexed_report :=
  if (tw =? 0) || (th =? 0) then None
  else
    let total_cols := atlas_width / tw in
    let total_rows := atlas_height / th in
    let indexed := indexed_positions sprites in
    let unindexed := scan_tiles indexed total_rows total_cols in
    Some (mkReport (total_rows * total_cols) (List.length indexed)
                   (List.length unindexed) unindexed).

End ReportUnindexed.

(** A sprite covers a position. *)
Definition covers (s : placement) (p : pos) : Prop :=
  p_row s <= fst p < p_row s + p_tiles_y s /\
  p_col s <= snd p < p_col s + p_tiles_x s.

(** Row by row, and within a row column by column. *)
Definition pos_lt (a b : pos) : Prop :=
  fst a < fst b \/ (fst a = fst b /\ snd a < snd b).

(* ------------------------------------------------------------------ *)
(** ** Pixels as text ([generate_alias_sequence],
       [image_to_grid_and_palette], [batch_to_text], [_pad_cell]) *)

(** [generate_alias_sequence()]: [A] to [Z], [0] to [9], [AA] to [ZZ],
    in the order the generator yields them. *)
Definition upper_letters : list ascii :=
  map (fun n => ascii_of_nat (65 + n)) (seq 0 26).

Definition decimal_digits : list ascii :=
  map (fun n => ascii_of_nat (48 + n)) (seq 0 10).

Definition alias_sequence : list string :=
  map (fun c => String c EmptyString) upper_letters
  ++ map (fun d => String d EmptyString) decimal_digits
  ++ flat_map (fun c1 =>
                 map (fun c2 => String c1 (String c2 EmptyString))
                     upper_letters)
              upper_letters.

(** A pixel of an RGBA image. *)
Record pixel : Type := mkPixel {
  red : Byte.byte;
  green : Byte.byte;
  blue : Byte.byte;
  alpha : Byte.byte;
}.

(** One hexadecimal digit in upper case, and a byte as two of them
    (the format [02X]). *)
Definition hex_digit (n : N) : ascii :=
  if (n <? 10)%N then ascii_of_N (48 + n) else ascii_of_N (55 + n).

Definition hex2 (b : Byte.byte) : string :=
  let n := Byte.to_N b in
  String (hex_digit (n / 16)) (String (hex_digit (n mod 16)) EmptyString).

(** The colour of a pixel as the f-string of the source writes it: a
    hash sign and the three bytes. *)
Definition hex_color (p : pixel) : string :=
  String "#" (hex2 (red p) ++ hex2 (green p) ++ hex2 (blue p))%string.

(** [s.upper()], within ASCII. *)
Definition upper_char (c : ascii) : ascii :=
  let n := N_of_ascii c in
  if ((97 <=? n) && (n <=? 122))%N then ascii_of_N (n - 32) else c.

Fixpoint upper (s : string) : string :=
  match s with
  | EmptyString => EmptyString
  | String c r => String (upper_char c) (upper r)
  end.

(** The state of the conversion: [color_to_alias], what the generator
    has left to yield, and [used_aliases]. *)
Record palette_state : Type := mkPalette {
  color_to_alias : list (string * string);
  alias_gen : list string;
  used_aliases : list string;
}.

(** [alias = next(alias_gen)] and [while alias in used_aliases: alias =
    next(alias_gen)]: the alias and what the generator has left, or
    [None] for the [StopIteration] of a generator at its end. *)
Fixpoint next_unused (gen used : list string)
  : option (string * list string) :=
  match gen with
  | [] => None
  | alias :: rest =>
      if in_list alias used then next_unused rest used
      else Some (alias, rest)
  end.

Definition transparent_cell : string := ".".

(** The cell of one pixel. *)
Definition encode_pixel (alpha_threshold : N) (p : pixel) (st : palette_state)
  : option (string * palette_state) :=
  if (Byte.to_N (alpha p) <? alpha_threshold)%N
  then Some (transparent_cell, st)
  else
    match Dict.get (hex_color p) (color_to_alias st) with
    | Some alias => Some (alias, st)
    | None =>
        match next_unused (alias_gen st) (used_aliases st) with
        | None => None
        | Some (alias, rest) =>
            Some (alias,
                  mkPalette (Dict.set (hex_color p) alias (color_to_alias st))
                            rest (alias :: used_aliases st))
        end
    end.

(** One row of pixels, from the left. *)
Fixpoint encode_row (alpha_threshold : N) (row : list pixel)
         (st : palette_state) : option (list string * palette_state) :=
  match row with
  | [] => Some ([], st)
  | p :: rest =>
      match encode_pixel alpha_threshold p st with
      | None => None
      | Some (cell, st1) =>
          match encode_row alpha_threshold rest st1 with
          | None => None
          | Some (cells, st2) => Some (cell :: cells, st2)
          end
      end
  end.

(** All the rows, from the top. *)
Fixpoint encode_rows (alpha_threshold : N) (rows : list (list pixel))
         (st : palette_state)
  : option (list (list string) * palette_state) :=
  match rows with
  | [] => Some ([], st)
  | row :: rest =>
      match encode_row alpha_threshold row st with
      | None => None
      | Some (cells, st1) =>
          match encode_rows alpha_threshold rest st1 with
          | None => None
          | Some (grid, st2) => Some (cells :: grid, st2)
          end
      end
  end.

(** [color_to_alias] at the start: the existing colours under the upper
    case of their keys. *)
Definition initial_colors (existing_colors : list (string * string))
  : list (string * string) :=
  fold_left (fun acc ca => Dict.set (upper (fst ca)) (snd ca) acc)
            existing_colors [].

(** [palette_entries]: alias to colour. *)
Definition palette_of (colors : list (string * string))
  : list (string * string) :=
  fold_left (fun acc ca => Dict.set (snd ca) (fst ca) acc) colors [].

(** [image_to_grid_and_palette(pil_image, alpha_threshold,
    existing_colors)] on the rows of pixels of the image, an absent
    [existing_colors] being the empty dictionary: the grid and the
    palette, or [None] when the generator runs out of aliases. *)
Definition image_to_grid_and_palette (image : list (list pixel))
           (alpha_threshold : N) (existing_colors : list (string * string))
  : option (list (list string) * list (string * string)) :=
  let colors := initial_colors existing_colors in
  match encode_rows alpha_threshold image
                    (mkPalette colors alias_sequence (map snd colors)) with
  | None => None
  | Some (grid, st) => Some (grid, palette_of (color_to_alias st))
  end.

(** The first loop of [batch_to_text]: the grids of the images, one
    after the other, and [color_map], to which each image adds the
    colours it brought. *)
Fixpoint batch_grids (images : list (list (list pixel))) (alpha_threshold : N)
         (color_map : list (string * string))
  : option (list (list (list string)) * list (string * string)) :=
  match images with
  | [] => Some ([], color_map)
  | img :: rest =>
      match image_to_grid_and_palette img alpha_threshold color_map with
      | None => None
      | Some (grid, palette_entries) =>
          let color_map' :=
            fold_left (fun acc ah =>
                         if Dict.mem (snd ah) acc then acc
                         else Dict.set (snd ah) (fst ah) acc)
                      palette_entries color_map in
          match batch_grids rest alpha_threshold color_map' with
          | None => None
          | Some (grids, final) => Some (grid :: grids, final)
          end
      end
  end.

(** [_pad_cell(value)]: [value.ljust(2, ".")]. *)
Definition pad_cell (value : string) : string :=
  match String.length value with
  | 0 => ".."
  | 1 => (value ++ ".")%string
  | _ => value
  end.

(** The pixels that are not transparent, and their colours: of a row,
    of an image, of a batch of images. *)
Definition opaque (alpha_threshold : N) (p : pixel) : bool :=
  negb (Byte.to_N (alpha p) <? alpha_threshold)%N.

Definition colors_of_row (alpha_threshold : N) (row : list pixel)
  : list string :=
  map hex_color (filter (opaque alpha_threshold) row).

Definition colors_of_image (alpha_threshold : N) (image : list (list pixel))
  : list string :=
  flat_map (colors_of_row alpha_threshold) image.

Definition colors_of_batch (alpha_threshold : N)
           (images : list (list (list pixel))) : list string :=
  flat_map (colors_of_image alpha_threshold) images.

(** The colours of a list in the order in which they first appear, each
    once, those of [seen] left out. *)
Fixpoint first_seen (seen colors : list string) : list string :=
  match colors with
  | [] => []
  | c :: rest =>
      if in_list c seen then first_seen seen rest
      else c :: first_seen (seen ++ [c]) rest
  end.

(** What a cell says of its pixel under a colour map: the dot for a
    transparent pixel, an alias of the colour otherwise. *)
Definition cell_of (alpha_threshold : N) (colors : list (string * string))
           (p : pixel) (cell : string) : Prop :=
  if opaque alpha_threshold p then In (hex_color p, cell) colors
  else cell = transparent_cell.

(** The same, read from a palette, alias to colour. *)
Definition decodes (alpha_threshold : N) (palette : list (string * string))
           (p : pixel) (cell : string) : Prop :=
  if opaque alpha_threshold p
  then Dict.get cell palette = Some (hex_color p)
  else cell = transparent_cell.

(** A colour map whose aliases are the first ones of the sequence, in
    its order, and that has no colour twice. *)
Definition in_sequence (colors : list (string * string)) : Prop :=
  NoDup (map fst colors) /\
  map snd colors = firstn (List.length colors) alias_sequence.

(** Keys written in upper case. *)
Definition upper_keys (colors : list (string * string)) : Prop :=
  Forall (fun k => upper k = k) (map fst colors).

(** What holds of the state between two pixels: the aliases handed out
    are the used ones, and the generator stands at or before the first
    alias not handed out. *)
Definition palette_inv (st : palette_state) : Prop :=
  in_sequence (color_to_alias st) /\
  (forall a, In a (used_aliases st) <-> In a (map snd (color_to_alias st))) /\
  exists j, j <= List.length (color_to_alias st) /\
            alias_gen st = skipn j alias_sequence.

(** A pair the other way round: a colour map entry as a palette entry. *)
Definition flipped (ca : string * string) : string * string :=
  (snd ca, fst ca).

(* ------------------------------------------------------------------ *)
(** ** The batch loop of [process_atlas] *)

Definition TILE_SCALE : nat := 8.

(** The size of an image given by its rows of pixels, and the size of
    [upscale(img)]. *)
Definition image_size (img : list (list pixel)) : nat * nat :=
  (List.length (hd [] img), List.length img).

Definition upscale (size : nat * nat) : nat * nat :=
  (fst size * TILE_SCALE, snd size * TILE_SCALE).

(** [grid_cols = 4 if len(images) > 3 else len(images)]. *)
Definition grid_cols (n : nat) : nat := if 3 <? n then 4 else n.

Definition compose_exn (err : compose_error) : exn :=
  match err with
  | NoImagesToCompose => ValueError
  | ColsIsZero => ZeroDivisionError
  end.

(** A run in progress: the sprites in memory, the catalogs that
    [save_index] wrote to the end (latest first), how many oracle calls
    were made, and what the output file holds ([None]: no such file). *)
Record run_state : Type := mkRun {
  st_sprites : catalog;
  st_saved : list catalog;
  st_calls : nat;
  st_file : option string;
}.

Section Process.

Variable json_loads : string -> option json.

(** Whether [get_sprite_image] finds an image for a key (a loose file or
    a crop of the atlas); the files do not change during a run. *)
Variable has_image : string -> bool.

(** The outcome of the [n]-th oracle call of the run. *)
Variable oracle : nat -> run_outcome.

(** The image [get_sprite_image] returns for a key that has one, as
    its rows of RGBA pixels. *)
Variable raw_image : string -> list (list pixel).

(** Whether the save that follows [n] completed ones raises for the
    catalog it is given (a string that cannot be encoded, a full disk),
    after how many of its file operations, and what it raises. *)
Variable save_fault : nat -> catalog -> option (nat * exn).

(** The pieces [json.dump] writes. *)
Variable json_dump : catalog -> list string.

(** What comes before the prompt: the grid of the upscaled images
    ([compose_batch_grid]) and the text of the raw ones
    ([batch_to_text], whose alias generator raises [StopIteration] when
    it runs out).  The exception, if any.  Both results go to files of
    the temporary directory, which is no part of the state. *)
Definition prepare_batch (valid_keys : list string) : option exn :=
  let raw_images := map raw_image valid_keys in
  let images := map (fun img => upscale (image_size img)) raw_images in
  match compose_batch_grid images valid_keys
                           (grid_cols (List.length images)) with
  | inl err => Some (compose_exn err)
  | inr _ =>
      match batch_grids raw_images 128 [] with
      | None => Some StopIteration
      | Some _ => None
      end
  end.

(** One round of the batch loop.  The exception, if any, ends the run. *)
Definition process_batch (batch_keys : list string) (st : run_state)
  : run_state * option exn :=
  match filter has_image batch_keys with
  | [] => (st, None)
  | valid_keys =>
      match prepare_batch valid_keys with
      | Some e => (st, Some e)
      | None =>
          match attempts json_loads oracle max_retries (st_calls st) with
          | (calls, Raise e) =>
              (mkRun (st_sprites st) (st_saved st) calls (st_file st), Some e)
          | (calls, Ok None) =>
              (mkRun (st_sprites st) (st_saved st) calls (st_file st), None)
          | (calls, Ok (Some enrichments)) =>
              let '(sprites, _) :=
                merge_enrichments valid_keys enrichments (st_sprites st) 0 in
              match save_fault (List.length (st_saved st)) sprites with
              | Some (n, e) =>
                  (mkRun sprites (st_saved st) calls
                         (save_index_interrupted json_dump n sprites
                                                 (st_file st)),
                   Some e)
              | None =>
                  (mkRun sprites (sprites :: st_saved st) calls
                         (save_index json_dump sprites (st_file st)),
                   None)
              end
          end
      end
  end.

Fixpoint process_batches (batches : list (list string)) (st : run_state)
  : run_state * option exn :=
  match batches with
  | [] => (st, None)
  | batch :: rest =>
      match process_batch batch st with
      | (st', None) => process_batches rest st'
      | (st', Some e) => (st', Some e)
      end
  end.

(** [process_atlas] from the loaded index on, with the [claude] command
    at hand, [output] being what the output file holds: nothing to do
    when every sprite is enriched, nothing done in a dry run. *)
Definition process_atlas (sprites : catalog) (output : option string)
           (batch_size limit : nat) (dry_run : bool)
  : run_state * option exn :=
  let st := mkRun sprites [] 0 output in
  match todo sprites with
  | [] => (st, None)
  | _ =>
      if dry_run then (st, None)
      else process_batches (plan_batches sprites batch_size limit) st
  end.

End Process.

(** The catalog of the last save that ran to its end, or the one this
    run loaded when there is none: what the next run loads when no save
    was cut short. *)
Definition persisted (loaded : catalog) (st : run_state) : catalog :=
  match st_saved st with
  | [] => loaded
  | latest :: _ => latest
  end.

(** What the output file holds after saves that all ran to their end. *)
Definition file_after (json_dump : catalog -> list string)
           (output : option string) (saved : list catalog) : option string :=
  match saved with
  | [] => output
  | latest :: _ => Some (encoded json_dump latest)
  end.

(* ------------------------------------------------------------------ *)
(** ** Auxiliary notions for the proofs *)

(** What a key outside the batch, bound to [v] in memory and in every
    saved catalog, is bound to after the round. *)
Definition key_kept (k : string) (v : option sprite_info) (st : run_state)
  : Prop :=
  Dict.get k (st_sprites st) = v /\
  Forall (fun saved => Dict.get k saved = v) (st_saved st).

(** All the pieces, one after the other. *)
Fixpoint glue (pieces : list string) : string :=
  match pieces with
  | [] => EmptyString
  | p :: r => (p ++ glue r)%string
  end.

(** Two states with the same sprites and the same count of fixes. *)
Definition same_data (st st' : check_state) : Prop :=
  c_sprites st' = c_sprites st /\ c_fixes st' = c_fixes st.

(** What a round keeps: the keys of the catalog in memory and of every
    catalog saved. *)
Definition run_inv (keys : list string) (st : run_state) : Prop :=
  Dict.keys (st_sprites st) = keys
  /\ Forall (fun saved => Dict.keys saved = keys) (st_saved st).

(** The output file is whole: the last save ran to its end and wrote
    the catalog in memory, or nothing was saved and memory and file are
    as the run found them. *)
Definition file_whole (json_dump : catalog -> list string)
           (loaded : catalog) (output : option string) (st : run_state)
  : Prop :=
  persisted loaded st = st_sprites st
  /\ st_file st = file_after json_dump output (st_saved st).

(** The output file is torn: the run ended by the exception of a save
    of the catalog in memory, and the file holds what that save wrote
    before it raised. *)
Definition file_torn (save_fault : nat -> catalog -> option (nat * exn))
           (json_dump : catalog -> list string) (output : option string)
           (st : run_state) (outcome : option exn) : Prop :=
  exists n e,
    outcome = Some e
    /\ save_fault (List.length (st_saved st)) (st_sprites st) = Some (n, e)
    /\ st_file st
       = save_index_interrupted json_dump n (st_sprites st)
           (file_after json_dump output (st_saved st)).

(** An oracle entry with the three fields filled in, and whose tags do
    not repeat the tile type, as the prompt asks. *)
Definition complete_entry (e : json) : bool :=
  match e with
  | JObj m =>
      truthy (entry_get "description" m)
      && truthy (entry_get "tile_type" m)
      && match entry_get "tags" m with
         | JArr (t :: ts) => negb (py_in (entry_get "tile_type" m) (t :: ts))
         | _ => false
         end
  | _ => false
  end.

(** The oracle answers a call at once with an array that has a complete
    entry for each key of the batch. *)
Definition answers_batch (json_loads : string -> option json)
           (oracle : nat -> run_outcome) (call : nat) (batch : list string)
  : Prop :=
  exists stdout answer,
    oracle call = Completed 0 stdout
    /\ parse_ai_response json_loads stdout = Ok (Some answer)
    /\ List.length batch <= List.length answer
    /\ Forall (fun e => complete_entry e = true)
              (firstn (List.length batch) answer).

(** An oracle whose [i]-th call answers the [i]-th batch of the plan. *)
Definition reliable_oracle (json_loads : string -> option json)
           (oracle : nat -> run_outcome) (plan : list (list string)) : Prop :=
  forall i batch, nth_error plan i = Some batch ->
    answers_batch json_loads oracle i batch.

(** The images of a batch have few enough colours for the aliases. *)
Definition within_palette (raw_image : string -> list (list pixel))
           (batch : list string) : Prop :=
  exists cs,
    incl (colors_of_batch 128 (map raw_image batch)) cs
    /\ List.length cs <= 712.

(** Every sprite of the catalog is enriched. *)
Definition all_enriched (sprites : catalog) : Prop :=
  forall k info, In (k, info) sprites -> is_enriched info = true.

(** Whether every sprite with a description and a tile type in [a] still
    has both in [b]. *)
Definition stays_verifiable (a b : catalog) : Prop :=
  forall k info, Dict.get k a = Some info -> verifiable info = true ->
    exists info', Dict.get k b = Some info' /\ verifiable info' = true.


(** What the checks may do between two states, for the keys [E] they
    go through: keep the keys of the catalog, count fixes upwards,
    leave the catalog as it is when they count none, keep the tile type
    of every sprite, and keep whole the sprites outside [E]. *)
Definition check_frame (E : list string) (st st' : check_state) : Prop :=
  Dict.keys (c_sprites st') = Dict.keys (c_sprites st)
  /\ c_fixes st <= c_fixes st'
  /\ (c_fixes st' = c_fixes st -> c_sprites st' = c_sprites st)
  /\ forall k info, Dict.get k (c_sprites st) = Some info ->
       exists info', Dict.get k (c_sprites st') = Some info'
                     /\ tile_type info' = tile_type info
                     /\ (~ In k E -> info' = info).
(* ------------------------------------------------------------------ *)
(** ** Example data *)

Definition planner_demo : catalog :=
  [ ("monster/undead/zombie.png", bare_sprite);
    ("dungeon/doors/open.png",
     tagged_sprite "An open wooden door" ["wood"; "exterior"] "door");
    ("item/ring/gold.png", bare_sprite);
    ("monster/undead/ghoul.png", mkSprite (Some (JStr "A ghoul")) (Some []) None);
    ("logo.png", bare_sprite) ].

Definition straddle_catalog : catalog :=
  [ ("a/1.png", bare_sprite); ("b/1.png", bare_sprite);
    ("b/2.png", bare_sprite) ].

Definition five_bare : catalog :=
  [ ("a/1.png", bare_sprite); ("a/2.png", bare_sprite);
    ("a/3.png", bare_sprite); ("a/4.png", bare_sprite);
    ("a/5.png", bare_sprite) ].

Definition entry_for (d : string) (ts : list string) (tt : string) : json :=
  JObj [ ("description", JStr d); ("tags", JArr (str_tags ts));
         ("tile_type", JStr tt) ].

Definition three_entries : list json :=
  [ entry_for "A stone wall" ["stone"; "corner"] "wall";
    entry_for "A wooden door" ["wood"] "door";
    entry_for "A dirt floor" ["dirt"] "floor" ].

(** JSON text written with single quotes in place of double quotes. *)
Definition json_text (s : string) : string :=
  PyStr.replace_char "'" "034" s.

Definition flaky_oracle (n : nat) : run_outcome :=
  match n with
  | 0 => TimeoutExpired
  | 1 => Completed 1 EmptyString
  | 2 => Completed 0 (json_text "{'result': 'I cannot see the images.'}")
  | _ => Completed 0
           (json_text "{'result': '[{\'description\': \'A blue tile\', \'tags\': [\'floor\'], \'tile_type\': \'terrain\'}]'}")
  end.

Definition armour_catalog : catalog :=
  [ ("item/armour/plate.png",
     tagged_sprite "A suit of steel plate armour on a wooden stand"
                   ["armor"; "metal"; "shield"] "armour") ].

(** [armour_catalog] after one fix run, and after two. *)
Definition armour_respelled : catalog :=
  [ ("item/armour/plate.png",
     tagged_sprite "A suit of steel plate armour on a wooden stand"
                   ["armour"; "metal"; "shield"] "armour") ].

Definition armour_stripped : catalog :=
  [ ("item/armour/plate.png",
     tagged_sprite "A suit of steel plate armour on a wooden stand"
                   ["metal"; "shield"] "armour") ].

Definition player_catalog : catalog :=
  [ ("player/base/human_m.png",
     tagged_sprite "A human male adventurer in plain travelling clothes"
                   ["humanoid"; "unique"; "player"] "creature") ].

Definition untagged_sprite : sprite_info :=
  mkSprite (Some (JStr "A grey stone wall")) None (Some (JStr "wall")).

(** An oracle that always returns the same two complete entries. *)
Definition steady_oracle (n : nat) : run_outcome :=
  Completed 0
    (json_text "{'result': '[{\'description\': \'A blue tile\', \'tags\': [\'floor\'], \'tile_type\': \'terrain\'}, {\'description\': \'A red tile\', \'tags\': [\'lava\', \'hazard\'], \'tile_type\': \'terrain\'}]'}").

Definition steady_answer : list json :=
  [ entry_for "A blue tile" ["floor"] "terrain";
    entry_for "A red tile" ["lava"; "hazard"] "terrain" ].

(** An atlas of two rows of three tiles with one sprite two tiles wide
    at the top left, and a visible pixel everywhere but at the bottom
    right. *)
Definition small_index : list placement := [ mkPlacement 0 0 2 1 ].

Definition small_visible (row col : nat) : bool :=
  negb ((row =? 1) && (col =? 2)).

(** Pixels and small images: a flag of two by two with a transparent
    corner, a leaf of one row, and a row of 713 colours. *)
Definition red_px : pixel := mkPixel Byte.xff Byte.x00 Byte.x00 Byte.xff.
Definition green_px : pixel := mkPixel Byte.x00 Byte.xff Byte.x00 Byte.xff.
Definition blue_px : pixel := mkPixel Byte.x0a Byte.x0b Byte.xfc Byte.x80.
Definition clear_px : pixel := mkPixel Byte.xff Byte.xff Byte.xff Byte.x7f.

Definition flag_image : list (list pixel) :=
  [[red_px; green_px]; [clear_px; red_px]].

Definition leaf_image : list (list pixel) := [[green_px; blue_px]].

Definition byte_of_nat (n : nat) : Byte.byte :=
  match Byte.of_nat n with Some b => b | None => Byte.x00 end.

Definition rainbow_image : list (list pixel) :=
  [map (fun i => mkPixel (byte_of_nat (i / 256)) (byte_of_nat (i mod 256))
                         Byte.x00 Byte.xff)
       (seq 0 713)].

(** Every key with the same image; a disk that takes every save, and a
    full one, on which every save raises once the file is open; a
    stand-in for the encoder, which writes the keys between braces. *)
Definition plain_image (key : string) : list (list pixel) := flag_image.

Definition sound_disk (n : nat) (data : catalog) : option (nat * exn) := None.


Definition keys_dump (data : catalog) : list string :=
  ["{"] ++ map fst data ++ ["}"].

(* ------------------------------------------------------------------ *)
(** ** Facts about the string order *)

Lemma ascii_compare_lt_trans a b c :
  Ascii.compare a b = Lt -> Ascii.compare b c = Lt -> Ascii.compare a c = Lt.
Proof.
  unfold Ascii.compare. rewrite !N.compare_lt_iff. lia.
Qed.

Lemma ascii_compare_refl a : Ascii.compare a a = Eq.
Proof. unfold Ascii.compare. apply N.compare_refl. Qed.

Lemma string_compare_refl s : String.compare s s = Eq.
Proof.
  induction s as [|c s IH]; simpl; [reflexivity|].
  now rewrite ascii_compare_refl.
Qed.

Lemma string_compare_lt_trans :
  forall a b c,
    String.compare a b = Lt -> String.compare b c = Lt ->
    String.compare a c = Lt.
Proof.
  induction a as [|x a IH]; intros [|y b] [|z c]; simpl; try discriminate; auto.
  destruct (Ascii.compare x y) eqn:Exy; try discriminate.
  - apply Ascii.compare_eq_iff in Exy; subst y.
    destruct (Ascii.compare x z) eqn:Exz; try discriminate; auto.
    intros; eapply IH; eauto.
  - intros _.
    destruct (Ascii.compare y z) eqn:Eyz; try discriminate.
    + apply Ascii.compare_eq_iff in Eyz; subst z. now rewrite Exy.
    + intros _. now rewrite (ascii_compare_lt_trans _ _ _ Exy Eyz).
Qed.

Lemma str_le_refl a : str_le a a.
Proof. unfold str_le, String.leb. now rewrite string_compare_refl. Qed.

Lemma str_le_cases a b : str_le a b <-> a = b \/ str_lt a b.
Proof.
  unfold str_le, str_lt, String.leb, String.ltb.
  destruct (String.compare a b) eqn:E; split; intros H; auto;
    try discriminate.
  - left. now apply String.compare_eq_iff.
  - destruct H as [->|H]; [|discriminate].
    rewrite string_compare_refl in E; discriminate.
Qed.

Lemma str_lt_trans a b c : str_lt a b -> str_lt b c -> str_lt a c.
Proof.
  unfold str_lt, String.ltb. intros H1 H2.
  destruct (String.compare a b) eqn:E1; try discriminate.
  destruct (String.compare b c) eqn:E2; try discriminate.
  now rewrite (string_compare_lt_trans _ _ _ E1 E2).
Qed.

Lemma str_lt_irrefl a : ~ str_lt a a.
Proof.
  unfold str_lt, String.ltb. now rewrite string_compare_refl.
Qed.

Lemma str_le_trans a b c : str_le a b -> str_le b c -> str_le a c.
Proof.
  rewrite !str_le_cases. intros [->|H1] [->|H2]; auto.
  right; eapply str_lt_trans; eauto.
Qed.

Lemma str_le_lt_trans a b c : str_le a b -> str_lt b c -> str_lt a c.
Proof.
  rewrite str_le_cases. intros [->|H1] H2; auto.
  eapply str_lt_trans; eauto.
Qed.

Lemma str_lt_le a b : str_lt a b -> str_le a b.
Proof. intros; apply str_le_cases; auto. Qed.

Lemma str_le_antisym a b : str_le a b -> str_le b a -> a = b.
Proof. apply String.leb_antisym. Qed.

Lemma sorted_perm xs : Permutation xs (sorted xs).
Proof. apply StringSort.Permuted_sort. Qed.

Lemma sorted_strongly xs : StronglySorted str_le (sorted xs).
Proof.
  apply (StringSort.StronglySorted_sort xs).
  intros a b c. apply str_le_trans.
Qed.

Lemma sorted_In xs x : In x (sorted xs) <-> In x xs.
Proof.
  split; intros H.
  - eapply Permutation_in; [apply Permutation_sym, sorted_perm|exact H].
  - eapply Permutation_in; [apply sorted_perm|exact H].
Qed.

(* ------------------------------------------------------------------ *)
(** ** Facts about the planner *)

Section GroupFacts.

Lemma get_group_append p q k G :
  Dict.get p (group_append q k G) =
  if String.eqb q p then Some (group_of G q ++ [k]) else Dict.get p G.
Proof.
  induction G as [|[p' ks] G IH]; simpl.
  - unfold group_of; simpl. now destruct (String.eqb q p).
  - destruct (String.eqb p' q) eqn:Eq; simpl.
    + apply String.eqb_eq in Eq; subst p'.
      unfold group_of; simpl. rewrite String.eqb_refl.
      now destruct (String.eqb q p).
    + destruct (String.eqb p' p) eqn:Ep.
      * apply String.eqb_eq in Ep; subst p'. now rewrite String.eqb_sym, Eq.
      * rewrite IH. unfold group_of; simpl. now rewrite Eq.
Qed.

Lemma group_of_append p q k G :
  group_of (group_append q k G) p =
  if String.eqb q p then group_of G p ++ [k] else group_of G p.
Proof.
  unfold group_of at 1. rewrite get_group_append.
  destruct (String.eqb q p) eqn:E; [|reflexivity].
  apply String.eqb_eq in E; now subst.
Qed.

Lemma keys_group_append q k G :
  Dict.keys (group_append q k G) =
  if Dict.mem q G then Dict.keys G else Dict.keys G ++ [q].
Proof.
  unfold Dict.mem, Dict.keys.
  induction G as [|[p' ks] G IH]; simpl; [reflexivity|].
  destruct (String.eqb p' q); simpl; [reflexivity|].
  rewrite IH. now destruct (Dict.get q G).
Qed.

Lemma mem_keys {V : Type} q (G : list (string * V)) :
  Dict.mem q G = true <-> In q (Dict.keys G).
Proof.
  unfold Dict.mem, Dict.keys.
  induction G as [|[p' ks] G IH]; simpl.
  - split; [discriminate|tauto].
  - destruct (String.eqb p' q) eqn:E.
    + apply String.eqb_eq in E. split; auto.
    + apply String.eqb_neq in E. rewrite IH. split; [auto|].
      intros [H|H]; [contradiction|exact H].
Qed.

Lemma group_by_prefix_snoc keys k :
  group_by_prefix (keys ++ [k]) =
  group_append (prefix_of k) k (group_by_prefix keys).
Proof. unfold group_by_prefix. now rewrite fold_left_app. Qed.

(** A group holds the keys of its prefix, in iteration order. *)
Lemma group_of_spec keys p :
  group_of (group_by_prefix keys) p = filter (has p) keys.
Proof.
  induction keys as [|k keys IH] using rev_ind; [reflexivity|].
  rewrite group_by_prefix_snoc, group_of_append, filter_app, IH.
  simpl. unfold has.
  destruct (String.eqb (prefix_of k) p); [reflexivity|].
  now rewrite app_nil_r.
Qed.

Lemma group_keys_spec keys p :
  In p (Dict.keys (group_by_prefix keys)) <->
  exists k, In k keys /\ prefix_of k = p.
Proof.
  revert p. induction keys as [|k keys IH] using rev_ind; intros p.
  - simpl. split; [tauto|]. intros (k & [] & _).
  - rewrite group_by_prefix_snoc, keys_group_append.
    destruct (Dict.mem (prefix_of k) (group_by_prefix keys)) eqn:M.
    + rewrite IH. apply mem_keys, IH in M. split.
      * intros (k' & Hin & E). exists k'. rewrite in_app_iff. auto.
      * intros (k' & Hin & E). apply in_app_iff in Hin.
        destruct Hin as [Hin|[->|[]]]; eauto. now subst p.
    + rewrite in_app_iff, IH. simpl. split.
      * intros [(k' & Hin & E)|[E|[]]].
        -- exists k'. rewrite in_app_iff. auto.
        -- exists k. rewrite in_app_iff. simpl. auto.
      * intros (k' & Hin & E). apply in_app_iff in Hin.
        destruct Hin as [Hin|[->|[]]]; eauto.
Qed.

Lemma group_keys_nodup keys : NoDup (Dict.keys (group_by_prefix keys)).
Proof.
  induction keys as [|k keys IH] using rev_ind; [constructor|].
  rewrite group_by_prefix_snoc, keys_group_append.
  destruct (Dict.mem (prefix_of k) (group_by_prefix keys)) eqn:M; [exact IH|].
  apply NoDup_app; [exact IH|repeat constructor; simpl; tauto|].
  intros x Hx [<-|[]].
  apply mem_keys in Hx. congruence.
Qed.

Lemma filter_split_perm {A : Type} (f g : A -> bool) (l : list A) :
  (forall x, In x l -> f x = true -> g x = false) ->
  Permutation (filter f l ++ filter g l)
              (filter (fun x => f x || g x) l).
Proof.
  induction l as [|x l IH]; intros D; simpl; [constructor|].
  assert (IH' := IH (fun y Hy => D y (or_intror Hy))).
  destruct (f x) eqn:Fx; simpl.
  - rewrite (D x (or_introl eq_refl) Fx). now constructor.
  - destruct (g x); [|exact IH'].
    apply Permutation_sym, Permutation_cons_app, Permutation_sym, IH'.
Qed.

Lemma flat_map_groups_perm (ps : list string) (l : list string) :
  NoDup ps ->
  Permutation (flat_map (fun p => filter (has p) l) ps)
              (filter (fun k => existsb (String.eqb (prefix_of k)) ps) l).
Proof.
  induction 1 as [|p ps Hnin Hnd IH]; simpl.
  - induction l; simpl; auto.
  - eapply Permutation_trans;
      [apply Permutation_app_head, IH|].
    apply (filter_split_perm (has p)
             (fun k => existsb (String.eqb (prefix_of k)) ps)).
    intros k _ Hk. unfold has in Hk. apply String.eqb_eq in Hk.
    destruct (existsb _ ps) eqn:E; [|reflexivity].
    apply existsb_exists in E. destruct E as (q & Hq & E).
    apply String.eqb_eq in E. congruence.
Qed.

Lemma flat_map_perm_pointwise {A B : Type} (f g : A -> list B) (l : list A) :
  (forall x, In x l -> Permutation (f x) (g x)) ->
  Permutation (flat_map f l) (flat_map g l).
Proof.
  induction l as [|x l IH]; intros H; simpl; [constructor|].
  apply Permutation_app; [apply H; now left|].
  apply IH. intros; apply H; now right.
Qed.

Lemma filter_all {A : Type} (f : A -> bool) (l : list A) :
  (forall x, In x l -> f x = true) -> filter f l = l.
Proof.
  induction l as [|x l IH]; intros H; simpl; [reflexivity|].
  rewrite (H x (or_introl eq_refl)). f_equal. apply IH.
  intros; apply H; now right.
Qed.

(** Sorting the groups and their members rearranges the keys. *)
Lemma ordered_perm_keys (keys : list string) :
  let groups := group_by_prefix keys in
  Permutation
    (flat_map (fun p => sorted (group_of groups p)) (sorted (Dict.keys groups)))
    keys.
Proof.
  intros groups.
  eapply Permutation_trans.
  { apply flat_map_perm_pointwise. intros p _.
    apply Permutation_sym, sorted_perm. }
  eapply Permutation_trans.
  { apply flat_map_perm_pointwise. intros p _.
    unfold groups. rewrite group_of_spec. apply Permutation_refl. }
  eapply Permutation_trans.
  { apply flat_map_groups_perm.
    eapply Permutation_NoDup; [apply sorted_perm|apply group_keys_nodup]. }
  rewrite filter_all; [apply Permutation_refl|].
  intros k Hk. apply existsb_exists. exists (prefix_of k).
  split; [|apply String.eqb_refl].
  apply sorted_In, group_keys_spec. eauto.
Qed.

End GroupFacts.

Section OrderFacts.

Context {A : Type}.

Lemma StronglySorted_app (R : A -> A -> Prop) (l1 l2 : list A) :
  StronglySorted R l1 -> StronglySorted R l2 ->
  (forall x y, In x l1 -> In y l2 -> R x y) ->
  StronglySorted R (l1 ++ l2).
Proof.
  induction 1 as [|x l1 S1 IH F1]; intros S2 H; simpl; [exact S2|].
  constructor.
  - apply IH; [exact S2|]. intros; apply H; simpl; auto.
  - apply Forall_app. split; [exact F1|].
    apply Forall_forall. intros y Hy. apply H; simpl; auto.
Qed.

Lemma StronglySorted_weaken (R R' : A -> A -> Prop) (l : list A) :
  StronglySorted R l ->
  (forall x y, In x l -> In y l -> R x y -> R' x y) ->
  StronglySorted R' l.
Proof.
  induction 1 as [|x l S IH F]; intros H; constructor.
  - apply IH. intros; apply H; simpl; auto.
  - rewrite Forall_forall in *. intros y Hy.
    apply H; simpl; auto.
Qed.

End OrderFacts.

Lemma ordered_sorted_keys (keys : list string) :
  let groups := group_by_prefix keys in
  StronglySorted key_order
    (flat_map (fun p => sorted (group_of groups p)) (sorted (Dict.keys groups))).
Proof.
  intros groups.
  assert (Hmem : forall p k, In k (sorted (group_of groups p)) -> prefix_of k = p).
  { intros p k Hk. apply (proj1 (sorted_In _ _)) in Hk. unfold groups in Hk.
    rewrite group_of_spec in Hk. apply filter_In in Hk.
    destruct Hk as [_ Hk]. now apply String.eqb_eq in Hk. }
  assert (Hnd : NoDup (sorted (Dict.keys groups))).
  { eapply Permutation_NoDup; [apply sorted_perm|apply group_keys_nodup]. }
  assert (Hss := sorted_strongly (Dict.keys groups)).
  induction (sorted (Dict.keys groups)) as [|p ps IH]; simpl; [constructor|].
  apply StronglySorted_inv in Hss. destruct Hss as [Hss Hall].
  inversion Hnd as [|? ? Hnin Hnd']; subst.
  apply StronglySorted_app.
  - eapply StronglySorted_weaken; [apply sorted_strongly|].
    intros x y Hx Hy Hle. right. split; [|exact Hle].
    now rewrite (Hmem _ _ Hx), (Hmem _ _ Hy).
  - now apply IH.
  - intros x y Hx Hy. left.
    apply in_flat_map in Hy. destruct Hy as (q & Hq & Hy).
    rewrite (Hmem _ _ Hx), (Hmem _ _ Hy).
    rewrite Forall_forall in Hall. specialize (Hall q Hq).
    apply str_le_cases in Hall. destruct Hall as [->|Hlt]; [contradiction|exact Hlt].
Qed.

Section SliceFacts.

Context {A : Type}.

Lemma ceil_div_step n b :
  1 <= b -> 0 < n -> ceil_div n b = S (ceil_div (n - b) b).
Proof.
  intros Hb Hn. unfold ceil_div.
  destruct (Nat.le_gt_cases b n) as [Hle|Hlt].
  - replace (n + b - 1) with ((n - b + b - 1) + 1 * b) by lia.
    rewrite Nat.div_add by lia. lia.
  - replace (n - b) with 0 by lia. simpl.
    rewrite (Nat.div_small (b - 1) b) by lia.
    replace (n + b - 1) with ((n - 1) + 1 * b) by lia.
    rewrite Nat.div_add by lia.
    rewrite Nat.div_small by lia. reflexivity.
Qed.

Lemma ceil_div_zero b : 1 <= b -> ceil_div 0 b = 0.
Proof. intros; unfold ceil_div; simpl. apply Nat.div_small; lia. Qed.

(** [ceil_div n b] is the least count of [b]-sized slots that hold [n]. *)
Lemma ceil_div_spec n b :
  1 <= b -> n <= ceil_div n b * b /\ (0 < n -> (ceil_div n b - 1) * b < n).
Proof.
  intros Hb. unfold ceil_div.
  pose proof (Nat.div_mod_eq (n + b - 1) b) as E.
  pose proof (Nat.mod_upper_bound (n + b - 1) b ltac:(lia)) as U.
  split; [nia|]. intros Hn.
  assert (1 <= (n + b - 1) / b).
  { destruct ((n + b - 1) / b) eqn:D; [|lia]. nia. }
  nia.
Qed.

(** The starts of the loop: [0, b, 2b, ...] below [stop]. *)
Lemma range_loop_spec step : 1 <= step ->
  forall fuel cur stop, stop - cur <= fuel ->
    range_loop fuel cur stop step =
    map (fun i => cur + i * step) (seq 0 (ceil_div (stop - cur) step)).
Proof.
  intros Hs. induction fuel as [|fuel IH]; intros cur stop Hf; simpl.
  - replace (stop - cur) with 0 by lia. now rewrite ceil_div_zero.
  - destruct (cur <? stop) eqn:E.
    + apply Nat.ltb_lt in E.
      rewrite (ceil_div_step (stop - cur) step Hs) by lia.
      rewrite IH by lia. simpl. rewrite Nat.add_0_r. f_equal.
      rewrite <- seq_shift, map_map.
      replace (stop - (cur + step)) with (stop - cur - step) by lia.
      apply map_ext. intros i. simpl. lia.
    + apply Nat.ltb_ge in E. replace (stop - cur) with 0 by lia.
      now rewrite ceil_div_zero.
Qed.

Lemma py_range_spec stop step : 1 <= step ->
  py_range stop step = map (fun i => i * step) (seq 0 (ceil_div stop step)).
Proof.
  intros Hs. unfold py_range. rewrite range_loop_spec by lia.
  now rewrite Nat.sub_0_r.
Qed.

Lemma slice_width (l : list A) start b :
  slice l start (start + b) = firstn b (skipn start l).
Proof. unfold slice. f_equal. lia. Qed.

Lemma concat_slices_from (l : list A) b : 1 <= b ->
  forall n i,
    List.concat (map (fun s => slice l s (s + b))
                (map (fun j => j * b) (seq i n))) =
    firstn (n * b) (skipn (i * b) l).
Proof.
  intros Hb. induction n as [|n IH]; intros i; simpl; [reflexivity|].
  rewrite IH, slice_width.
  replace (S i * b) with (b + i * b) by lia.
  rewrite <- skipn_skipn.
  set (r := skipn (i * b) l).
  rewrite <- (firstn_skipn b (firstn (b + n * b) r)).
  rewrite firstn_firstn, Nat.min_l by lia.
  f_equal. rewrite skipn_firstn_comm. f_equal. lia.
Qed.

End SliceFacts.

Section BatchFacts.

Variable keys : list string.
Variable b : nat.
Hypothesis Hb : 1 <= b.

Lemma batch_slices_spec :
  batch_slices keys b =
  map (fun i => firstn b (skipn (i * b) keys))
      (seq 0 (ceil_div (List.length keys) b)).
Proof.
  unfold batch_slices. rewrite py_range_spec by exact Hb.
  rewrite map_map. apply map_ext. intros i. apply slice_width.
Qed.

Lemma batch_slices_count :
  List.length (batch_slices keys b) = ceil_div (List.length keys) b.
Proof. now rewrite batch_slices_spec, length_map, length_seq. Qed.

Lemma batch_slices_concat : List.concat (batch_slices keys b) = keys.
Proof.
  unfold batch_slices. rewrite py_range_spec by exact Hb.
  rewrite concat_slices_from by exact Hb. simpl.
  apply firstn_all2. apply (ceil_div_spec (List.length keys) b Hb).
Qed.

Lemma batch_slices_bound :
  Forall (fun batch => List.length batch <= b) (batch_slices keys b).
Proof.
  rewrite batch_slices_spec. apply Forall_forall. intros x Hx.
  apply in_map_iff in Hx. destruct Hx as (i & <- & _).
  rewrite length_firstn. lia.
Qed.

Lemma batch_slices_nth i :
  i < List.length (batch_slices keys b) ->
  nth i (batch_slices keys b) [] = firstn b (skipn (i * b) keys).
Proof.
  rewrite batch_slices_count. intros Hi. rewrite batch_slices_spec.
  rewrite (nth_indep _ [] (firstn b (skipn (0 * b) keys)))
    by (now rewrite length_map, length_seq).
  rewrite (map_nth (fun i => firstn b (skipn (i * b) keys))).
  now rewrite seq_nth.
Qed.

End BatchFacts.

Section PlanFacts.

Variable sprites : catalog.
Hypothesis keys_distinct : NoDup (Dict.keys sprites).

Lemma NoDup_map_filter {A B : Type} (f : A -> B) (g : A -> bool) (l : list A) :
  NoDup (map f l) -> NoDup (map f (filter g l)).
Proof.
  induction l as [|x l IH]; simpl; intros H; [constructor|].
  inversion H as [|? ? Hnin Hnd]; subst.
  destruct (g x); simpl; [|now apply IH].
  constructor; [|now apply IH].
  intros Hin. apply Hnin. apply in_map_iff in Hin.
  destruct Hin as (y & E & Hy). apply filter_In in Hy.
  apply in_map_iff. exists y. tauto.
Qed.

Lemma todo_nodup : NoDup (todo sprites).
Proof. unfold todo. now apply NoDup_map_filter. Qed.

Lemma todo_In k :
  In k (todo sprites) <->
  exists info, In (k, info) sprites /\ is_enriched info = false.
Proof.
  unfold todo. rewrite in_map_iff. split.
  - intros ([k' info] & E & H). simpl in E; subst k'.
    apply filter_In in H. destruct H as [H1 H2]. simpl in H2.
    exists info. split; [exact H1|]. now destruct (is_enriched info).
  - intros (info & H1 & H2). exists (k, info). split; [reflexivity|].
    apply filter_In. split; [exact H1|]. simpl. now rewrite H2.
Qed.

Lemma ordered_keys_perm : Permutation (ordered_keys sprites) (todo sprites).
Proof. apply ordered_perm_keys. Qed.

Lemma ordered_keys_length :
  List.length (ordered_keys sprites) =
  List.length (filter (fun kv => negb (is_enriched (snd kv))) sprites).
Proof.
  rewrite (Permutation_length ordered_keys_perm).
  unfold todo. apply length_map.
Qed.

Lemma catalog_key_unique k (i1 i2 : sprite_info) :
  In (k, i1) sprites -> In (k, i2) sprites -> i1 = i2.
Proof.
  unfold Dict.keys in keys_distinct.
  induction sprites as [|[k' i'] l IH]; simpl; [tauto|].
  inversion keys_distinct as [|? ? Hnin Hnd]; subst.
  intros [E1|H1] [E2|H2].
  - congruence.
  - inversion E1; subst. exfalso. apply Hnin.
    apply in_map_iff. now exists (k, i2).
  - inversion E2; subst. exfalso. apply Hnin.
    apply in_map_iff. now exists (k, i1).
  - now apply IH.
Qed.

End PlanFacts.

Lemma NoDup_app_disjoint {A : Type} (l1 l2 : list A) (x : A) :
  NoDup (l1 ++ l2) -> In x l1 -> In x l2 -> False.
Proof.
  induction l1 as [|a l1 IH]; simpl; intros Hnd H1 H2; [exact H1|].
  inversion Hnd as [|? ? Hnin Hnd']; subst.
  destruct H1 as [->|H1]; [|now apply IH].
  apply Hnin, in_or_app. now right.
Qed.

Lemma NoDup_concat_unique {A : Type} (bs : list (list A)) (x : A) :
  NoDup (List.concat bs) ->
  forall i j, In x (nth i bs []) -> In x (nth j bs []) -> i = j.
Proof.
  induction bs as [|b bs IH]; simpl; intros Hnd i j Hi Hj.
  - destruct i; contradiction.
  - assert (Hd : forall n, In x b -> In x (nth n bs []) -> False).
    { intros n Hb Hn.
      destruct (Nat.lt_ge_cases n (List.length bs)) as [Hlt|Hge].
      - apply (NoDup_app_disjoint _ _ x Hnd Hb).
        apply in_concat. exists (nth n bs []).
        split; [now apply nth_In|exact Hn].
      - rewrite nth_overflow in Hn by exact Hge. contradiction. }
    destruct i as [|i], j as [|j]; auto.
    + exfalso; eauto.
    + exfalso; eauto.
    + f_equal. apply IH; auto. now apply NoDup_app_remove_l in Hnd.
Qed.

(* ------------------------------------------------------------------ *)
(** ** Facts about dictionaries and the merge loop *)

Section DictFacts.

Context {V : Type}.
Implicit Types d : list (string * V).

Lemma get_update k k' (f : V -> V) d :
  Dict.get k (Dict.update k' f d) =
  if String.eqb k' k then option_map f (Dict.get k d) else Dict.get k d.
Proof.
  induction d as [|[q v] d IH]; simpl.
  - now destruct (String.eqb k' k).
  - destruct (String.eqb q k') eqn:E1; simpl.
    + apply String.eqb_eq in E1; subst q.
      now destruct (String.eqb k' k).
    + destruct (String.eqb q k) eqn:E2; [|exact IH].
      apply String.eqb_eq in E2; subst q. now rewrite String.eqb_sym, E1.
Qed.

Lemma get_update_same k (f : V -> V) d :
  Dict.get k (Dict.update k f d) = option_map f (Dict.get k d).
Proof. now rewrite get_update, String.eqb_refl. Qed.

Lemma get_update_other k k' (f : V -> V) d :
  k' <> k -> Dict.get k (Dict.update k' f d) = Dict.get k d.
Proof.
  intros H. rewrite get_update.
  now apply String.eqb_neq in H; rewrite H.
Qed.

Lemma keys_update k (f : V -> V) d :
  Dict.keys (Dict.update k f d) = Dict.keys d.
Proof.
  unfold Dict.keys. induction d as [|[q v] d IH]; simpl; [reflexivity|].
  destruct (String.eqb q k); simpl; [reflexivity|now rewrite IH].
Qed.

Lemma get_Some_In k v d : Dict.get k d = Some v -> In (k, v) d.
Proof.
  induction d as [|[q w] d IH]; simpl; [discriminate|].
  destruct (String.eqb q k) eqn:E.
  - apply String.eqb_eq in E; subst q. intros [= ->]. now left.
  - intros H. right. now apply IH.
Qed.

Lemma In_get_Some k v d :
  NoDup (Dict.keys d) -> In (k, v) d -> Dict.get k d = Some v.
Proof.
  unfold Dict.keys. induction d as [|[q w] d IH]; simpl; [tauto|].
  intros Hnd [E|H]; inversion Hnd as [|? ? Hnin Hnd']; subst.
  - inversion E; subst. now rewrite String.eqb_refl.
  - destruct (String.eqb q k) eqn:E; [|now apply IH].
    apply String.eqb_eq in E; subst q. exfalso. apply Hnin.
    apply in_map_iff. now exists (k, v).
Qed.

Lemma get_None_keys k d : Dict.get k d = None <-> ~ In k (Dict.keys d).
Proof.
  rewrite <- (mem_keys k d). unfold Dict.mem.
  destruct (Dict.get k d); split; try congruence; intros H; now elim H.
Qed.

End DictFacts.

Section MergeFacts.

Lemma merge_keys valid_keys : forall enrichments sprites applied,
  Dict.keys (fst (merge_enrichments valid_keys enrichments sprites applied)) =
  Dict.keys sprites.
Proof.
  induction valid_keys as [|key keys IH]; intros [|entry entries] sprites applied;
    simpl; try reflexivity.
  destruct entry; rewrite IH; try reflexivity. apply keys_update.
Qed.

(** Keys that are not in the batch keep their sprite. *)
Lemma merge_frame valid_keys k : ~ In k valid_keys ->
  forall enrichments sprites applied,
    Dict.get k (fst (merge_enrichments valid_keys enrichments sprites applied)) =
    Dict.get k sprites.
Proof.
  induction valid_keys as [|key keys IH]; intros Hnin [|entry entries] sprites applied;
    simpl; try reflexivity.
  assert (key <> k) by (intros ->; apply Hnin; now left).
  assert (~ In k keys) by (intros ?; apply Hnin; now right).
  destruct entry; rewrite IH by assumption; try reflexivity.
  now apply get_update_other.
Qed.

(** Key [i] gets element [i], and nothing else. *)
Lemma merge_positional valid_keys : NoDup valid_keys ->
  forall enrichments sprites applied i key,
    nth_error valid_keys i = Some key ->
    Dict.get key (fst (merge_enrichments valid_keys enrichments sprites applied)) =
    match nth_error enrichments i with
    | Some (JObj members) =>
        option_map (merge_entry members) (Dict.get key sprites)
    | _ => Dict.get key sprites
    end.
Proof.
  induction 1 as [|k keys Hnin Hnd IH]; intros enrichments sprites applied i key Hi.
  - destruct i; discriminate.
  - destruct i as [|i]; simpl in Hi.
    + injection Hi as ->.
      destruct enrichments as [|entry entries]; simpl; [reflexivity|].
      destruct entry; rewrite merge_frame by assumption; try reflexivity.
      apply get_update_same.
    + assert (k <> key).
      { intros ->. apply Hnin. eapply nth_error_In; eauto. }
      destruct enrichments as [|entry entries]; simpl.
      * now destruct i.
      * destruct entry; rewrite (IH _ _ _ _ _ Hi); try reflexivity.
        rewrite get_update_other by assumption. reflexivity.
Qed.

(** Elements beyond the number of keys play no part. *)
Lemma merge_excess valid_keys : forall enrichments sprites applied,
  merge_enrichments valid_keys enrichments sprites applied =
  merge_enrichments valid_keys
    (firstn (List.length valid_keys) enrichments) sprites applied.
Proof.
  induction valid_keys as [|key keys IH]; intros [|entry entries] sprites applied;
    simpl; try reflexivity.
  destruct entry; apply IH.
Qed.

Lemma merge_applied_bound valid_keys : forall enrichments sprites applied,
  snd (merge_enrichments valid_keys enrichments sprites applied) <=
  applied + Nat.min (List.length valid_keys) (List.length enrichments).
Proof.
  induction valid_keys as [|key keys IH]; intros [|entry entries] sprites applied;
    simpl; try lia.
  destruct entry;
    match goal with
    | |- context [merge_enrichments keys entries ?s ?a] =>
        specialize (IH entries s a); lia
    end.
Qed.

End MergeFacts.

Section EntryFacts.

Variable entry : list (string * json).
Variable info : sprite_info.

(** The description only changes to a non-empty value of the entry. *)
Lemma merge_entry_description :
  description (merge_entry entry info) =
  if truthy (entry_get "description" entry)
  then Some (entry_get "description" entry)
  else description info.
Proof.
  unfold merge_entry, strip_tile_type, assign_entry.
  destruct (truthy (entry_get "description" entry));
    destruct (entry_get "tags" entry) as [| | | | |[|t ts]|];
    destruct (truthy (entry_get "tile_type" entry)); simpl;
    match goal with
    | |- context [if ?c then _ else _] => destruct c; reflexivity
    end.
Qed.

(** So does the tile type. *)
Lemma merge_entry_tile_type :
  tile_type (merge_entry entry info) =
  if truthy (entry_get "tile_type" entry)
  then Some (entry_get "tile_type" entry)
  else tile_type info.
Proof.
  unfold merge_entry, strip_tile_type, assign_entry.
  destruct (truthy (entry_get "description" entry));
    destruct (entry_get "tags" entry) as [| | | | |[|t ts]|];
    destruct (truthy (entry_get "tile_type" entry)); simpl;
    match goal with
    | |- context [if ?c then _ else _] => destruct c; reflexivity
    end.
Qed.

(** The tags before the strip: those of the entry when it gives a
    non-empty list, the old ones otherwise. *)
Lemma assign_entry_tags :
  tags (assign_entry entry info) =
  match entry_get "tags" entry with
  | JArr (t :: ts) => Some (t :: ts)
  | _ => tags info
  end.
Proof.
  unfold assign_entry.
  destruct (truthy (entry_get "description" entry));
    destruct (entry_get "tags" entry) as [| | | | |[|t ts]|];
    destruct (truthy (entry_get "tile_type" entry)); reflexivity.
Qed.

End EntryFacts.

(** Removing the first occurrence clears a value that occurs once. *)
Lemma remove_first_clears x xs :
  List.length (filter (py_eq x) xs) <= 1 ->
  py_in x (remove_first x xs) = false.
Proof.
  unfold py_in. induction xs as [|y xs IH]; simpl; [reflexivity|].
  destruct (py_eq x y) eqn:E; simpl; intros H.
  - destruct (existsb (py_eq x) xs) eqn:Ex; [|reflexivity].
    apply existsb_exists in Ex. destruct Ex as (z & Hz & Ez).
    assert (In z (filter (py_eq x) xs)) by (apply filter_In; auto).
    destruct (filter (py_eq x) xs); [contradiction|simpl in H; lia].
  - rewrite E. simpl. now apply IH.
Qed.

(** After the strip the tile type is not among the tags, provided it
    occurred there at most once. *)
Lemma strip_tile_type_clears info :
  List.length (filter (py_eq (get_or_none (tile_type info)))
                 (tags_or_empty (tags info))) <= 1 ->
  truthy (get_or_none (tile_type info)) = true ->
  py_in (get_or_none (tile_type (strip_tile_type info)))
        (tags_or_empty (tags (strip_tile_type info))) = false.
Proof.
  intros Hc Ht. unfold strip_tile_type. rewrite Ht. simpl.
  destruct (py_in (get_or_none (tile_type info)) (tags_or_empty (tags info)))
    eqn:E; simpl; [|exact E].
  now apply remove_first_clears.
Qed.

(* ------------------------------------------------------------------ *)
(** ** Facts about the batch loop *)

Section AttemptFacts.

Variable json_loads : string -> option json.
Variable oracle : nat -> run_outcome.

(** The retry loop makes at most as many calls as it has attempts. *)
Lemma attempts_bound n : forall calls,
  calls <= fst (attempts json_loads oracle n calls) <= calls + n.
Proof.
  induction n as [|n IH]; intros calls; simpl; [lia|].
  pose proof (IH (S calls)) as H.
  destruct (oracle calls) as [| |rc out]; try lia.
  destruct (negb (rc =? 0)%Z); [lia|].
  destruct (parse_ai_response json_loads out) as [[e|]|e]; simpl; lia.
Qed.


End AttemptFacts.

Section RunFacts.

Variable json_loads : string -> option json.
Variable has_image : string -> bool.
Variable oracle : nat -> run_outcome.
Variable raw_image : string -> list (list pixel).
Variable save_fault : nat -> catalog -> option (nat * exn).
Variable json_dump : catalog -> list string.

Notation "'run_batch'" :=
  (process_batch json_loads has_image oracle raw_image save_fault json_dump)
  (only parsing).
Notation "'run_batches'" :=
  (process_batches json_loads has_image oracle raw_image save_fault json_dump)
  (only parsing).


Lemma process_batch_frame batch st k v :
  ~ In k batch -> key_kept k v st ->
  key_kept k v (fst (run_batch batch st)).
Proof.
  intros Hnin [Hm Hs]. unfold process_batch.
  assert (Hv : ~ In k (filter has_image batch)).
  { intros Hin. apply filter_In in Hin. tauto. }
  destruct (filter has_image batch) as [|k0 ks]; [now split|].
  destruct (prepare_batch raw_image (k0 :: ks)); [now split|].
  destruct (attempts json_loads oracle max_retries (st_calls st))
    as [calls [[enrichments|]|e]]; try (now split).
  pose proof (merge_frame (k0 :: ks) k Hv enrichments (st_sprites st) 0) as Hf.
  destruct (merge_enrichments (k0 :: ks) enrichments (st_sprites st) 0)
    as [sprites applied]. cbn [fst snd] in Hf.
  destruct (save_fault (List.length (st_saved st)) sprites) as [[n e]|];
    unfold key_kept; cbn [fst st_sprites st_saved].
  - split; [congruence|exact Hs].
  - split; [congruence|]. constructor; [congruence|exact Hs].
Qed.

Lemma process_batches_frame batches k v : forall st,
  (forall batch, In batch batches -> ~ In k batch) ->
  key_kept k v st ->
  key_kept k v (fst (run_batches batches st)).
Proof.
  induction batches as [|batch rest IH]; intros st Hnin Hk; simpl; [exact Hk|].
  pose proof (@process_batch_frame batch st k v
                (Hnin batch (or_introl eq_refl)) Hk) as Hstep.
  destruct (run_batch batch st) as [st' [e|]];
    simpl in *; [exact Hstep|].
  apply IH; [|exact Hstep]. intros b Hb. apply Hnin. now right.
Qed.


End RunFacts.

Lemma NoDup_firstn {A : Type} n (l : list A) : NoDup l -> NoDup (firstn n l).
Proof.
  intros H. rewrite <- (firstn_skipn n l) in H.
  now apply NoDup_app_remove_r in H.
Qed.

Lemma In_firstn {A : Type} n (l : list A) x : In x (firstn n l) -> In x l.
Proof.
  intros H. rewrite <- (firstn_skipn n l). apply in_or_app. now left.
Qed.

Lemma plan_batches_concat sprites b limit : 1 <= b ->
  List.concat (plan_batches sprites b limit) =
  apply_limit limit b (ordered_keys sprites).
Proof. intros Hb. unfold plan_batches. now apply batch_slices_concat. Qed.

Lemma plan_batches_nodup sprites b limit :
  NoDup (Dict.keys sprites) -> 1 <= b ->
  NoDup (List.concat (plan_batches sprites b limit)).
Proof.
  intros Hnd Hb. rewrite plan_batches_concat by exact Hb.
  assert (NoDup (ordered_keys sprites)).
  { eapply Permutation_NoDup;
      [apply Permutation_sym, ordered_keys_perm|now apply todo_nodup]. }
  unfold apply_limit. destruct (limit =? 0); [assumption|].
  now apply NoDup_firstn.
Qed.

Lemma plan_batches_todo sprites b limit k batch : 1 <= b ->
  In batch (plan_batches sprites b limit) -> In k batch ->
  In k (todo sprites).
Proof.
  intros Hb Hbatch Hk.
  assert (Hc : In k (List.concat (plan_batches sprites b limit))).
  { apply in_concat. now exists batch. }
  rewrite plan_batches_concat in Hc by exact Hb.
  eapply Permutation_in; [apply ordered_keys_perm|].
  unfold apply_limit in Hc. destruct (limit =? 0); [exact Hc|].
  eapply In_firstn; eauto.
Qed.


(** An unenriched sprite of a catalog is planned, whatever the batch
    size, when there is no limit. *)
Lemma unenriched_is_planned sprites k info b : 1 <= b ->
  Dict.get k sprites = Some info -> is_enriched info = false ->
  In k (List.concat (plan_batches sprites b 0)).
Proof.
  intros Hb Hg He. rewrite plan_batches_concat by exact Hb. simpl.
  eapply Permutation_in; [apply Permutation_sym, ordered_keys_perm|].
  apply todo_In. exists info. split; [|exact He].
  now apply get_Some_In.
Qed.

Lemma plan_batches_nothing_todo sprites b limit :
  todo sprites = [] -> plan_batches sprites b limit = [].
Proof.
  intros H. unfold plan_batches.
  assert (E : ordered_keys sprites = []).
  { apply Permutation_nil. rewrite <- H.
    apply Permutation_sym, ordered_keys_perm. }
  rewrite E. unfold apply_limit.
  destruct (limit =? 0); [reflexivity|]. now rewrite firstn_nil.
Qed.

Lemma process_atlas_is_loop json_loads has_image oracle raw_image save_fault
      json_dump sprites output b limit :
  process_atlas json_loads has_image oracle raw_image save_fault json_dump
                sprites output b limit false =
  process_batches json_loads has_image oracle raw_image save_fault json_dump
    (plan_batches sprites b limit) (mkRun sprites [] 0 output).
Proof.
  unfold process_atlas.
  destruct (todo sprites) eqn:E; [|reflexivity].
  now rewrite plan_batches_nothing_todo.
Qed.

(* ------------------------------------------------------------------ *)
(** ** Facts about the extraction *)





Section ExtractionFacts.

Variable json_loads : string -> option json.


End ExtractionFacts.

(* ------------------------------------------------------------------ *)
(** ** Facts about [save_index] *)

Lemma append_assoc (a b c : string) :
  ((a ++ b) ++ c = a ++ (b ++ c))%string.
Proof. induction a as [|x a IH]; simpl; [reflexivity|now rewrite IH]. Qed.

Lemma append_nil_r (a : string) : (a ++ EmptyString)%string = a.
Proof. induction a as [|x a IH]; simpl; [reflexivity|now rewrite IH]. Qed.

Lemma prefix_append (a b : string) : String.prefix a (a ++ b) = true.
Proof.
  induction a as [|x a IH]; simpl; [now destruct b|].
  destruct (Ascii.ascii_dec x x); [exact IH|contradiction].
Qed.

Lemma concat_empty_glue pieces : String.concat EmptyString pieces = glue pieces.
Proof.
  induction pieces as [|p r IH]; simpl; [reflexivity|].
  destruct r as [|q r]; [simpl; now rewrite append_nil_r|].
  now rewrite IH.
Qed.

Lemma glue_app a b : glue (a ++ b) = (glue a ++ glue b)%string.
Proof.
  induction a as [|p a IH]; simpl; [reflexivity|].
  now rewrite IH, append_assoc.
Qed.

Lemma run_writes pieces : forall c,
  run_ops (map WriteText pieces) (Some c) = Some (c ++ glue pieces)%string.
Proof.
  unfold run_ops.
  induction pieces as [|p r IH]; intros c; simpl.
  - now rewrite append_nil_r.
  - now rewrite IH, append_assoc.
Qed.

Lemma run_ops_app a b content :
  run_ops (a ++ b) content = run_ops b (run_ops a content).
Proof. unfold run_ops. apply fold_left_app. Qed.

Section SaveFacts.

Variable json_dump : catalog -> list string.

Lemma save_index_ops_writes data :
  save_index_ops json_dump data =
  OpenTruncate :: map WriteText (json_dump data ++ [newline]) ++ [CloseFile].
Proof.
  unfold save_index_ops. rewrite map_app, <- app_assoc. reflexivity.
Qed.

Lemma encoded_glue data :
  encoded json_dump data = glue (json_dump data ++ [newline]).
Proof.
  unfold encoded. rewrite concat_empty_glue, glue_app. reflexivity.
Qed.

(** After the open and [k] of the writes the file holds the first [k]
    pieces. *)
Lemma interrupted_content data old n :
  save_index_interrupted json_dump (S n) data old =
  Some (glue (firstn n (json_dump data ++ [newline]))).
Proof.
  unfold save_index_interrupted. rewrite save_index_ops_writes.
  rewrite firstn_cons.
  set (ws := json_dump data ++ [newline]).
  unfold run_ops at 1. simpl fold_left.
  change (fold_left file_step ?ops ?c) with (run_ops ops c).
  rewrite firstn_app, run_ops_app, firstn_map, run_writes. simpl.
  destruct (firstn (n - List.length (map WriteText ws)) [CloseFile])
    as [|op ops] eqn:E; [reflexivity|].
  destruct (n - List.length (map WriteText ws)) as [|m]; [discriminate|].
  simpl in E. injection E as <- <-.
  destruct m; reflexivity.
Qed.

(** A save that runs to its end leaves the encoded catalog, whatever
    the file held. *)
Lemma save_index_whole data old :
  save_index json_dump data old = Some (encoded json_dump data).
Proof.
  unfold save_index.
  rewrite <- (firstn_all (save_index_ops json_dump data)).
  fold (save_index_interrupted json_dump
          (List.length (save_index_ops json_dump data)) data old).
  rewrite save_index_ops_writes at 1. simpl List.length.
  rewrite interrupted_content, encoded_glue. f_equal. f_equal.
  apply firstn_all2.
  rewrite (length_app (map WriteText _)), length_map. lia.
Qed.

End SaveFacts.

(* ------------------------------------------------------------------ *)
(** ** Facts about the consistency checks *)

Lemma same_data_refl st : same_data st st.
Proof. now split. Qed.

Lemma same_data_trans st1 st2 st3 :
  same_data st1 st2 -> same_data st2 st3 -> same_data st1 st3.
Proof. unfold same_data. intros [] []. split; congruence. Qed.

Lemma same_data_issue category key st : same_data st (add_issue category key st).
Proof. now split. Qed.

Create HintDb checks.
#[local] Hint Resolve same_data_refl same_data_issue : checks.

Lemma foldM_same_data (f : check_state -> string -> result check_state) :
  (forall st key st', f st key = Ok st' -> same_data st st') ->
  forall keys st st', foldM f keys st = Ok st' -> same_data st st'.
Proof.
  intros Hf. induction keys as [|key keys IH]; intros st st'; simpl.
  - intros [= <-]. apply same_data_refl.
  - destruct (f st key) as [st1|e] eqn:E; simpl; [|discriminate].
    intros H. eapply same_data_trans; [eapply Hf; eauto|eapply IH; eauto].
Qed.

Lemma fold_left_same_data (A : Type) (f : check_state -> A -> check_state) :
  (forall st x, same_data st (f st x)) ->
  forall l st, same_data st (fold_left f l st).
Proof.
  intros Hf. induction l as [|x l IH]; intros st; simpl.
  - apply same_data_refl.
  - eapply same_data_trans; [apply Hf|apply IH].
Qed.

(** Solves the goal of a rule that ends in [Ok] of the state itself or
    of the state with one more issue. *)
Ltac rule_cases :=
  repeat match goal with
         | |- Ok _ = Ok _ -> _ => intros [= <-]; auto with checks
         | |- Raise _ = Ok _ -> _ => discriminate
         | |- bind ?m _ = Ok _ -> _ => destruct m eqn:?; simpl
         | |- (match ?x with _ => _ end) = Ok _ -> _ => destruct x eqn:?
         | |- (if ?c then _ else _) = Ok _ -> _ => destruct c eqn:?
         end.

Section ReportMode.

Lemma rule_tile_type_report st key st' :
  rule_tile_type false st key = Ok st' -> same_data st st'.
Proof. unfold rule_tile_type, with_sprite. simpl. rule_cases. Qed.

Lemma rule_tag_spelling_report st key st' :
  rule_tag_spelling false st key = Ok st' -> same_data st st'.
Proof. unfold rule_tag_spelling, with_sprite. simpl. rule_cases. Qed.

Lemma rule_description_spelling_report st key st' :
  rule_description_spelling false st key = Ok st' -> same_data st st'.
Proof. unfold rule_description_spelling, with_sprite. simpl. rule_cases. Qed.

Lemma rule_strip_for_report kind set category st key st' :
  rule_strip_for false kind set category st key = Ok st' -> same_data st st'.
Proof. unfold rule_strip_for, with_sprite. simpl. rule_cases. Qed.

Lemma rule_altar_alignment_report st key st' :
  rule_altar_alignment false st key = Ok st' -> same_data st st'.
Proof. unfold rule_altar_alignment, with_sprite. simpl. rule_cases. Qed.

Lemma dir_step_report key st entry : same_data st (dir_step false key st entry).
Proof.
  unfold dir_step.
  repeat match goal with
         | |- same_data _ (match ?x with _ => _ end) => destruct x eqn:?
         | |- same_data _ (if ?c then _ else _) => destruct c eqn:?
         end; auto with checks.
Qed.

Lemma rule_directory_report st key st' :
  rule_directory false st key = Ok st' -> same_data st st'.
Proof.
  unfold rule_directory.
  generalize (fold_left_same_data _ (dir_step false key)
                (dir_step_report key) DIR_EXPECTED_TAGS st).
  generalize (fold_left (dir_step false key) DIR_EXPECTED_TAGS st).
  intros r Hr [= <-]. exact Hr.
Qed.

Lemma check_dcss_report enriched st st' :
  check_dcss false enriched st = Ok st' -> same_data st st'.
Proof.
  unfold check_dcss.
  destruct (foldM _ enriched st) as [st1|] eqn:E1; simpl; [|discriminate].
  destruct (foldM _ enriched st1) as [st2|] eqn:E2; simpl; [|discriminate].
  destruct (foldM _ enriched st2) as [st3|] eqn:E3; simpl; [|discriminate].
  intros E4.
  apply (foldM_same_data _ (rule_strip_for_report _ _ _)) in E1.
  apply (foldM_same_data _ (rule_strip_for_report _ _ _)) in E2.
  apply (foldM_same_data _ rule_altar_alignment_report) in E3.
  apply (foldM_same_data _ rule_directory_report) in E4.
  eauto using same_data_trans.
Qed.

End ReportMode.

(** The checks that only report leave the data alone in both modes. *)
Lemma report_tag_count_same st key st' :
  report_tag_count st key = Ok st' -> same_data st st'.
Proof. unfold report_tag_count, with_sprite. rule_cases. Qed.

Lemma report_description_length_same st key st' :
  report_description_length st key = Ok st' -> same_data st st'.
Proof. unfold report_description_length, with_sprite. rule_cases. Qed.

Lemma report_duplicates_same enriched st :
  same_data st (report_duplicates enriched st).
Proof.
  unfold report_duplicates. apply fold_left_same_data.
  intros acc dk. destruct (_ && _); auto with checks.
Qed.

(** In report mode the checks, when they end, return the sprites they
    were given and count no fix. *)
Lemma run_checks_report a sprites st :
  run_checks a false sprites = Ok st ->
  c_sprites st = sprites /\ c_fixes st = 0.
Proof.
  unfold run_checks.
  set (enriched := enriched_keys sprites).
  destruct (foldM _ enriched (mkCheck sprites [] 0)) as [st1|] eqn:E1;
    simpl; [|discriminate].
  destruct (foldM _ enriched st1) as [st2|] eqn:E2; simpl; [|discriminate].
  destruct (foldM _ enriched st2) as [st3|] eqn:E3; simpl; [|discriminate].
  destruct (if has_check_extra a then _ else _) as [st4|] eqn:E4;
    simpl; [|discriminate].
  destruct (foldM _ enriched st4) as [st5|] eqn:E5; simpl; [|discriminate].
  destruct (foldM _ enriched st5) as [st6|] eqn:E6; simpl; [|discriminate].
  intros [= <-].
  apply (foldM_same_data _ rule_tile_type_report) in E1.
  apply (foldM_same_data _ rule_tag_spelling_report) in E2.
  apply (foldM_same_data _ rule_description_spelling_report) in E3.
  assert (S4 : same_data st3 st4).
  { destruct (has_check_extra a).
    - now apply check_dcss_report in E4.
    - injection E4 as <-. apply same_data_refl. }
  apply (foldM_same_data _ report_tag_count_same) in E5.
  apply (foldM_same_data _ report_description_length_same) in E6.
  pose proof (report_duplicates_same enriched st6) as S7.
  assert (S : same_data (mkCheck sprites [] 0) (report_duplicates enriched st6))
    by eauto 10 using same_data_trans.
  exact S.
Qed.

(* ------------------------------------------------------------------ *)
(** ** Facts about the fix loop of the verify pass *)

(** The log only grows. *)
Lemma log_changes_extends old : forall fields new log log' e,
  log_changes fields old new log = (log', e) ->
  exists more, log' = log ++ more.
Proof.
  induction fields as [|x xs IH]; intros new log log' e; simpl.
  - intros [= <- <-]. exists []. now rewrite app_nil_r.
  - destruct (field_after x new).
    + intros Hl. apply IH in Hl. destruct Hl as (more & ->).
      rewrite <- app_assoc. eauto.
    + intros [= <- <-]. exists []. now rewrite app_nil_r.
Qed.

#[local] Arguments log_changes : simpl never.

Section VerifyFacts.

Variable valid_keys : list string.
Variable st : verify_state.

(** An element that is not a dictionary is passed over. *)
Lemma apply_fix_not_dict item :
  (forall members, item <> JObj members) ->
  apply_fix valid_keys item st = (st, None).
Proof.
  intros H. destruct item; try reflexivity. now elim (H members).
Qed.

(** So is a dictionary without an index. *)
Lemma apply_fix_no_index members :
  Dict.get "index" members = None ->
  apply_fix valid_keys (JObj members) st = (st, None).
Proof. intros H. simpl. now rewrite H. Qed.

(** So is an integer index outside [1 .. len(valid_keys)]. *)
Lemma apply_fix_out_of_range members n :
  Dict.get "index" members = Some (JInt n) ->
  (n < 1 \/ Z.of_nat (List.length valid_keys) < n)%Z ->
  apply_fix valid_keys (JObj members) st = (st, None).
Proof.
  intros H Hn. simpl. rewrite H. simpl.
  destruct (n - 1 <? 0)%Z eqn:E1; [reflexivity|].
  destruct (Z.of_nat (List.length valid_keys) <=? n - 1)%Z eqn:E2;
    [reflexivity|].
  apply Z.ltb_ge in E1. apply Z.leb_gt in E2. lia.
Qed.

(** A fix with an integer index changes the sprite at that position at
    most: every other key keeps its sprite. *)
Lemma apply_fix_frame members n k :
  Dict.get "index" members = Some (JInt n) ->
  nth_error valid_keys (Z.to_nat (n - 1)) <> Some k ->
  Dict.get k (v_sprites (fst (apply_fix valid_keys (JObj members) st))) =
  Dict.get k (v_sprites st).
Proof.
  intros H Hk. simpl. rewrite H. simpl.
  destruct ((n - 1 <? 0)%Z || _); [reflexivity|].
  destruct (nth_error valid_keys (Z.to_nat (n - 1))) as [key|] eqn:E;
    [|reflexivity].
  destruct (Dict.get key (v_sprites st)) as [old|]; [|reflexivity].
  assert (key <> k) by congruence.
  destruct (changed_fields old (apply_fix_fields members old)).
  - simpl. now apply get_update_other.
  - match goal with
    | |- context [log_changes ?a ?b ?c ?d] =>
        destruct (log_changes a b c d) as [log e]
    end.
    simpl. now apply get_update_other.
Qed.

(** The count grows by one at most, and only with a log line. *)
Lemma apply_fix_counts item :
  let st' := fst (apply_fix valid_keys item st) in
  v_applied st' = v_applied st \/
  (v_applied st' = S (v_applied st) /\ v_log st' <> v_log st).
Proof.
  destruct item; simpl; auto.
  destruct (Dict.get "index" members) as [index|]; auto.
  destruct (index_minus_one index) as [idx|]; auto.
  destruct (key_at idx valid_keys) as [[key|]|]; auto.
  destruct (Dict.get key (v_sprites st)) as [old|]; auto.
  destruct (changed_fields old (apply_fix_fields members old)) as [|f fs] eqn:E;
    simpl; auto.
  right.
  destruct (log_changes (f :: fs) old (apply_fix_fields members old)
              (v_log st ++ [LogFix key])) as [log e] eqn:L.
  simpl. split; [reflexivity|].
  apply log_changes_extends in L. destruct L as (more & ->).
  rewrite <- app_assoc. intros Heq.
  apply (f_equal (@List.length log_event)) in Heq.
  rewrite length_app in Heq. simpl in Heq. lia.
Qed.

End VerifyFacts.
(* ------------------------------------------------------------------ *)
(** ** Facts about the text palette *)

Lemma dict_get_In {V : Type} (k : string) (v : V) (d : list (string * V)) :
  Dict.get k d = Some v -> In (k, v) d.
Proof.
  induction d as [|[k' v'] r IH]; simpl; [discriminate|].
  destruct (String.eqb k' k) eqn:E.
  - intros [= <-]. apply String.eqb_eq in E. subst. now left.
  - intros H. right. now apply IH.
Qed.

Lemma dict_get_None {V : Type} (k : string) (d : list (string * V)) :
  Dict.get k d = None <-> ~ In k (map fst d).
Proof.
  induction d as [|[k' v'] r IH]; simpl.
  - tauto.
  - destruct (String.eqb k' k) eqn:E.
    + apply String.eqb_eq in E. subst. split; [discriminate|].
      intros H. exfalso. apply H. now left.
    + apply String.eqb_neq in E. rewrite IH. tauto.
Qed.

Lemma dict_get_NoDup {V : Type} (k : string) (v : V) (d : list (string * V)) :
  NoDup (map fst d) -> In (k, v) d -> Dict.get k d = Some v.
Proof.
  induction d as [|[k' v'] r IH]; simpl; [tauto|].
  intros Hnd [H|H].
  - injection H as -> ->. now rewrite String.eqb_refl.
  - inversion Hnd as [|? ? Hni Hnd']; subst.
    destruct (String.eqb k' k) eqn:E.
    + apply String.eqb_eq in E. subst. exfalso. apply Hni.
      change k with (fst (k, v)). now apply in_map.
    + now apply IH.
Qed.

Lemma dict_set_fresh {V : Type} (k : string) (v : V) (d : list (string * V)) :
  Dict.get k d = None -> Dict.set k v d = d ++ [(k, v)].
Proof.
  induction d as [|[k' v'] r IH]; simpl; [reflexivity|].
  destruct (String.eqb k' k); [discriminate|]. intros H. now rewrite IH.
Qed.

Lemma in_list_In (s : string) (l : list string) :
  in_list s l = true <-> In s l.
Proof.
  unfold in_list. rewrite existsb_exists. split.
  - intros [x [Hx He]]. apply String.eqb_eq in He. now subst.
  - intros H. exists s. split; [exact H|apply String.eqb_refl].
Qed.

Lemma NoDup_snoc {A : Type} (l : list A) (x : A) :
  NoDup l -> ~ In x l -> NoDup (l ++ [x]).
Proof.
  intros Hnd Hni. apply (Permutation_NoDup (l := x :: l)).
  - apply Permutation_cons_append.
  - now constructor.
Qed.

(** *** The alias sequence *)

Lemma alias_sequence_length : List.length alias_sequence = 712.
Proof. reflexivity. Qed.

Lemma alias_sequence_nodup : NoDup alias_sequence.
Proof.
  assert (H : nodup string_dec alias_sequence = alias_sequence)
    by (vm_compute; reflexivity).
  rewrite <- H. apply NoDup_nodup.
Qed.

Lemma alias_shape (a : string) : In a alias_sequence ->
  (String.length a = 1 \/ String.length a = 2) /\ a <> transparent_cell.
Proof.
  assert (H : forallb (fun a => ((String.length a =? 1) || (String.length a =? 2))
                                && negb (String.eqb a transparent_cell))
                      alias_sequence = true) by (vm_compute; reflexivity).
  rewrite forallb_forall in H. intros Hin. specialize (H a Hin).
  apply andb_true_iff in H. destruct H as [Hl Hd].
  apply orb_true_iff in Hl. rewrite !Nat.eqb_eq in Hl.
  apply negb_true_iff, String.eqb_neq in Hd. now split.
Qed.

(** *** The generator *)

Lemma skipn_cons_nth {A : Type} (l : list A) (n : nat) (a : A) :
  nth_error l n = Some a -> skipn n l = a :: skipn (S n) l.
Proof.
  revert l. induction n as [|n IH]; intros [|x r]; simpl; try discriminate.
  - now intros [= ->].
  - intros H. now apply IH.
Qed.

Lemma skipn_nil_nth {A : Type} (l : list A) (n : nat) :
  nth_error l n = None -> skipn n l = [].
Proof. intros H. apply skipn_all2. now apply nth_error_None. Qed.

Lemma nth_in_firstn {A : Type} (l : list A) (j n : nat) (b : A) :
  nth_error l j = Some b -> j < n -> In b (firstn n l).
Proof.
  revert l n. induction j as [|j IH]; intros [|x r] [|n]; simpl;
    try discriminate; try lia.
  - intros [= ->] _. now left.
  - intros H Hlt. right. apply IH; [exact H|lia].
Qed.

Lemma nth_notin_firstn {A : Type} (l : list A) (n : nat) (a : A) :
  NoDup l -> nth_error l n = Some a -> ~ In a (firstn n l).
Proof.
  intros Hnd Hn Hin. rewrite <- (firstn_skipn n l) in Hnd.
  rewrite (skipn_cons_nth l n a Hn) in Hnd.
  apply NoDup_remove_2 in Hnd. apply Hnd, in_or_app. now left.
Qed.

Lemma firstn_snoc_nth {A : Type} (l : list A) (n : nat) (a : A) :
  nth_error l n = Some a -> firstn (S n) l = firstn n l ++ [a].
Proof.
  revert l. induction n as [|n IH]; intros [|x r]; simpl; try discriminate.
  - now intros [= ->].
  - intros H. f_equal. now apply IH.
Qed.

Lemma next_unused_cons (a : string) (r used : list string) :
  next_unused (a :: r) used =
  if in_list a used then next_unused r used else Some (a, r).
Proof. reflexivity. Qed.

(** With the first [n] aliases used and the generator at or before
    the [n]-th, the next alias is the [n]-th, if there is one. *)
Lemma next_unused_skip (l used : list string) (n : nat) :
  NoDup l -> (forall a, In a used <-> In a (firstn n l)) ->
  forall d j, j + d = n ->
  next_unused (skipn j l) used =
  match nth_error l n with
  | Some a => Some (a, skipn (S n) l)
  | None => None
  end.
Proof.
  intros Hnd Hu. induction d as [|d IH]; intros j Hj.
  - replace j with n by lia. destruct (nth_error l n) as [a|] eqn:E.
    + rewrite (skipn_cons_nth l n a E), next_unused_cons.
      destruct (in_list a used) eqn:Ei; [|reflexivity].
      apply in_list_In, Hu in Ei. exfalso.
      exact (nth_notin_firstn l n a Hnd E Ei).
    + rewrite (skipn_nil_nth l n E). reflexivity.
  - destruct (nth_error l j) as [b|] eqn:E.
    + rewrite (skipn_cons_nth l j b E), next_unused_cons.
      assert (Hb : in_list b used = true).
      { apply in_list_In, Hu. apply (nth_in_firstn l j n b E). lia. }
      rewrite Hb. apply IH. lia.
    + rewrite (skipn_nil_nth l j E).
      assert (Hn : nth_error l n = None).
      { apply nth_error_None. apply nth_error_None in E. lia. }
      now rewrite Hn.
Qed.

(** *** One pixel, one row, all the rows *)

Lemma cell_of_mono thr (c c' : list (string * string)) p cell :
  incl c c' -> cell_of thr c p cell -> cell_of thr c' p cell.
Proof.
  unfold cell_of. intros Hi. destruct (opaque thr p); [apply Hi|tauto].
Qed.

Lemma colors_of_row_cons thr p row :
  colors_of_row thr (p :: row) =
  (if opaque thr p then [hex_color p] else []) ++ colors_of_row thr row.
Proof.
  unfold colors_of_row. simpl. now destruct (opaque thr p).
Qed.

Lemma encode_pixel_spec thr p st cell st' :
  palette_inv st -> encode_pixel thr p st = Some (cell, st') ->
  palette_inv st' /\
  (exists ext, color_to_alias st' = color_to_alias st ++ ext) /\
  cell_of thr (color_to_alias st') p cell /\
  incl (map fst (color_to_alias st'))
       (map fst (color_to_alias st) ++
        (if opaque thr p then [hex_color p] else [])).
Proof.
  unfold encode_pixel, cell_of, opaque.
  destruct (Byte.to_N (alpha p) <? thr)%N eqn:Ea; cbn [negb].
  - intros Hinv [= <- <-]. split; [exact Hinv|].
    split; [exists []; now rewrite app_nil_r|].
    split; [reflexivity|]. rewrite app_nil_r. apply incl_refl.
  - destruct (Dict.get (hex_color p) (color_to_alias st)) as [alias|] eqn:Eg.
    + intros Hinv [= <- <-]. split; [exact Hinv|].
      split; [exists []; now rewrite app_nil_r|].
      split; [now apply dict_get_In|]. apply incl_appl, incl_refl.
    + destruct st as [c2a gen used]. cbn [color_to_alias alias_gen used_aliases] in *.
      intros [[Hnd Hseq] [Hu [j [Hj Hgen]]]].
      cbn [color_to_alias alias_gen used_aliases] in *.
      assert (Hu' : forall a, In a used <->
                              In a (firstn (List.length c2a) alias_sequence)).
      { intros a. rewrite <- Hseq. apply Hu. }
      rewrite Hgen.
      rewrite (next_unused_skip alias_sequence used (List.length c2a)
                 alias_sequence_nodup Hu' (List.length c2a - j) j)
        by lia.
      destruct (nth_error alias_sequence (List.length c2a)) as [a|] eqn:En;
        [|discriminate].
      intros [= <- <-]. cbn [color_to_alias alias_gen used_aliases].
      rewrite (dict_set_fresh (hex_color p) a c2a Eg).
      split.
      { unfold palette_inv, in_sequence.
        cbn [color_to_alias alias_gen used_aliases].
        split; [split|split].
        - rewrite map_app. apply NoDup_snoc; [exact Hnd|].
          now apply dict_get_None.
        - rewrite map_app, length_app, Hseq. cbn [map snd List.length].
          rewrite Nat.add_1_r. symmetry. now apply firstn_snoc_nth.
        - intros b. rewrite map_app, in_app_iff. cbn [map snd In].
          rewrite <- Hu. tauto.
        - exists (S (List.length c2a)). rewrite length_app.
          cbn [List.length]. split; [lia|reflexivity]. }
      split; [now exists [(hex_color p, a)]|].
      split; [apply in_or_app; right; now left|].
      rewrite map_app. apply incl_refl.
Qed.

Lemma encode_pixel_total thr p st cs :
  palette_inv st ->
  incl (map fst (color_to_alias st) ++
        (if opaque thr p then [hex_color p] else [])) cs ->
  List.length cs <= 712 ->
  exists cell st', encode_pixel thr p st = Some (cell, st').
Proof.
  unfold encode_pixel, opaque.
  destruct (Byte.to_N (alpha p) <? thr)%N eqn:Ea; cbn [negb].
  - intros _ _ _. now eexists _, _.
  - destruct (Dict.get (hex_color p) (color_to_alias st)) as [alias|] eqn:Eg.
    + intros _ _ _. now eexists _, _.
    + destruct st as [c2a gen used]. cbn [color_to_alias alias_gen used_aliases] in *.
      intros [[Hnd Hseq] [Hu [j [Hj Hgen]]]] Hcs Hlen.
      cbn [color_to_alias alias_gen used_aliases] in *.
      assert (Hu' : forall a, In a used <->
                              In a (firstn (List.length c2a) alias_sequence)).
      { intros a. rewrite <- Hseq. apply Hu. }
      rewrite Hgen.
      rewrite (next_unused_skip alias_sequence used (List.length c2a)
                 alias_sequence_nodup Hu' (List.length c2a - j) j)
        by lia.
      destruct (nth_error alias_sequence (List.length c2a)) as [a|] eqn:En;
        [now eexists _, _|].
      exfalso. apply nth_error_None in En. rewrite alias_sequence_length in En.
      assert (Hn : NoDup (map fst c2a ++ [hex_color p])).
      { apply NoDup_snoc; [exact Hnd|]. now apply dict_get_None. }
      apply (NoDup_incl_length Hn) in Hcs.
      rewrite length_app, length_map in Hcs. cbn [List.length] in Hcs. lia.
Qed.

Lemma encode_row_spec thr row : forall st cells st',
  palette_inv st -> encode_row thr row st = Some (cells, st') ->
  palette_inv st' /\
  (exists ext, color_to_alias st' = color_to_alias st ++ ext) /\
  Forall2 (cell_of thr (color_to_alias st')) row cells /\
  incl (map fst (color_to_alias st'))
       (map fst (color_to_alias st) ++ colors_of_row thr row).
Proof.
  induction row as [|p row IH]; intros st cells st' Hinv; cbn [encode_row].
  - intros [= <- <-]. split; [exact Hinv|].
    split; [exists []; now rewrite app_nil_r|].
    split; [constructor|]. apply incl_appl, incl_refl.
  - destruct (encode_pixel thr p st) as [[cell st1]|] eqn:Ep; [|discriminate].
    destruct (encode_row thr row st1) as [[cs st2]|] eqn:Er; [|discriminate].
    intros [= <- <-].
    destruct (encode_pixel_spec thr p st cell st1 Hinv Ep)
      as [Hinv1 [[e1 He1] [Hc1 Hk1]]].
    destruct (IH st1 cs st2 Hinv1 Er) as [Hinv2 [[e2 He2] [Hc2 Hk2]]].
    split; [exact Hinv2|].
    split; [exists (e1 ++ e2); now rewrite He2, He1, app_assoc|].
    split.
    + constructor; [|exact Hc2].
      apply (cell_of_mono thr (color_to_alias st1)); [|exact Hc1].
      rewrite He2. apply incl_appl, incl_refl.
    + rewrite colors_of_row_cons, app_assoc.
      intros k Hk. apply Hk2 in Hk. apply in_app_or in Hk.
      apply in_or_app. destruct Hk as [Hk|Hk]; [left; now apply Hk1|now right].
Qed.

Lemma encode_row_total thr row cs : forall st,
  palette_inv st ->
  incl (map fst (color_to_alias st) ++ colors_of_row thr row) cs ->
  List.length cs <= 712 ->
  exists cells st', encode_row thr row st = Some (cells, st').
Proof.
  induction row as [|p row IH]; intros st Hinv Hcs Hlen; cbn [encode_row].
  - now eexists _, _.
  - rewrite colors_of_row_cons, app_assoc in Hcs.
    destruct (encode_pixel_total thr p st cs Hinv) as [cell [st1 Ep]];
      [intros k Hk; apply Hcs, in_or_app; now left|exact Hlen|].
    rewrite Ep.
    destruct (encode_pixel_spec thr p st cell st1 Hinv Ep)
      as [Hinv1 [_ [_ Hk1]]].
    destruct (IH st1 Hinv1) as [cells [st2 Er]]; [|exact Hlen|].
    + intros k Hk. apply Hcs. apply in_app_or in Hk. apply in_or_app.
      destruct Hk as [Hk|Hk]; [left; now apply Hk1|now right].
    + rewrite Er. now eexists _, _.
Qed.

Lemma encode_rows_spec thr rows : forall st grid st',
  palette_inv st -> encode_rows thr rows st = Some (grid, st') ->
  palette_inv st' /\
  (exists ext, color_to_alias st' = color_to_alias st ++ ext) /\
  Forall2 (Forall2 (cell_of thr (color_to_alias st'))) rows grid /\
  incl (map fst (color_to_alias st'))
       (map fst (color_to_alias st) ++ colors_of_image thr rows).
Proof.
  induction rows as [|row rows IH]; intros st grid st' Hinv; cbn [encode_rows].
  - intros [= <- <-]. split; [exact Hinv|].
    split; [exists []; now rewrite app_nil_r|].
    split; [constructor|]. apply incl_appl, incl_refl.
  - destruct (encode_row thr row st) as [[cells st1]|] eqn:Ep; [|discriminate].
    destruct (encode_rows thr rows st1) as [[g st2]|] eqn:Er; [|discriminate].
    intros [= <- <-].
    destruct (encode_row_spec thr row st cells st1 Hinv Ep)
      as [Hinv1 [[e1 He1] [Hc1 Hk1]]].
    destruct (IH st1 g st2 Hinv1 Er) as [Hinv2 [[e2 He2] [Hc2 Hk2]]].
    split; [exact Hinv2|].
    split; [exists (e1 ++ e2); now rewrite He2, He1, app_assoc|].
    split.
    + constructor; [|exact Hc2].
      eapply Forall2_impl; [|exact Hc1].
      intros q c. apply cell_of_mono. rewrite He2. apply incl_appl, incl_refl.
    + unfold colors_of_image. cbn [flat_map]. fold (colors_of_image thr rows).
      rewrite app_assoc.
      intros k Hk. apply Hk2 in Hk. apply in_app_or in Hk.
      apply in_or_app. destruct Hk as [Hk|Hk]; [left; now apply Hk1|now right].
Qed.

Lemma encode_rows_total thr rows cs : forall st,
  palette_inv st ->
  incl (map fst (color_to_alias st) ++ colors_of_image thr rows) cs ->
  List.length cs <= 712 ->
  exists grid st', encode_rows thr rows st = Some (grid, st').
Proof.
  induction rows as [|row rows IH]; intros st Hinv Hcs Hlen; cbn [encode_rows].
  - now eexists _, _.
  - unfold colors_of_image in Hcs. cbn [flat_map] in Hcs.
    fold (colors_of_image thr rows) in Hcs. rewrite app_assoc in Hcs.
    destruct (encode_row_total thr row cs st Hinv) as [cells [st1 Ep]];
      [intros k Hk; apply Hcs, in_or_app; now left|exact Hlen|].
    rewrite Ep.
    destruct (encode_row_spec thr row st cells st1 Hinv Ep)
      as [Hinv1 [_ [_ Hk1]]].
    destruct (IH st1 Hinv1) as [g [st2 Er]]; [|exact Hlen|].
    + intros k Hk. apply Hcs. apply in_app_or in Hk. apply in_or_app.
      destruct Hk as [Hk|Hk]; [left; now apply Hk1|now right].
    + rewrite Er. now eexists _, _.
Qed.

(** *** Upper case *)

Lemma upper_app (a b : string) : upper (a ++ b) = (upper a ++ upper b)%string.
Proof. induction a as [|c a IH]; simpl; [reflexivity|now rewrite IH]. Qed.

Lemma upper_hex2 (b : Byte.byte) : upper (hex2 b) = hex2 b.
Proof. destruct b; reflexivity. Qed.

Lemma upper_hex_color (p : pixel) : upper (hex_color p) = hex_color p.
Proof.
  unfold hex_color. cbn [upper]. rewrite !upper_app, !upper_hex2.
  reflexivity.
Qed.

Lemma colors_of_image_upper thr img k :
  In k (colors_of_image thr img) -> upper k = k.
Proof.
  unfold colors_of_image, colors_of_row. rewrite in_flat_map.
  intros [row [_ Hk]]. apply in_map_iff in Hk. destruct Hk as [p [<- _]].
  apply upper_hex_color.
Qed.

(** *** Dictionaries filled key by key *)

Lemma fold_set_append {A : Type} (key val : A -> string) (l : list A) :
  forall acc,
  NoDup (map fst acc ++ map key l) ->
  fold_left (fun acc x => Dict.set (key x) (val x) acc) l acc =
  acc ++ map (fun x => (key x, val x)) l.
Proof.
  induction l as [|x l IH]; intros acc Hnd; cbn [fold_left map].
  - now rewrite app_nil_r.
  - cbn [map] in Hnd. rewrite dict_set_fresh.
    + rewrite IH.
      * now rewrite <- app_assoc.
      * rewrite map_app. cbn [map fst]. now rewrite <- app_assoc.
    + apply dict_get_None. apply NoDup_remove_2 in Hnd.
      intros H. apply Hnd, in_or_app. now left.
Qed.

Lemma initial_colors_fix (cm : list (string * string)) :
  NoDup (map fst cm) -> upper_keys cm -> initial_colors cm = cm.
Proof.
  intros Hnd Hup. unfold initial_colors.
  assert (Hk : map (fun ca : string * string => upper (fst ca)) cm = map fst cm).
  { unfold upper_keys in Hup. induction cm as [|[k a] cm IH]; [reflexivity|].
    cbn [map fst] in *. inversion Hup; subst. inversion Hnd; subst.
    f_equal; [assumption|]. now apply IH. }
  rewrite (fold_set_append (fun ca : string * string => upper (fst ca)) snd cm []).
  - cbn [app]. unfold upper_keys in Hup. clear Hnd Hk.
    induction cm as [|[k a] cm IH]; [reflexivity|].
    cbn [map fst snd] in *. inversion Hup as [|? ? Hu Hr]; subst.
    rewrite Hu. f_equal. now apply IH.
  - cbn [map app]. now rewrite Hk.
Qed.

Lemma palette_of_flipped (colors : list (string * string)) :
  NoDup (map snd colors) -> palette_of colors = map flipped colors.
Proof.
  intros Hnd. unfold palette_of.
  now rewrite (fold_set_append snd fst colors []).
Qed.

Lemma flipped_flipped (l : list (string * string)) :
  map flipped (map flipped l) = l.
Proof.
  induction l as [|[a b] l IH]; [reflexivity|]. cbn [map]. now rewrite IH.
Qed.

Lemma merge_known (l : list (string * string)) : forall acc,
  (forall ah, In ah l -> In (snd ah) (map fst acc)) ->
  fold_left (fun acc ah =>
               if Dict.mem (snd ah) acc then acc
               else Dict.set (snd ah) (fst ah) acc) l acc = acc.
Proof.
  induction l as [|ah l IH]; intros acc H; cbn [fold_left]; [reflexivity|].
  assert (Hm : Dict.mem (snd ah) acc = true).
  { apply mem_keys. apply H. now left. }
  rewrite Hm. apply IH. intros x Hx. apply H. now right.
Qed.

Lemma merge_fresh (l : list (string * string)) : forall acc,
  NoDup (map fst acc ++ map snd l) ->
  fold_left (fun acc ah =>
               if Dict.mem (snd ah) acc then acc
               else Dict.set (snd ah) (fst ah) acc) l acc =
  acc ++ map flipped l.
Proof.
  induction l as [|ah l IH]; intros acc Hnd; cbn [fold_left map].
  - now rewrite app_nil_r.
  - cbn [map] in Hnd.
    assert (Hni : ~ In (snd ah) (map fst acc)).
    { apply NoDup_remove_2 in Hnd. intros H. apply Hnd, in_or_app. now left. }
    assert (Hm : Dict.mem (snd ah) acc = false).
    { destruct (Dict.mem (snd ah) acc) eqn:E; [|reflexivity].
      apply mem_keys in E. contradiction. }
    rewrite Hm, dict_set_fresh by now apply dict_get_None.
    rewrite IH.
    + now rewrite <- app_assoc.
    + rewrite map_app. cbn [map fst]. now rewrite <- app_assoc.
Qed.

Lemma map_snd_flipped (l : list (string * string)) :
  map snd (map flipped l) = map fst l.
Proof. induction l as [|[a b] l IH]; [reflexivity|]. cbn. now rewrite IH. Qed.

Lemma map_fst_flipped (l : list (string * string)) :
  map fst (map flipped l) = map snd l.
Proof. induction l as [|[a b] l IH]; [reflexivity|]. cbn. now rewrite IH. Qed.

(** The second loop of a round of [batch_to_text] leaves in
    [color_map] the colours of the image's palette, as they stand. *)
Lemma merge_palette (cm ext : list (string * string)) :
  NoDup (map fst (cm ++ ext)) ->
  fold_left (fun acc ah =>
               if Dict.mem (snd ah) acc then acc
               else Dict.set (snd ah) (fst ah) acc)
            (map flipped (cm ++ ext)) cm = cm ++ ext.
Proof.
  intros Hnd.
  rewrite map_app, fold_left_app, (merge_known (map flipped cm) cm).
  - rewrite merge_fresh; [now rewrite flipped_flipped|].
    rewrite map_snd_flipped. now rewrite map_app in Hnd.
  - intros ah Hah. apply in_map_iff in Hah. destruct Hah as [[k a] [<- Hin]].
    cbn. change k with (fst (k, a)). now apply in_map.
Qed.

(** *** One image, a batch of images *)

Lemma in_sequence_aliases (cm : list (string * string)) :
  in_sequence cm -> NoDup (map snd cm) /\ incl (map snd cm) alias_sequence.
Proof.
  intros [_ Hs]. rewrite Hs. split.
  - apply NoDup_firstn, alias_sequence_nodup.
  - intros a. apply In_firstn.
Qed.

Lemma start_inv (cm : list (string * string)) :
  in_sequence cm -> palette_inv (mkPalette cm alias_sequence (map snd cm)).
Proof.
  intros H. split; [exact H|]. split; [tauto|].
  exists 0. split; [lia|reflexivity].
Qed.

Lemma image_spec img thr cm grid palette :
  in_sequence cm -> upper_keys cm ->
  image_to_grid_and_palette img thr cm = Some (grid, palette) ->
  exists ext,
    palette = map flipped (cm ++ ext) /\
    in_sequence (cm ++ ext) /\ upper_keys (cm ++ ext) /\
    Forall2 (Forall2 (cell_of thr (cm ++ ext))) img grid /\
    incl (map fst (cm ++ ext)) (map fst cm ++ colors_of_image thr img).
Proof.
  intros Hseq Hup. unfold image_to_grid_and_palette.
  rewrite (initial_colors_fix cm (proj1 Hseq) Hup).
  destruct (encode_rows thr img (mkPalette cm alias_sequence (map snd cm)))
    as [[g st]|] eqn:E; [|discriminate].
  intros [= <- <-].
  destruct (encode_rows_spec thr img _ g st (start_inv cm Hseq) E)
    as [[Hs _] [[ext He] [Hc Hk]]].
  cbn [color_to_alias] in He, Hk. rewrite He in *.
  exists ext. split.
  { apply palette_of_flipped. now apply in_sequence_aliases. }
  split; [exact Hs|]. split; [|split; [exact Hc|exact Hk]].
  unfold upper_keys. apply Forall_forall. intros k Hin. apply Hk in Hin.
  apply in_app_or in Hin. destruct Hin as [Hin|Hin].
  - unfold upper_keys in Hup. rewrite Forall_forall in Hup. now apply Hup.
  - now apply (colors_of_image_upper thr img).
Qed.

Lemma image_total img thr cm cs :
  in_sequence cm -> upper_keys cm ->
  incl (map fst cm ++ colors_of_image thr img) cs ->
  List.length cs <= 712 ->
  exists grid palette,
    image_to_grid_and_palette img thr cm = Some (grid, palette).
Proof.
  intros Hseq Hup Hcs Hlen. unfold image_to_grid_and_palette.
  rewrite (initial_colors_fix cm (proj1 Hseq) Hup).
  destruct (encode_rows_total thr img cs _ (start_inv cm Hseq) Hcs Hlen)
    as [g [st E]].
  rewrite E. now eexists _, _.
Qed.

Lemma batch_spec thr images : forall cm grids final,
  in_sequence cm -> upper_keys cm ->
  batch_grids images thr cm = Some (grids, final) ->
  exists ext,
    final = cm ++ ext /\ in_sequence final /\
    Forall2 (Forall2 (Forall2 (cell_of thr final))) images grids /\
    incl (map fst final) (map fst cm ++ colors_of_batch thr images).
Proof.
  induction images as [|img images IH]; intros cm grids final Hseq Hup;
    cbn [batch_grids].
  - intros [= <- <-]. exists []. rewrite app_nil_r.
    split; [reflexivity|]. split; [exact Hseq|]. split; [constructor|].
    apply incl_appl, incl_refl.
  - destruct (image_to_grid_and_palette img thr cm) as [[grid pal]|] eqn:Ei;
      [|discriminate].
    destruct (image_spec img thr cm grid pal Hseq Hup Ei)
      as [e1 [-> [Hs1 [Hu1 [Hc1 Hk1]]]]].
    rewrite (merge_palette cm e1 (proj1 Hs1)).
    destruct (batch_grids images thr (cm ++ e1)) as [[gs fin]|] eqn:Eb;
      [|discriminate].
    intros [= <- <-].
    destruct (IH (cm ++ e1) gs fin Hs1 Hu1 Eb) as [e2 [-> [Hs2 [Hc2 Hk2]]]].
    exists (e1 ++ e2). split; [now rewrite app_assoc|]. split; [exact Hs2|].
    split.
    + constructor; [|exact Hc2].
      eapply Forall2_impl; [|exact Hc1]. intros row cells.
      apply Forall2_impl. intros q c. apply cell_of_mono.
      apply incl_appl, incl_refl.
    + unfold colors_of_batch. cbn [flat_map]. fold (colors_of_batch thr images).
      rewrite app_assoc. intros k Hk. apply Hk2 in Hk. apply in_app_or in Hk.
      apply in_or_app. destruct Hk as [Hk|Hk]; [left; now apply Hk1|now right].
Qed.

Lemma batch_total thr images cs : forall cm,
  in_sequence cm -> upper_keys cm ->
  incl (map fst cm ++ colors_of_batch thr images) cs ->
  List.length cs <= 712 ->
  exists grids final, batch_grids images thr cm = Some (grids, final).
Proof.
  induction images as [|img images IH]; intros cm Hseq Hup Hcs Hlen;
    cbn [batch_grids].
  - now eexists _, _.
  - unfold colors_of_batch in Hcs. cbn [flat_map] in Hcs.
    fold (colors_of_batch thr images) in Hcs. rewrite app_assoc in Hcs.
    destruct (image_total img thr cm cs Hseq Hup) as [grid [pal Ei]];
      [intros k Hk; apply Hcs, in_or_app; now left|exact Hlen|].
    rewrite Ei.
    destruct (image_spec img thr cm grid pal Hseq Hup Ei)
      as [e1 [-> [Hs1 [Hu1 [_ Hk1]]]]].
    rewrite (merge_palette cm e1 (proj1 Hs1)).
    destruct (IH (cm ++ e1) Hs1 Hu1) as [gs [fin Eb]]; [|exact Hlen|].
    + intros k Hk. apply Hcs. apply in_app_or in Hk. apply in_or_app.
      destruct Hk as [Hk|Hk]; [left; now apply Hk1|now right].
    + rewrite Eb. now eexists _, _.
Qed.

Lemma empty_in_sequence : in_sequence [] /\ upper_keys [].
Proof. split; [split; [constructor|reflexivity]|constructor]. Qed.

Lemma Forall2_right {A B : Type} (R : A -> B -> Prop) (P : B -> Prop)
      (l : list A) (l' : list B) :
  (forall x y, R x y -> P y) -> Forall2 R l l' -> Forall P l'.
Proof.
  intros H HF. induction HF; constructor; eauto.
Qed.

Lemma row_colors_covered thr (cm : list (string * string)) row cells :
  Forall2 (cell_of thr cm) row cells ->
  incl (colors_of_row thr row) (map fst cm).
Proof.
  intros HF. induction HF as [|p c row cells Hc _ IH].
  - intros k [].
  - rewrite colors_of_row_cons. apply incl_app; [|exact IH].
    unfold cell_of in Hc. destruct (opaque thr p); [|intros k []].
    intros k [<-|[]]. change (hex_color p) with (fst (hex_color p, c)).
    now apply in_map.
Qed.

Lemma image_colors_covered thr (cm : list (string * string)) img grid :
  Forall2 (Forall2 (cell_of thr cm)) img grid ->
  incl (colors_of_image thr img) (map fst cm).
Proof.
  intros HF. induction HF as [|row cells img grid Hc _ IH].
  - intros k [].
  - unfold colors_of_image. cbn [flat_map]. apply incl_app; [|exact IH].
    now apply (row_colors_covered thr cm row cells).
Qed.

Lemma batch_colors_covered thr (cm : list (string * string)) imgs grids :
  Forall2 (Forall2 (Forall2 (cell_of thr cm))) imgs grids ->
  incl (colors_of_batch thr imgs) (map fst cm).
Proof.
  intros HF. induction HF as [|img grid imgs grids Hc _ IH].
  - intros k [].
  - unfold colors_of_batch. cbn [flat_map]. apply incl_app; [|exact IH].
    now apply (image_colors_covered thr cm img grid).
Qed.

Lemma in_sequence_length (cm : list (string * string)) :
  in_sequence cm -> List.length cm <= 712.
Proof.
  intros [_ Hs]. apply (f_equal (@List.length string)) in Hs.
  rewrite length_map, length_firstn, alias_sequence_length in Hs. lia.
Qed.

Lemma pad_cell_two (cell : string) :
  String.length cell = 1 \/ String.length cell = 2 ->
  String.length (pad_cell cell) = 2.
Proof.
  unfold pad_cell. intros [H|H]; rewrite H; [|exact H].
  destruct cell as [|c [|d r]]; simpl in *; try discriminate. reflexivity.
Qed.


(** *** Colours in the order of their first appearance *)

Lemma first_seen_app (a b : list string) : forall seen,
  first_seen seen (a ++ b) =
  first_seen seen a ++ first_seen (seen ++ first_seen seen a) b.
Proof.
  induction a as [|x a IH]; intros seen; cbn [app first_seen].
  - now rewrite app_nil_r.
  - destruct (in_list x seen); [apply IH|].
    rewrite IH. cbn [app]. now rewrite <- app_assoc.
Qed.

Lemma encode_pixel_keys thr p st cell st' :
  encode_pixel thr p st = Some (cell, st') ->
  map fst (color_to_alias st') =
  map fst (color_to_alias st) ++
  first_seen (map fst (color_to_alias st))
             (if opaque thr p then [hex_color p] else []).
Proof.
  unfold encode_pixel, opaque.
  destruct (Byte.to_N (alpha p) <? thr)%N; cbn [negb first_seen].
  - intros [= <- <-]. now rewrite app_nil_r.
  - destruct (Dict.get (hex_color p) (color_to_alias st)) as [alias|] eqn:Eg.
    + intros [= <- <-].
      assert (Hin : in_list (hex_color p) (map fst (color_to_alias st)) = true).
      { apply in_list_In. apply dict_get_In in Eg.
        change (hex_color p) with (fst (hex_color p, alias)).
        now apply in_map. }
      rewrite Hin. now rewrite app_nil_r.
    + destruct (next_unused (alias_gen st) (used_aliases st))
        as [[alias rest]|]; [|discriminate].
      intros [= <- <-]. cbn [color_to_alias].
      assert (Hin : in_list (hex_color p) (map fst (color_to_alias st)) = false).
      { destruct (in_list (hex_color p) (map fst (color_to_alias st))) eqn:E;
          [|reflexivity].
        apply in_list_In in E. now apply dict_get_None in Eg. }
      rewrite Hin, (dict_set_fresh (hex_color p) alias _ Eg), map_app.
      reflexivity.
Qed.

Lemma encode_row_keys thr row : forall st cells st',
  encode_row thr row st = Some (cells, st') ->
  map fst (color_to_alias st') =
  map fst (color_to_alias st) ++
  first_seen (map fst (color_to_alias st)) (colors_of_row thr row).
Proof.
  induction row as [|p row IH]; intros st cells st'; cbn [encode_row].
  - intros [= <- <-]. cbn. now rewrite app_nil_r.
  - destruct (encode_pixel thr p st) as [[cell st1]|] eqn:Ep; [|discriminate].
    destruct (encode_row thr row st1) as [[cs st2]|] eqn:Er; [|discriminate].
    intros [= <- <-].
    rewrite colors_of_row_cons, first_seen_app.
    rewrite (IH st1 cs st2 Er), (encode_pixel_keys thr p st cell st1 Ep).
    now rewrite <- app_assoc.
Qed.

Lemma encode_rows_keys thr rows : forall st grid st',
  encode_rows thr rows st = Some (grid, st') ->
  map fst (color_to_alias st') =
  map fst (color_to_alias st) ++
  first_seen (map fst (color_to_alias st)) (colors_of_image thr rows).
Proof.
  induction rows as [|row rows IH]; intros st grid st'; cbn [encode_rows].
  - intros [= <- <-]. cbn. now rewrite app_nil_r.
  - destruct (encode_row thr row st) as [[cells st1]|] eqn:Ep; [|discriminate].
    destruct (encode_rows thr rows st1) as [[g st2]|] eqn:Er; [|discriminate].
    intros [= <- <-].
    unfold colors_of_image. cbn [flat_map]. fold (colors_of_image thr rows).
    rewrite first_seen_app.
    rewrite (IH st1 g st2 Er), (encode_row_keys thr row st cells st1 Ep).
    now rewrite <- app_assoc.
Qed.

(** The colours of the palette of an image, in its order: those it was
    given, then the new ones as they first appear. *)
Lemma image_keys img thr cm grid palette :
  in_sequence cm -> upper_keys cm ->
  image_to_grid_and_palette img thr cm = Some (grid, palette) ->
  map snd palette =
  map fst cm ++ first_seen (map fst cm) (colors_of_image thr img).
Proof.
  intros Hseq Hup. unfold image_to_grid_and_palette.
  rewrite (initial_colors_fix cm (proj1 Hseq) Hup).
  destruct (encode_rows thr img (mkPalette cm alias_sequence (map snd cm)))
    as [[g st]|] eqn:E; [|discriminate].
  intros [= <- <-].
  destruct (encode_rows_spec thr img _ g st (start_inv cm Hseq) E)
    as [[Hs _] _].
  rewrite palette_of_flipped by now apply in_sequence_aliases.
  rewrite map_snd_flipped.
  now rewrite (encode_rows_keys thr img _ g st E).
Qed.

Lemma batch_keys thr images : forall cm grids final,
  in_sequence cm -> upper_keys cm ->
  batch_grids images thr cm = Some (grids, final) ->
  map fst final =
  map fst cm ++ first_seen (map fst cm) (colors_of_batch thr images).
Proof.
  induction images as [|img images IH]; intros cm grids final Hseq Hup;
    cbn [batch_grids].
  - intros [= <- <-]. cbn. now rewrite app_nil_r.
  - destruct (image_to_grid_and_palette img thr cm) as [[grid pal]|] eqn:Ei;
      [|discriminate].
    pose proof (image_keys img thr cm grid pal Hseq Hup Ei) as Hkeys.
    destruct (image_spec img thr cm grid pal Hseq Hup Ei)
      as [e1 [-> [Hs1 [Hu1 _]]]].
    rewrite (merge_palette cm e1 (proj1 Hs1)).
    destruct (batch_grids images thr (cm ++ e1)) as [[gs fin]|] eqn:Eb;
      [|discriminate].
    intros [= <- <-].
    rewrite map_snd_flipped in Hkeys.
    unfold colors_of_batch. cbn [flat_map]. fold (colors_of_batch thr images).
    rewrite first_seen_app, (IH (cm ++ e1) gs fin Hs1 Hu1 Eb), Hkeys.
    now rewrite <- app_assoc.
Qed.

Lemma combine_fst_snd {A B : Type} (l : list (A * B)) :
  combine (map fst l) (map snd l) = l.
Proof.
  induction l as [|[a b] l IH]; [reflexivity|]. cbn. now rewrite IH.
Qed.

Lemma combine_firstn_length {A B : Type} (l : list A) : forall (s : list B),
  combine l (firstn (List.length l) s) = combine l s.
Proof.
  induction l as [|a l IH]; intros [|b s]; cbn; try reflexivity.
  now rewrite IH.
Qed.

(* ------------------------------------------------------------------ *)
(** ** More facts about the planner and the batch loop *)

Lemma ceil_div_le n b l : 1 <= b -> n <= l * b -> ceil_div n b <= l.
Proof.
  intros Hb H. destruct (ceil_div_spec n b Hb) as [_ Hlow].
  destruct n as [|n]; [rewrite ceil_div_zero by exact Hb; lia|].
  specialize (Hlow ltac:(lia)). nia.
Qed.

Lemma ceil_div_ge n b l : 1 <= b -> l * b <= n -> l <= ceil_div n b.
Proof.
  intros Hb H. destruct (ceil_div_spec n b Hb) as [Hup _]. nia.
Qed.

Lemma ceil_div_min n b l : 1 <= b ->
  ceil_div (Nat.min (l * b) n) b = Nat.min l (ceil_div n b).
Proof.
  intros Hb. destruct (Nat.le_ge_cases n (l * b)) as [H|H].
  - rewrite Nat.min_r by exact H.
    rewrite Nat.min_r; [reflexivity|now apply ceil_div_le].
  - rewrite Nat.min_l by exact H.
    rewrite Nat.min_l by (now apply ceil_div_ge).
    apply Nat.le_antisymm; [apply ceil_div_le|apply ceil_div_ge]; lia.
Qed.

Lemma firstn_seq n : forall start len,
  firstn n (seq start len) = seq start (Nat.min n len).
Proof.
  induction n as [|n IH]; intros start [|len]; simpl; try reflexivity.
  now rewrite IH.
Qed.

(** Slicing the first [l] batches' worth of keys gives the first [l]
    batches. *)
Lemma batch_slices_firstn keys b l : 1 <= b ->
  batch_slices (firstn (l * b) keys) b = firstn l (batch_slices keys b).
Proof.
  intros Hb. rewrite !batch_slices_spec by exact Hb.
  rewrite firstn_map, firstn_seq, length_firstn, ceil_div_min by exact Hb.
  apply map_ext_in. intros i Hi. apply in_seq in Hi.
  assert (i < l) by lia.
  rewrite skipn_firstn_comm, firstn_firstn.
  f_equal. apply Nat.min_l. nia.
Qed.

Lemma batch_slices_nonempty keys b : 1 <= b ->
  Forall (fun batch => batch <> []) (batch_slices keys b).
Proof.
  intros Hb. rewrite batch_slices_spec by exact Hb.
  apply Forall_forall. intros x Hx.
  apply in_map_iff in Hx. destruct Hx as (i & <- & Hi).
  apply in_seq in Hi.
  destruct (ceil_div_spec (List.length keys) b Hb) as [_ Hlow].
  assert (Hpos : 0 < List.length keys).
  { destruct (List.length keys) eqn:E; [|lia].
    rewrite ceil_div_zero in Hi by exact Hb. lia. }
  specialize (Hlow Hpos).
  intros E. apply (f_equal (@List.length string)) in E.
  rewrite length_firstn, length_skipn in E. simpl in E. nia.
Qed.

Section RunInvariants.

Variable json_loads : string -> option json.
Variable has_image : string -> bool.
Variable oracle : nat -> run_outcome.
Variable raw_image : string -> list (list pixel).
Variable save_fault : nat -> catalog -> option (nat * exn).
Variable json_dump : catalog -> list string.

Notation "'run_batch'" :=
  (process_batch json_loads has_image oracle raw_image save_fault json_dump)
  (only parsing).
Notation "'run_batches'" :=
  (process_batches json_loads has_image oracle raw_image save_fault json_dump)
  (only parsing).

Lemma process_batch_inv keys batch st :
  run_inv keys st -> run_inv keys (fst (run_batch batch st)).
Proof.
  intros (Hk & Hs). unfold process_batch.
  destruct (filter has_image batch) as [|k0 ks]; [now split|].
  destruct (prepare_batch raw_image (k0 :: ks)); [now split|].
  destruct (attempts json_loads oracle max_retries (st_calls st))
    as [calls [[enrichments|]|e]]; try (now split).
  pose proof (merge_keys (k0 :: ks) enrichments (st_sprites st) 0) as Hm.
  destruct (merge_enrichments (k0 :: ks) enrichments (st_sprites st) 0)
    as [sprites applied]. cbn [fst] in Hm.
  destruct (save_fault (List.length (st_saved st)) sprites) as [[n e]|];
    unfold run_inv; cbn [fst st_sprites st_saved].
  - split; [congruence|exact Hs].
  - split; [congruence|]. constructor; [congruence|exact Hs].
Qed.

Lemma process_batches_inv keys batches : forall st,
  run_inv keys st -> run_inv keys (fst (run_batches batches st)).
Proof.
  induction batches as [|batch rest IH]; intros st H; simpl; [exact H|].
  pose proof (process_batch_inv keys batch st H) as Hstep.
  destruct (run_batch batch st) as [st' [e|]];
    simpl in *; [exact Hstep|now apply IH].
Qed.

(** A round that starts from a whole file leaves a whole file, or ends
    the run inside [save_index] with a torn one. *)
Lemma process_batch_file loaded output batch st :
  file_whole json_dump loaded output st ->
  file_whole json_dump loaded output (fst (run_batch batch st))
  \/ file_torn save_fault json_dump output
               (fst (run_batch batch st)) (snd (run_batch batch st)).
Proof.
  intros (Hp & Hf). unfold process_batch.
  destruct (filter has_image batch) as [|k0 ks]; [left; now split|].
  destruct (prepare_batch raw_image (k0 :: ks)); [left; now split|].
  destruct (attempts json_loads oracle max_retries (st_calls st))
    as [calls [[enrichments|]|e]]; try (left; now split).
  destruct (merge_enrichments (k0 :: ks) enrichments (st_sprites st) 0)
    as [sprites applied].
  destruct (save_fault (List.length (st_saved st)) sprites) as [[n e]|] eqn:Es;
    cbn [fst snd].
  - right. exists n, e. cbn [st_sprites st_saved st_file].
    split; [reflexivity|]. split; [exact Es|]. now rewrite Hf.
  - left. split; [reflexivity|]. cbn [st_file st_saved file_after].
    apply save_index_whole.
Qed.

Lemma process_batches_file loaded output batches : forall st,
  file_whole json_dump loaded output st ->
  file_whole json_dump loaded output (fst (run_batches batches st))
  \/ file_torn save_fault json_dump output
               (fst (run_batches batches st)) (snd (run_batches batches st)).
Proof.
  induction batches as [|batch rest IH]; intros st H; simpl; [now left|].
  pose proof (process_batch_file loaded output batch st H) as Hstep.
  destruct (run_batch batch st) as [st' [e|]]; cbn [fst snd] in *;
    [exact Hstep|].
  apply IH. destruct Hstep as [Hw|(n & e & Ho & _)]; [exact Hw|discriminate].
Qed.

(** Calls and saves of a round, and of the loop. *)
Lemma process_batch_counts batch st :
  let st' := fst (run_batch batch st) in
  st_calls st <= st_calls st' <= st_calls st + max_retries
  /\ List.length (st_saved st') <= S (List.length (st_saved st))
  /\ List.length (st_saved st) <= List.length (st_saved st').
Proof.
  unfold process_batch.
  destruct (filter has_image batch) as [|k0 ks]; [simpl; lia|].
  destruct (prepare_batch raw_image (k0 :: ks)); [simpl; lia|].
  pose proof (attempts_bound json_loads oracle max_retries (st_calls st)) as Hb.
  destruct (attempts json_loads oracle max_retries (st_calls st))
    as [calls [[enrichments|]|e]]; cbn [fst] in Hb.
  - destruct (merge_enrichments (k0 :: ks) enrichments (st_sprites st) 0)
      as [sprites applied].
    destruct (save_fault (List.length (st_saved st)) sprites) as [[n e]|];
      cbn [fst st_calls st_saved List.length]; lia.
  - cbn [fst st_calls st_saved]. lia.
  - cbn [fst st_calls st_saved]. lia.
Qed.

Lemma process_batches_counts batches : forall st,
  let st' := fst (run_batches batches st) in
  st_calls st' <= st_calls st + max_retries * List.length batches
  /\ List.length (st_saved st')
     <= List.length (st_saved st) + List.length batches.
Proof.
  unfold max_retries.
  induction batches as [|batch rest IH]; intros st; simpl; [lia|].
  pose proof (process_batch_counts batch st) as Hstep.
  unfold max_retries in Hstep.
  destruct (run_batch batch st) as [st' [e|]];
    simpl in *; [lia|].
  specialize (IH st'). simpl in IH. lia.
Qed.

End RunInvariants.

(** A catalog whose sprites are all enriched has nothing to do. *)
Lemma todo_all_enriched sprites :
  (forall k info, In (k, info) sprites -> is_enriched info = true) ->
  todo sprites = [].
Proof.
  intros H. unfold todo.
  induction sprites as [|[k info] l IH]; simpl; [reflexivity|].
  rewrite (H k info (or_introl eq_refl)). simpl.
  apply IH. intros k' info' Hin. apply (H k' info'). now right.
Qed.

(** A complete entry leaves the sprite enriched, whatever it was. *)
Lemma merge_entry_complete m info :
  complete_entry (JObj m) = true -> is_enriched (merge_entry m info) = true.
Proof.
  unfold complete_entry. intros H.
  apply andb_prop in H. destruct H as [H Ht].
  apply andb_prop in H. destruct H as [Hd Hy].
  destruct (entry_get "tags" m) as [| | | | |[|t ts]|] eqn:Et;
    try discriminate.
  apply negb_true_iff in Ht.
  unfold is_enriched.
  rewrite merge_entry_description, merge_entry_tile_type, Hd, Hy. simpl.
  rewrite Hd, Hy, andb_true_r. simpl.
  unfold merge_entry, strip_tile_type.
  rewrite assign_entry_tags, Et.
  assert (Htt : tile_type (assign_entry m info) = Some (entry_get "tile_type" m)).
  { unfold assign_entry. rewrite Hy. reflexivity. }
  rewrite Htt. simpl get_or_none. simpl tags_or_empty.
  rewrite Ht, andb_false_r. rewrite assign_entry_tags, Et. reflexivity.
Qed.

(** Complete entries for all the keys enrich all their sprites. *)
Lemma merge_complete_enriches (valid_keys : list string)
        (enrichments : list json) (sprites : catalog) :
  NoDup valid_keys ->
  (forall key, In key valid_keys -> In key (Dict.keys sprites)) ->
  List.length valid_keys <= List.length enrichments ->
  Forall (fun e => complete_entry e = true)
         (firstn (List.length valid_keys) enrichments) ->
  forall key, In key valid_keys ->
    exists info,
      Dict.get key (fst (merge_enrichments valid_keys enrichments sprites 0))
        = Some info
      /\ is_enriched info = true.
Proof.
  intros Hnd Hpresent Hlen Hall key Hkey.
  apply In_nth_error in Hkey. destruct Hkey as (i & Hi).
  assert (Hilt : i < List.length valid_keys).
  { apply nth_error_Some. congruence. }
  rewrite (merge_positional valid_keys Hnd enrichments sprites 0 i key Hi).
  destruct (nth_error enrichments i) as [e|] eqn:Ee;
    [|apply nth_error_None in Ee; lia].
  assert (Hc : complete_entry e = true).
  { rewrite Forall_forall in Hall. apply Hall.
    apply (nth_error_In _ i). now rewrite nth_error_firstn, (proj2 (Nat.ltb_lt _ _) Hilt). }
  destruct e; try discriminate.
  assert (Hin : In key (Dict.keys sprites)).
  { apply Hpresent. eapply nth_error_In; eauto. }
  destruct (Dict.get key sprites) as [old|] eqn:Eg.
  - exists (merge_entry members old). split; [reflexivity|].
    now apply merge_entry_complete.
  - apply get_None_keys in Eg. contradiction.
Qed.

Lemma Forall_firstn {A : Type} (P : A -> Prop) n (l : list A) :
  Forall P l -> Forall P (firstn n l).
Proof.
  intros H. apply Forall_forall. intros x Hx.
  rewrite Forall_forall in H. apply H. eapply In_firstn; eauto.
Qed.

Section ReliableRun.

Variable json_loads : string -> option json.
Variable has_image : string -> bool.
Variable oracle : nat -> run_outcome.
Variable raw_image : string -> list (list pixel).
Variable save_fault : nat -> catalog -> option (nat * exn).
Variable json_dump : catalog -> list string.

Notation "'run_batch'" :=
  (process_batch json_loads has_image oracle raw_image save_fault json_dump)
  (only parsing).
Notation "'run_batches'" :=
  (process_batches json_loads has_image oracle raw_image save_fault json_dump)
  (only parsing).

Hypothesis images : forall k, has_image k = true.
Hypothesis no_fault : forall n data, save_fault n data = None.

Lemma filter_has_image l : filter has_image l = l.
Proof. apply filter_all. intros; apply images. Qed.

(** A batch with an image at least and few enough colours gets its
    grid and its text. *)
Lemma prepare_batch_ok batch :
  batch <> [] -> within_palette raw_image batch ->
  prepare_batch raw_image batch = None.
Proof.
  intros Hne (cs & Hcs & Hlen). unfold prepare_batch.
  destruct batch as [|k ks]; [contradiction|].
  cbn [map compose_batch_grid List.length].
  assert (Hc : (grid_cols (S (List.length
                   (map (fun img => upscale (image_size img))
                        (map raw_image ks)))) =? 0) = false).
  { apply Nat.eqb_neq. unfold grid_cols.
    destruct (3 <? S _); lia. }
  rewrite Hc.
  destruct empty_in_sequence as [Hs Hu].
  destruct (batch_total 128 (map raw_image (k :: ks)) cs [] Hs Hu Hcs Hlen)
    as (grids & final & E).
  cbn [map] in E. now rewrite E.
Qed.

(** A round whose call the oracle answers enriches its batch at that
    call, saves, and leaves the other sprites alone. *)
Lemma process_batch_reliable batch st :
  NoDup batch -> batch <> [] ->
  (forall k, In k batch -> In k (Dict.keys (st_sprites st))) ->
  within_palette raw_image batch ->
  answers_batch json_loads oracle (st_calls st) batch ->
  exists st',
    run_batch batch st = (st', None)
    /\ st_calls st' = S (st_calls st)
    /\ (forall k, In k batch ->
          exists info, Dict.get k (st_sprites st') = Some info
                       /\ is_enriched info = true)
    /\ (forall k, ~ In k batch ->
          Dict.get k (st_sprites st') = Dict.get k (st_sprites st))
    /\ Dict.keys (st_sprites st') = Dict.keys (st_sprites st).
Proof.
  intros Hnd Hne Hkeys Hpal (stdout & answer & Ho & Hp & Hn & Hc).
  unfold process_batch. rewrite filter_has_image.
  destruct batch as [|k0 ks]; [contradiction|].
  rewrite (prepare_batch_ok (k0 :: ks) Hne Hpal).
  assert (Ha : attempts json_loads oracle max_retries (st_calls st)
               = (S (st_calls st), Ok (Some answer))).
  { unfold max_retries. simpl. rewrite Ho. simpl. now rewrite Hp. }
  rewrite Ha.
  pose proof (merge_keys (k0 :: ks) answer (st_sprites st) 0) as Hmk.
  pose proof (fun k Hk => merge_frame (k0 :: ks) k Hk answer (st_sprites st) 0)
    as Hmf.
  pose proof (merge_complete_enriches (k0 :: ks) answer (st_sprites st) Hnd
                Hkeys Hn Hc) as Hme.
  destruct (merge_enrichments (k0 :: ks) answer (st_sprites st) 0)
    as [sprites applied] eqn:Em.
  rewrite no_fault.
  eexists. split; [reflexivity|]. cbn [fst st_sprites st_calls] in *.
  repeat split; auto.
Qed.

Lemma process_batches_reliable batches : forall st,
  NoDup (List.concat batches) ->
  Forall (fun batch => batch <> []) batches ->
  Forall (within_palette raw_image) batches ->
  (forall k, In k (List.concat batches) -> In k (Dict.keys (st_sprites st))) ->
  (forall i batch, nth_error batches i = Some batch ->
                   answers_batch json_loads oracle (st_calls st + i) batch) ->
  exists fin,
    run_batches batches st = (fin, None)
    /\ (forall k, In k (List.concat batches) ->
          exists info, Dict.get k (st_sprites fin) = Some info
                       /\ is_enriched info = true)
    /\ (forall k, ~ In k (List.concat batches) ->
          Dict.get k (st_sprites fin) = Dict.get k (st_sprites st))
    /\ Dict.keys (st_sprites fin) = Dict.keys (st_sprites st).
Proof.
  induction batches as [|batch rest IH];
    intros st Hnd Hne Hpal Hkeys Hans; simpl in *.
  { exists st. repeat split; auto. intros k []. }
  inversion Hne as [|? ? Hb Hrest]; subst.
  inversion Hpal as [|? ? Hp Hprest]; subst.
  destruct (process_batch_reliable batch st)
    as (st1 & E1 & Hc1 & He1 & Hf1 & Hk1).
  { eapply NoDup_app_remove_r; eauto. }
  { exact Hb. }
  { intros k Hk. apply Hkeys, in_or_app. now left. }
  { exact Hp. }
  { specialize (Hans 0 batch eq_refl). now rewrite Nat.add_0_r in Hans. }
  rewrite E1.
  destruct (IH st1) as (fin & E & He & Hf & Hk).
  { eapply NoDup_app_remove_l; eauto. }
  { exact Hrest. }
  { exact Hprest. }
  { intros k Hk. rewrite Hk1. apply Hkeys, in_or_app. now right. }
  { intros i b Hi. rewrite Hc1.
    replace (S (st_calls st) + i) with (st_calls st + S i) by lia.
    now apply Hans. }
  exists fin. split; [exact E|]. repeat split.
  - intros k Hin. apply in_app_or in Hin. destruct Hin as [Hin|Hin].
    + destruct (He1 k Hin) as (info & Hg & Hi). exists info.
      split; [|exact Hi]. rewrite Hf; [exact Hg|].
      intros Hc. exact (NoDup_app_disjoint _ _ k Hnd Hin Hc).
    + now apply He.
  - intros k Hnin. rewrite Hf, Hf1; [reflexivity| |];
      intros Hc; apply Hnin, in_or_app; auto.
  - congruence.
Qed.

End ReliableRun.

(* ------------------------------------------------------------------ *)
(** ** More facts about the verify pass *)

Lemma is_enriched_verifiable info :
  is_enriched info = true -> verifiable info = true.
Proof.
  unfold is_enriched, verifiable. intros H.
  apply andb_prop in H. destruct H as [H Ht].
  apply andb_prop in H. destruct H as [Hd _].
  now rewrite Hd, Ht.
Qed.

Lemma strip_tile_type_description info :
  description (strip_tile_type info) = description info.
Proof. unfold strip_tile_type. now destruct (_ && _). Qed.

Lemma strip_tile_type_tile_type info :
  tile_type (strip_tile_type info) = tile_type info.
Proof. unfold strip_tile_type. now destruct (_ && _). Qed.

(** A fix leaves a sprite that had a description and a tile type with a
    description and a tile type. *)
Lemma apply_fix_fields_verifiable patch info :
  verifiable info = true -> verifiable (apply_fix_fields patch info) = true.
Proof.
  unfold verifiable, apply_fix_fields. intros H.
  apply andb_prop in H. destruct H as [Hd Ht].
  rewrite strip_tile_type_description, strip_tile_type_tile_type.
  destruct (truthy (entry_get "description" patch)) eqn:Pd;
    destruct (truthy (entry_get "tile_type" patch)) eqn:Pt;
    destruct (entry_get "tags" patch) as [| | | | |[|t ts]|];
    simpl;
    repeat match goal with
           | |- context [if negb ?c then _ else _] => destruct c; simpl
           end;
    rewrite ?Pd, ?Pt, ?Hd, ?Ht; reflexivity.
Qed.

Lemma apply_fix_keys valid_keys item st :
  Dict.keys (v_sprites (fst (apply_fix valid_keys item st))) =
  Dict.keys (v_sprites st).
Proof.
  destruct item; try reflexivity. simpl.
  destruct (Dict.get "index" members) as [index|]; [|reflexivity].
  destruct (index_minus_one index) as [idx|]; [|reflexivity].
  destruct (key_at idx valid_keys) as [[key|]|]; try reflexivity.
  destruct (Dict.get key (v_sprites st)) as [old|]; [|reflexivity].
  destruct (changed_fields old (apply_fix_fields members old)).
  - simpl. apply keys_update.
  - match goal with
    | |- context [log_changes ?a ?b ?c ?d] =>
        destruct (log_changes a b c d) as [log e]
    end.
    simpl. apply keys_update.
Qed.

Lemma apply_fix_stays_verifiable valid_keys item st :
  stays_verifiable (v_sprites st)
                   (v_sprites (fst (apply_fix valid_keys item st))).
Proof.
  intros k info Hg Hv.
  destruct item; try (exists info; now split). simpl.
  destruct (Dict.get "index" members) as [index|]; [|exists info; now split].
  destruct (index_minus_one index) as [idx|]; [|exists info; now split].
  destruct (key_at idx valid_keys) as [[key|]|]; try (exists info; now split).
  destruct (Dict.get key (v_sprites st)) as [old|] eqn:Eo;
    [|exists info; now split].
  assert (Hup : exists info',
             Dict.get k (Dict.update key
                           (fun _ => apply_fix_fields members old)
                           (v_sprites st)) = Some info'
             /\ verifiable info' = true).
  { rewrite get_update. destruct (String.eqb key k) eqn:Ek.
    - apply String.eqb_eq in Ek; subst key. rewrite Hg. simpl.
      eexists. split; [reflexivity|].
      apply apply_fix_fields_verifiable. congruence.
    - exists info. now split. }
  destruct (changed_fields old (apply_fix_fields members old)).
  - exact Hup.
  - match goal with
    | |- context [log_changes ?a ?b ?c ?d] =>
        destruct (log_changes a b c d) as [log e]
    end.
    exact Hup.
Qed.

Lemma apply_fixes_keys valid_keys fixes : forall st,
  Dict.keys (v_sprites (fst (apply_fixes valid_keys fixes st))) =
  Dict.keys (v_sprites st).
Proof.
  induction fixes as [|item rest IH]; intros st; simpl; [reflexivity|].
  pose proof (apply_fix_keys valid_keys item st) as H.
  destruct (apply_fix valid_keys item st) as [st' [e|]]; simpl in *;
    [exact H|]. now rewrite IH.
Qed.

Lemma apply_fixes_stays_verifiable valid_keys fixes : forall st,
  stays_verifiable (v_sprites st)
                   (v_sprites (fst (apply_fixes valid_keys fixes st))).
Proof.
  induction fixes as [|item rest IH]; intros st; simpl.
  - intros k info Hg Hv. exists info. now split.
  - pose proof (apply_fix_stays_verifiable valid_keys item st) as H.
    destruct (apply_fix valid_keys item st) as [st' [e|]]; simpl in *;
      [exact H|].
    intros k info Hg Hv. destruct (H k info Hg Hv) as (info1 & Hg1 & Hv1).
    exact (IH st' k info1 Hg1 Hv1).
Qed.

Lemma verify_keys_perm sprites :
  Permutation (verify_keys sprites)
              (map fst (filter (fun kv => verifiable (snd kv)) sprites)).
Proof. apply Permutation_sym, sorted_perm. Qed.

Lemma verify_keys_In sprites k :
  In k (verify_keys sprites) <->
  exists info, In (k, info) sprites /\ verifiable info = true.
Proof.
  unfold verify_keys. rewrite sorted_In, in_map_iff. split.
  - intros ([k' info] & E & H). simpl in E; subst k'.
    apply filter_In in H. exists info. tauto.
  - intros (info & H1 & H2). exists (k, info). split; [reflexivity|].
    apply filter_In. auto.
Qed.

(* ------------------------------------------------------------------ *)
(** ** Facts about the batch grid *)

Lemma nth_error_paste_all cols cw ch items : forall i0 i p,
  nth_error (paste_all cols cw ch i0 items) i = Some p ->
  exists w h name,
    nth_error items i = Some ((w, h), name) /\
    p = mkPasted (((i0 + i) mod cols) * cw + (cw - w) / 2)
                 (((i0 + i) / cols) * ch) w h.
Proof.
  induction items as [|[[w h] name] rest IH]; intros i0 i p; simpl.
  - destruct i; discriminate.
  - destruct i as [|i]; simpl.
    + intros [= <-]. exists w, h, name. now rewrite Nat.add_0_r.
    + intros H. apply IH in H. destruct H as (w' & h' & n' & H1 & H2).
      exists w', h', n'. split; [exact H1|].
      now replace (i0 + S i) with (S i0 + i) by lia.
Qed.

Lemma length_paste_all cols cw ch items : forall i0,
  List.length (paste_all cols cw ch i0 items) = List.length items.
Proof.
  induction items as [|[[w h] name] rest IH]; intros i0; simpl;
    [reflexivity|now rewrite IH].
Qed.

Lemma list_max_ge l x : In x l -> x <= list_max l.
Proof.
  intros H. pose proof (proj1 (list_max_le l (list_max l)) (Nat.le_refl _)) as F.
  rewrite Forall_forall in F. now apply F.
Qed.

(** Where image [i] lands: inside cell [(i / cols, i mod cols)], above
    the room for its label. *)
Lemma paste_in_cell images names cols g i p :
  compose_batch_grid images names cols = inr g ->
  nth_error (pastes g) i = Some p ->
  let cw := list_max (map fst images) in
  let ch := list_max (map snd images) + label_h in
    grid_w g = cols * cw /\
    grid_h g = ceil_div (List.length images) cols * ch /\
    i / cols < ceil_div (List.length images) cols /\
    i mod cols < cols /\
    (i mod cols) * cw <= at_x p /\
    at_x p + img_w p <= S (i mod cols) * cw /\
    at_y p = (i / cols) * ch /\
    at_y p + img_h p + label_h <= S (i / cols) * ch.
Proof.
  unfold compose_batch_grid.
  destruct images as [|im ims] eqn:Ei; [discriminate|]. rewrite <- Ei.
  destruct (cols =? 0) eqn:Ec; [discriminate|].
  apply Nat.eqb_neq in Ec.
  intros [= <-]. simpl pastes. intros Hp. cbv zeta.
  set (cw := list_max (map fst images)) in *.
  set (ch := list_max (map snd images) + label_h) in *.
  apply nth_error_paste_all in Hp. cbn [Nat.add] in Hp.
  destruct Hp as (w & h & name & Hn & ->).
  assert (Hin : In (w, h) images).
  { apply nth_error_In in Hn. now apply in_combine_l in Hn. }
  assert (Hw : w <= cw) by (apply list_max_ge, in_map_iff; now exists (w, h)).
  assert (Hh : h + label_h <= ch).
  { unfold ch. apply Nat.add_le_mono_r.
    apply list_max_ge, in_map_iff. now exists (w, h). }
  assert (Hi : i < List.length images).
  { assert (i < List.length (combine images names))
      by (apply nth_error_Some; congruence).
    rewrite length_combine in H. lia. }
  cbn [at_x at_y img_w img_h grid_w grid_h].
  assert (Hmod : i mod cols < cols) by (apply Nat.mod_upper_bound; lia).
  assert (Hdiv : i / cols < ceil_div (List.length images) cols).
  { apply Nat.Div0.div_lt_upper_bound.
    destruct (ceil_div_spec (List.length images) cols ltac:(lia)) as [Hup _].
    nia. }
  assert (Hhalf : (cw - w) / 2 + w <= cw).
  { pose proof (Nat.Div0.div_le_upper_bound (cw - w) 2 (cw - w)). nia. }
  repeat split; try assumption; try lia.
Qed.

Lemma compose_pastes images names cols g :
  compose_batch_grid images names cols = inr g ->
  pastes g = paste_all cols (list_max (map fst images))
                       (list_max (map snd images) + label_h) 0
                       (combine images names).
Proof.
  unfold compose_batch_grid.
  destruct images as [|im ims] eqn:Ei; [discriminate|]. rewrite <- Ei.
  destruct (cols =? 0); [discriminate|]. now intros [= <-].
Qed.

(* ------------------------------------------------------------------ *)
(** ** Facts about the report of unindexed tiles *)

Lemma pos_eqb_eq a b : pos_eqb a b = true <-> a = b.
Proof.
  destruct a as [a1 a2], b as [b1 b2]. unfold pos_eqb. simpl.
  rewrite andb_true_iff, !Nat.eqb_eq. split.
  - intros [-> ->]. reflexivity.
  - intros [= -> ->]. auto.
Qed.

Lemma pos_mem_In p s : pos_mem p s = true <-> In p s.
Proof.
  unfold pos_mem. rewrite existsb_exists. split.
  - intros (q & Hq & E). apply pos_eqb_eq in E. now subst.
  - intros H. exists p. split; [exact H|now apply pos_eqb_eq].
Qed.

Lemma fold_pos_add_spec l : forall acc,
  NoDup acc ->
  NoDup (fold_left pos_add l acc) /\
  forall p, In p (fold_left pos_add l acc) <-> In p acc \/ In p l.
Proof.
  induction l as [|x l IH]; intros acc Hnd; simpl.
  - split; [exact Hnd|]. intros p. tauto.
  - assert (Hnd' : NoDup (pos_add acc x)).
    { unfold pos_add. destruct (pos_mem x acc) eqn:E; [exact Hnd|].
      apply NoDup_app; [exact Hnd|repeat constructor; simpl; tauto|].
      intros a Ha [<-|[]].
      apply pos_mem_In in Ha. congruence. }
    destruct (IH _ Hnd') as [H1 H2]. split; [exact H1|].
    intros p. rewrite H2. unfold pos_add.
    destruct (pos_mem x acc) eqn:E.
    + apply pos_mem_In in E. split; [tauto|].
      intros [H|[<-|H]]; auto.
    + rewrite in_app_iff. simpl. tauto.
Qed.

Lemma covered_positions_In sprites p :
  In p (covered_positions sprites) <-> exists s, In s sprites /\ covers s p.
Proof.
  unfold covered_positions, covers. rewrite in_flat_map. split.
  - intros (s & Hs & H). exists s. split; [exact Hs|].
    apply in_flat_map in H. destruct H as (dr & Hdr & H).
    apply in_map_iff in H. destruct H as (dc & <- & Hdc).
    apply in_seq in Hdr. apply in_seq in Hdc. simpl. lia.
  - intros (s & Hs & [Hr Hc]). exists s. split; [exact Hs|].
    apply in_flat_map. exists (fst p - p_row s). split; [apply in_seq; lia|].
    apply in_map_iff. exists (snd p - p_col s). split; [|apply in_seq; lia].
    destruct p as [r c]. simpl in *. f_equal; lia.
Qed.

(** The set of indexed positions holds each covered position once. *)
Lemma indexed_positions_spec sprites :
  NoDup (indexed_positions sprites) /\
  forall p, In p (indexed_positions sprites) <->
            exists s, In s sprites /\ covers s p.
Proof.
  destruct (fold_pos_add_spec (covered_positions sprites) [] (NoDup_nil _))
    as [H1 H2].
  split; [exact H1|]. intros p. unfold indexed_positions.
  rewrite H2, <- covered_positions_In. simpl. tauto.
Qed.

Lemma StronglySorted_flat_map {A B : Type} (R1 : A -> A -> Prop)
      (R2 : B -> B -> Prop) (f : A -> list B) (l : list A) :
  StronglySorted R1 l ->
  (forall a, In a l -> StronglySorted R2 (f a)) ->
  (forall a a' x y, R1 a a' -> In x (f a) -> In y (f a') -> R2 x y) ->
  StronglySorted R2 (flat_map f l).
Proof.
  intros Hs Hin Hcross. induction Hs as [|a l Hs IH Hall]; simpl; [constructor|].
  apply StronglySorted_app.
  - apply Hin. now left.
  - apply IH. intros; apply Hin. now right.
  - intros x y Hx Hy. apply in_flat_map in Hy. destruct Hy as (a' & Ha' & Hy).
    rewrite Forall_forall in Hall. eapply Hcross; eauto.
Qed.

Lemma seq_strongly_sorted len : forall start,
  StronglySorted lt (seq start len).
Proof.
  induction len as [|len IH]; intros start; simpl; constructor.
  - apply IH.
  - apply Forall_forall. intros x Hx. apply in_seq in Hx. lia.
Qed.

Section ScanFacts.

Variable visible : nat -> nat -> bool.
Variable indexed : list pos.
Variable total_rows total_cols : nat.

Lemma scan_tiles_In p :
  In p (scan_tiles visible indexed total_rows total_cols) <->
  fst p < total_rows /\ snd p < total_cols /\
  visible (fst p) (snd p) = true /\ ~ In p indexed.
Proof.
  unfold scan_tiles. rewrite in_flat_map. split.
  - intros (row & Hrow & H). apply in_flat_map in H.
    destruct H as (col & Hcol & H).
    apply in_seq in Hrow. apply in_seq in Hcol.
    destruct (pos_mem (row, col) indexed) eqn:E; [contradiction|].
    destruct (visible row col) eqn:V; [|contradiction].
    destruct H as [<-|[]]. simpl. repeat split; try lia; try assumption.
    intros Hin. apply pos_mem_In in Hin. congruence.
  - intros (Hr & Hc & V & Hn). destruct p as [row col]. simpl in *.
    exists row. split; [apply in_seq; lia|].
    apply in_flat_map. exists col. split; [apply in_seq; lia|].
    destruct (pos_mem (row, col) indexed) eqn:E.
    + apply pos_mem_In in E. contradiction.
    + rewrite V. now left.
Qed.

Lemma scan_tiles_sorted :
  StronglySorted pos_lt (scan_tiles visible indexed total_rows total_cols).
Proof.
  unfold scan_tiles.
  apply (StronglySorted_flat_map lt); [apply seq_strongly_sorted| |].
  - intros row _.
    apply (StronglySorted_flat_map lt); [apply seq_strongly_sorted| |].
    + intros col _. destruct (pos_mem _ _); [constructor|].
      destruct (visible row col); repeat constructor.
    + intros c c' x y Hlt Hx Hy.
      destruct (pos_mem (row, c) indexed); [contradiction|].
      destruct (visible row c); [|contradiction].
      destruct (pos_mem (row, c') indexed); [contradiction|].
      destruct (visible row c'); [|contradiction].
      destruct Hx as [<-|[]], Hy as [<-|[]]. right. simpl. auto.
  - intros r r' x y Hlt Hx Hy.
    apply in_flat_map in Hx. destruct Hx as (c & _ & Hx).
    apply in_flat_map in Hy. destruct Hy as (c' & _ & Hy).
    destruct (pos_mem (r, c) indexed); [contradiction|].
    destruct (visible r c); [|contradiction].
    destruct (pos_mem (r', c') indexed); [contradiction|].
    destruct (visible r' c'); [|contradiction].
    destruct Hx as [<-|[]], Hy as [<-|[]]. left. simpl. auto.
Qed.

Lemma scan_tiles_length :
  List.length (scan_tiles visible indexed total_rows total_cols)
  <= total_rows * total_cols.
Proof.
  unfold scan_tiles.
  assert (Hrow : forall row n start,
             List.length
               (flat_map (fun col =>
                            if pos_mem (row, col) indexed then []
                            else if visible row col then [(row, col)]
                            else []) (seq start n)) <= n).
  { intros row. induction n as [|n IH]; intros start; simpl; [lia|].
    rewrite length_app. specialize (IH (S start)).
    destruct (pos_mem _ _); simpl; [lia|].
    destruct (visible row start); simpl; lia. }
  assert (Hall : forall n start,
             List.length
               (flat_map (fun row =>
                  flat_map (fun col =>
                              if pos_mem (row, col) indexed then []
                              else if visible row col then [(row, col)]
                              else []) (seq 0 total_cols)) (seq start n))
             <= n * total_cols).
  { induction n as [|n IH]; intros start; simpl; [lia|].
    rewrite length_app. specialize (IH (S start)).
    specialize (Hrow start total_cols 0). lia. }
  apply Hall.
Qed.

End ScanFacts.
(* ------------------------------------------------------------------ *)
(** ** What the checks keep, in both modes *)

Section CheckFrame.

Variable E : list string.

Lemma check_frame_refl st : check_frame E st st.
Proof.
  split; [reflexivity|]. split; [lia|]. split; [reflexivity|].
  intros k info H. now exists info.
Qed.

Lemma check_frame_trans st1 st2 st3 :
  check_frame E st1 st2 -> check_frame E st2 st3 -> check_frame E st1 st3.
Proof.
  intros (K1 & L1 & Z1 & F1) (K2 & L2 & Z2 & F2).
  split; [congruence|]. split; [lia|]. split.
  - intros H. rewrite Z2 by lia. apply Z1. lia.
  - intros k info H. destruct (F1 k info H) as (i1 & G1 & T1 & U1).
    destruct (F2 k i1 G1) as (i2 & G2 & T2 & U2).
    exists i2. split; [exact G2|]. split; [congruence|].
    intros Hn. rewrite U2, U1 by exact Hn. reflexivity.
Qed.

Lemma check_frame_issue category key st :
  check_frame E st (add_issue category key st).
Proof. exact (check_frame_refl st). Qed.

Lemma check_frame_update key (f : sprite_info -> sprite_info) st issues :
  In key E -> (forall info, tile_type (f info) = tile_type info) ->
  check_frame E st (mkCheck (Dict.update key f (c_sprites st)) issues
                            (S (c_fixes st))).
Proof.
  intros Hin Hf. cbn [check_frame c_sprites c_fixes]. unfold check_frame.
  cbn [c_sprites c_fixes].
  split; [apply keys_update|]. split; [lia|]. split; [lia|].
  intros k info H. rewrite get_update, H.
  destruct (String.eqb key k) eqn:Ek.
  - apply String.eqb_eq in Ek. subst k. exists (f info).
    split; [reflexivity|]. split; [apply Hf|]. intros Hn. contradiction.
  - now exists info.
Qed.

Lemma check_frame_fix_tags key ts st :
  In key E -> check_frame E st (fix_tags key ts st).
Proof. intros H. now apply check_frame_update. Qed.

Lemma check_frame_fix_description key d st :
  In key E -> check_frame E st (fix_description key d st).
Proof. intros H. now apply check_frame_update. Qed.

Lemma foldM_check_frame (f : check_state -> string -> result check_state) :
  forall keys,
  (forall st key st', In key keys -> f st key = Ok st' ->
                      check_frame E st st') ->
  forall st st', foldM f keys st = Ok st' -> check_frame E st st'.
Proof.
  induction keys as [|key keys IH]; intros Hf st st'; simpl.
  - intros [= <-]. apply check_frame_refl.
  - destruct (f st key) as [st1|e] eqn:E1; simpl; [|discriminate].
    intros H. apply (check_frame_trans st st1 st').
    + apply (Hf st key st1); [now left|exact E1].
    + apply IH; [|exact H]. intros s k s' Hk. apply Hf. now right.
Qed.

Lemma fold_left_check_frame {A : Type} (f : check_state -> A -> check_state) :
  (forall st x, check_frame E st (f st x)) ->
  forall l st, check_frame E st (fold_left f l st).
Proof.
  intros Hf. induction l as [|x l IH]; intros st; simpl.
  - apply check_frame_refl.
  - eapply check_frame_trans; [apply Hf|apply IH].
Qed.

(** Solves the goal of a rule that ends in [Ok] of the state itself, of
    the state with one more issue, or of the state with one fix. *)
Ltac frame_cases :=
  repeat match goal with
         | |- Ok _ = Ok _ -> _ =>
             intros [= <-];
             auto using check_frame_refl, check_frame_issue,
                        check_frame_fix_tags, check_frame_fix_description
         | |- Raise _ = Ok _ -> _ => discriminate
         | |- bind ?m _ = Ok _ -> _ => destruct m eqn:?; simpl
         | |- (match ?x with _ => _ end) = Ok _ -> _ => destruct x eqn:?
         | |- (if ?c then _ else _) = Ok _ -> _ => destruct c eqn:?
         end.

Variable fix_mode : bool.

Lemma rule_tile_type_frame st key st' : In key E ->
  rule_tile_type fix_mode st key = Ok st' -> check_frame E st st'.
Proof. intros Hin. unfold rule_tile_type, with_sprite. frame_cases. Qed.

Lemma rule_tag_spelling_frame st key st' : In key E ->
  rule_tag_spelling fix_mode st key = Ok st' -> check_frame E st st'.
Proof. intros Hin. unfold rule_tag_spelling, with_sprite. frame_cases. Qed.

Lemma rule_description_spelling_frame st key st' : In key E ->
  rule_description_spelling fix_mode st key = Ok st' -> check_frame E st st'.
Proof.
  intros Hin. unfold rule_description_spelling, with_sprite. frame_cases.
Qed.

Lemma rule_strip_for_frame kind set category st key st' : In key E ->
  rule_strip_for fix_mode kind set category st key = Ok st' ->
  check_frame E st st'.
Proof. intros Hin. unfold rule_strip_for, with_sprite. frame_cases. Qed.

Lemma rule_altar_alignment_frame st key st' : In key E ->
  rule_altar_alignment fix_mode st key = Ok st' -> check_frame E st st'.
Proof. intros Hin. unfold rule_altar_alignment, with_sprite. frame_cases. Qed.

Lemma dir_step_frame key st entry : In key E ->
  check_frame E st (dir_step fix_mode key st entry).
Proof.
  intros Hin. unfold dir_step.
  repeat match goal with
         | |- check_frame _ _ (match ?x with _ => _ end) => destruct x eqn:?
         | |- check_frame _ _ (if ?c then _ else _) => destruct c eqn:?
         end;
    auto using check_frame_refl, check_frame_issue, check_frame_fix_tags.
Qed.

Lemma rule_directory_frame st key st' : In key E ->
  rule_directory fix_mode st key = Ok st' -> check_frame E st st'.
Proof.
  intros Hin. unfold rule_directory.
  generalize (fold_left_check_frame (dir_step fix_mode key)
                (fun s x => dir_step_frame key s x Hin) DIR_EXPECTED_TAGS st).
  generalize (fold_left (dir_step fix_mode key) DIR_EXPECTED_TAGS st).
  intros r Hr [= <-]. exact Hr.
Qed.

Lemma check_dcss_frame enriched st st' : incl enriched E ->
  check_dcss fix_mode enriched st = Ok st' -> check_frame E st st'.
Proof.
  intros Hi. unfold check_dcss.
  destruct (foldM _ enriched st) as [st1|] eqn:E1; simpl; [|discriminate].
  destruct (foldM _ enriched st1) as [st2|] eqn:E2; simpl; [|discriminate].
  destruct (foldM _ enriched st2) as [st3|] eqn:E3; simpl; [|discriminate].
  intros E4.
  apply foldM_check_frame in E1;
    [|intros s k s' Hk; apply rule_strip_for_frame; now apply Hi].
  apply foldM_check_frame in E2;
    [|intros s k s' Hk; apply rule_strip_for_frame; now apply Hi].
  apply foldM_check_frame in E3;
    [|intros s k s' Hk; apply rule_altar_alignment_frame; now apply Hi].
  apply foldM_check_frame in E4;
    [|intros s k s' Hk; apply rule_directory_frame; now apply Hi].
  eauto using check_frame_trans.
Qed.

Lemma report_tag_count_frame st key st' :
  report_tag_count st key = Ok st' -> check_frame E st st'.
Proof. unfold report_tag_count, with_sprite. frame_cases. Qed.

Lemma report_description_length_frame st key st' :
  report_description_length st key = Ok st' -> check_frame E st st'.
Proof. unfold report_description_length, with_sprite. frame_cases. Qed.

Lemma report_duplicates_frame enriched st :
  check_frame E st (report_duplicates enriched st).
Proof.
  unfold report_duplicates. apply fold_left_check_frame.
  intros acc dk. destruct (_ && _);
    auto using check_frame_refl, check_frame_issue.
Qed.

End CheckFrame.

Lemma run_checks_frame a fix_mode sprites st :
  run_checks a fix_mode sprites = Ok st ->
  check_frame (enriched_keys sprites) (mkCheck sprites [] 0) st.
Proof.
  unfold run_checks.
  set (enriched := enriched_keys sprites).
  destruct (foldM _ enriched (mkCheck sprites [] 0)) as [st1|] eqn:E1;
    simpl; [|discriminate].
  destruct (foldM _ enriched st1) as [st2|] eqn:E2; simpl; [|discriminate].
  destruct (foldM _ enriched st2) as [st3|] eqn:E3; simpl; [|discriminate].
  destruct (if has_check_extra a then _ else _) as [st4|] eqn:E4;
    simpl; [|discriminate].
  destruct (foldM _ enriched st4) as [st5|] eqn:E5; simpl; [|discriminate].
  destruct (foldM _ enriched st5) as [st6|] eqn:E6; simpl; [|discriminate].
  intros [= <-].
  apply (foldM_check_frame enriched) in E1;
    [|intros s k s' Hk; now apply rule_tile_type_frame].
  apply (foldM_check_frame enriched) in E2;
    [|intros s k s' Hk; now apply rule_tag_spelling_frame].
  apply (foldM_check_frame enriched) in E3;
    [|intros s k s' Hk; now apply rule_description_spelling_frame].
  assert (F4 : check_frame enriched st3 st4).
  { destruct (has_check_extra a).
    - apply (check_dcss_frame enriched fix_mode enriched st3 st4);
        [apply incl_refl|exact E4].
    - injection E4 as <-. apply check_frame_refl. }
  apply (foldM_check_frame enriched) in E5;
    [|intros s k s' Hk; now apply report_tag_count_frame].
  apply (foldM_check_frame enriched) in E6;
    [|intros s k s' Hk; now apply report_description_length_frame].
  pose proof (report_duplicates_frame enriched enriched st6) as F7.
  eauto 10 using check_frame_trans.
Qed.

(* ------------------------------------------------------------------ *)
(** ** The tags of an altar *)

Lemma py_eq_str (t : string) (y : json) :
  py_eq (JStr t) y = true <-> y = JStr t.
Proof.
  destruct y; simpl; try (split; [discriminate|discriminate]).
  rewrite String.eqb_eq. split; [now intros ->|now intros [= ->]].
Qed.

Lemma py_in_str (t : string) (l : list json) :
  py_in (JStr t) l = true <-> In (JStr t) l.
Proof.
  unfold py_in. rewrite existsb_exists. split.
  - intros [y [Hy He]]. apply py_eq_str in He. now subst.
  - intros H. exists (JStr t). split; [exact H|]. now apply py_eq_str.
Qed.

Lemma In_remove_first (t : string) (x : json) (l : list json) :
  In x (remove_first (JStr t) l) -> In x l.
Proof.
  induction l as [|y l IH]; cbn [remove_first In]; [tauto|].
  destruct (py_eq (JStr t) y); cbn [In]; [now right|].
  intros [H|H]; [now left|right; now apply IH].
Qed.

Lemma In_remove_first_other (t : string) (x : json) (l : list json) :
  x <> JStr t -> In x l -> In x (remove_first (JStr t) l).
Proof.
  intros Hx. induction l as [|y l IH]; cbn [remove_first In]; [tauto|].
  destruct (py_eq (JStr t) y) eqn:E; cbn [In].
  - apply py_eq_str in E. subst y. intros [H|H]; [congruence|exact H].
  - intros [H|H]; [now left|right; now apply IH].
Qed.

Lemma NoDup_remove_first (t : string) (l : list json) :
  NoDup l ->
  NoDup (remove_first (JStr t) l) /\ ~ In (JStr t) (remove_first (JStr t) l).
Proof.
  induction l as [|y l IH]; cbn [remove_first In]; intros Hnd.
  - split; [constructor|tauto].
  - inversion Hnd as [|? ? Hni Hnd']; subst.
    destruct (py_eq (JStr t) y) eqn:E.
    + apply py_eq_str in E. subst y. now split.
    + destruct (IH Hnd') as [H1 H2]. split.
      * constructor; [|exact H1]. intros H. apply Hni.
        now apply (In_remove_first t).
      * cbn [In]. intros [H|H]; [|contradiction]. subst y.
        assert (py_eq (JStr t) (JStr t) = true) by now apply py_eq_str.
        congruence.
Qed.

Lemma apply_tag_fix_add (l : list json) (t : string) :
  apply_tag_fix l (AddTag, t)
  = if py_in (JStr t) l then l else l ++ [JStr t].
Proof. reflexivity. Qed.

Lemma apply_tag_fix_remove (l : list json) (t : string) :
  apply_tag_fix l (RemoveTag, t)
  = if py_in (JStr t) l then remove_first (JStr t) l else l.
Proof. reflexivity. Qed.

Lemma py_in_bool (t : string) (l l' : list json) :
  (In (JStr t) l' <-> In (JStr t) l) ->
  py_in (JStr t) l' = py_in (JStr t) l.
Proof.
  intros H. destruct (py_in (JStr t) l) eqn:E.
  - apply py_in_str. apply H. now apply py_in_str.
  - destruct (py_in (JStr t) l') eqn:E'; [|reflexivity].
    apply py_in_str, H, py_in_str in E'. congruence.
Qed.

Lemma py_in_add_same (l : list json) (t : string) :
  py_in (JStr t) (apply_tag_fix l (AddTag, t)) = true.
Proof.
  rewrite apply_tag_fix_add. destruct (py_in (JStr t) l) eqn:E; [exact E|].
  apply py_in_str, in_or_app. right. now left.
Qed.

Lemma py_in_add_other (l : list json) (t u : string) : u <> t ->
  py_in (JStr u) (apply_tag_fix l (AddTag, t)) = py_in (JStr u) l.
Proof.
  intros Hne. rewrite apply_tag_fix_add.
  destruct (py_in (JStr t) l); [reflexivity|].
  apply py_in_bool. rewrite in_app_iff. simpl. split; [|tauto].
  intros [H|[H|[]]]; [exact H|congruence].
Qed.

Lemma py_in_remove_same (l : list json) (t : string) : NoDup l ->
  py_in (JStr t) (apply_tag_fix l (RemoveTag, t)) = false.
Proof.
  intros Hnd. rewrite apply_tag_fix_remove.
  destruct (py_in (JStr t) l) eqn:E; [|exact E].
  destruct (py_in (JStr t) (remove_first (JStr t) l)) eqn:E'; [|reflexivity].
  apply py_in_str in E'. now destruct (NoDup_remove_first t l Hnd).
Qed.

Lemma py_in_remove_other (l : list json) (t u : string) : u <> t ->
  py_in (JStr u) (apply_tag_fix l (RemoveTag, t)) = py_in (JStr u) l.
Proof.
  intros Hne. rewrite apply_tag_fix_remove.
  destruct (py_in (JStr t) l); [|reflexivity].
  apply py_in_bool. split; [apply In_remove_first|].
  apply In_remove_first_other. congruence.
Qed.

Lemma NoDup_apply_tag_fix (l : list json) (f : tag_action * string) :
  NoDup l -> NoDup (apply_tag_fix l f).
Proof.
  intros Hnd. destruct f as [[|] t].
  - rewrite apply_tag_fix_add. destruct (py_in (JStr t) l) eqn:E; [exact Hnd|].
    apply NoDup_snoc; [exact Hnd|]. intros H. apply py_in_str in H. congruence.
  - rewrite apply_tag_fix_remove. destruct (py_in (JStr t) l); [|exact Hnd].
    now destruct (NoDup_remove_first t l Hnd).
Qed.

Lemma In_apply_add (l : list json) (t : string) (x : json) :
  In x l -> In x (apply_tag_fix l (AddTag, t)).
Proof.
  intros H. rewrite apply_tag_fix_add. destruct (py_in (JStr t) l);
    [exact H|apply in_or_app; now left].
Qed.

Lemma In_apply_remove (l : list json) (t : string) (x : json) :
  x <> JStr t -> In x l -> In x (apply_tag_fix l (RemoveTag, t)).
Proof.
  intros Hx H. rewrite apply_tag_fix_remove. destruct (py_in (JStr t) l);
    [now apply In_remove_first_other|exact H].
Qed.


(* ------------------------------------------------------------------ *)
(** ** The batch planner *)

(** C1.  For a catalog with distinct keys and a batch size [B >= 1], with
    no limit, the batches are consecutive slices of the ordered key list;
    the keys in them are exactly the keys of the sprites that are not
    enriched, each in one batch only and once; they come ordered by group
    prefix and, within a group, by key; there are [ceil(N / B)] batches
    for [N] unenriched sprites, each of at most [B] keys; and no key of
    an enriched sprite is in any batch. *)
Theorem batch_planner_selects_orders_slices (sprites : catalog) (B : nat) :
  NoDup (Dict.keys sprites) -> 1 <= B ->
  let batches := plan_batches sprites B 0 in
  let N := List.length
             (filter (fun kv => negb (is_enriched (snd kv))) sprites) in
  List.concat batches = ordered_keys sprites
  /\ (forall k, In k (List.concat batches) <->
                exists info, In (k, info) sprites /\ is_enriched info = false)
  /\ NoDup (List.concat batches)
  /\ (forall k i j, In k (nth i batches []) -> In k (nth j batches []) -> i = j)
  /\ StronglySorted key_order (List.concat batches)
  /\ List.length batches = ceil_div N B
  /\ Forall (fun batch => List.length batch <= B) batches
  /\ (forall k info, In (k, info) sprites -> is_enriched info = true ->
                     forall batch, In batch batches -> ~ In k batch).
Proof.
  intros Hnd HB batches N.
  assert (Hc : List.concat batches = ordered_keys sprites).
  { unfold batches, plan_batches, apply_limit. simpl.
    now apply batch_slices_concat. }
  assert (Hin : forall k, In k (List.concat batches) <->
                  exists info, In (k, info) sprites /\ is_enriched info = false).
  { intros k. rewrite Hc, <- todo_In. split; intros H.
    - eapply Permutation_in; [apply ordered_keys_perm|exact H].
    - eapply Permutation_in; [apply Permutation_sym, ordered_keys_perm|exact H]. }
  assert (Hnd' : NoDup (List.concat batches)).
  { rewrite Hc. eapply Permutation_NoDup;
      [apply Permutation_sym, ordered_keys_perm|now apply todo_nodup]. }
  repeat split.
  - exact Hc.
  - apply Hin.
  - apply Hin.
  - exact Hnd'.
  - intros k. now apply NoDup_concat_unique.
  - rewrite Hc. apply ordered_sorted_keys.
  - unfold batches, plan_batches, apply_limit. simpl.
    rewrite batch_slices_count by exact HB.
    unfold N. now rewrite ordered_keys_length.
  - now apply batch_slices_bound.
  - intros k info Hk He batch Hb Hkb.
    assert (Hk' : In k (List.concat batches)).
    { apply in_concat. now exists batch. }
    apply Hin in Hk'. destruct Hk' as (info' & Hk' & He').
    assert (info = info') by (eapply catalog_key_unique; eauto).
    congruence.
Qed.

Lemma batch_planner_selects_orders_slices_witness :
  NoDup (Dict.keys planner_demo) /\ 1 <= 2 /\
  plan_batches planner_demo 2 0 =
    [ ["logo.png"; "item/ring/gold.png"];
      ["monster/undead/ghoul.png"; "monster/undead/zombie.png"] ] /\
  List.length (plan_batches planner_demo 2 0) = ceil_div 4 2.
Proof.
  assert (Hnd : NoDup (Dict.keys planner_demo)).
  { repeat constructor; simpl; intuition discriminate. }
  split; [exact Hnd|]. split; [lia|]. split; [reflexivity|].
  exact (proj1 (proj2 (proj2 (proj2 (proj2 (proj2
    (batch_planner_selects_orders_slices planner_demo 2 Hnd (le_S _ _ (le_n 1))))))))).
Defined.

(** C9 does not hold: the slices are cut from the whole ordered list, so
    a batch can hold the last keys of one group and the first of the
    next, and the batches differ from those of a group-by-group slicing. *)

Lemma batches_cross_group_boundaries :
  plan_batches straddle_catalog 2 0 = [ ["a/1.png"; "b/1.png"]; ["b/2.png"] ]
  /\ plan_by_group straddle_catalog 2 = [ ["a/1.png"]; ["b/1.png"; "b/2.png"] ]
  /\ ~ respects_groups (plan_batches straddle_catalog 2 0).
Proof.
  split; [reflexivity|]. split; [reflexivity|].
  intros H.
  specialize (H ["a/1.png"; "b/1.png"] "a/1.png" "b/1.png").
  simpl in H. discriminate H; auto.
Qed.

(** C9, amended.  For [B >= 1] and no limit, batch [i] is the slice
    [ordered_keys[i*B : i*B + B]] of the whole ordered key list, group
    boundaries playing no part: every batch but the last has exactly [B]
    keys, and the last has between [1] and [B]. *)
Theorem batches_slice_whole_order (sprites : catalog) (B : nat) :
  1 <= B ->
  let batches := plan_batches sprites B 0 in
  forall i, i < List.length batches ->
    nth i batches [] = firstn B (skipn (i * B) (ordered_keys sprites))
    /\ (S i < List.length batches -> List.length (nth i batches []) = B)
    /\ 1 <= List.length (nth i batches []) <= B.
Proof.
  intros HB batches i Hi.
  unfold batches, plan_batches, apply_limit in *. simpl in *.
  set (keys := ordered_keys sprites) in *.
  rewrite batch_slices_nth by assumption.
  rewrite batch_slices_count in * by assumption.
  rewrite length_firstn, length_skipn.
  destruct (ceil_div_spec (List.length keys) B HB) as [Hup Hlow].
  assert (0 < List.length keys).
  { destruct (List.length keys); [|lia].
    rewrite ceil_div_zero in Hi by assumption. lia. }
  specialize (Hlow ltac:(assumption)).
  split; [reflexivity|]. split.
  - intros Hs. apply Nat.min_l. nia.
  - nia.
Qed.

Lemma batches_slice_whole_order_witness :
  1 <= 2 /\ 0 < List.length (plan_batches straddle_catalog 2 0) /\
  nth 0 (plan_batches straddle_catalog 2 0) [] =
    firstn 2 (skipn (0 * 2) (ordered_keys straddle_catalog)).
Proof.
  split; [lia|]. split; [simpl; lia|].
  apply (batches_slice_whole_order straddle_catalog 2); simpl; lia.
Defined.

(* ------------------------------------------------------------------ *)
(** ** The merge step *)

(** C5.  The merge is by position in the list of keys sent to the oracle
    ([valid_keys]): key [i] is merged with element [i] of the array when
    there is one and it is a dictionary, and keeps its sprite otherwise,
    so the keys past the length of a short array are left as they were
    (unenriched if they were); elements beyond the number of keys change
    nothing; no other sprite is touched and no key is added or lost. *)
Theorem merge_by_position (valid_keys : list string) (enrichments : list json)
        (sprites : catalog) :
  NoDup valid_keys ->
  let sprites' := fst (merge_enrichments valid_keys enrichments sprites 0) in
  (forall i key, nth_error valid_keys i = Some key ->
     Dict.get key sprites' =
     match nth_error enrichments i with
     | Some (JObj members) =>
         option_map (merge_entry members) (Dict.get key sprites)
     | _ => Dict.get key sprites
     end)
  /\ (forall i key, nth_error valid_keys i = Some key ->
        List.length enrichments <= i ->
        Dict.get key sprites' = Dict.get key sprites)
  /\ merge_enrichments valid_keys enrichments sprites 0 =
     merge_enrichments valid_keys
       (firstn (List.length valid_keys) enrichments) sprites 0
  /\ (forall key, ~ In key valid_keys ->
        Dict.get key sprites' = Dict.get key sprites)
  /\ Dict.keys sprites' = Dict.keys sprites.
Proof.
  intros Hnd sprites'. unfold sprites'. repeat split.
  - intros i key Hi. now apply merge_positional.
  - intros i key Hi Hlen. rewrite (merge_positional _ Hnd _ _ _ _ _ Hi).
    apply nth_error_None in Hlen. now rewrite Hlen.
  - apply merge_excess.
  - intros key Hk. now apply merge_frame.
  - apply merge_keys.
Qed.

Lemma merge_by_position_witness :
  NoDup (Dict.keys five_bare) /\
  map (fun kv => is_enriched (snd kv))
      (fst (merge_enrichments (Dict.keys five_bare) three_entries five_bare 0))
  = [true; true; true; false; false] /\
  Dict.keys (fst (merge_enrichments (Dict.keys five_bare) three_entries
                    five_bare 0)) = Dict.keys five_bare.
Proof.
  assert (Hnd : NoDup (Dict.keys five_bare)).
  { repeat constructor; simpl; intuition discriminate. }
  split; [exact Hnd|]. split; [reflexivity|].
  exact (proj2 (proj2 (proj2 (proj2
    (merge_by_position _ three_entries five_bare Hnd))))).
Defined.

(** C4 at a failing input: the oracle repeats the tile type in the tags
    it returns.  The three fields are taken from the entry, the strip
    removes the first ["door"] only, and the sprite ends with its tile
    type among its own tags. *)
Theorem merge_keeps_repeated_tile_type :
  let entry := [ ("description", JStr "A wooden door");
                 ("tags", JArr (str_tags ["door"; "wood"; "door"]));
                 ("tile_type", JStr "door") ] in
  let info := merge_entry entry bare_sprite in
  description info = Some (JStr "A wooden door")
  /\ tile_type info = Some (JStr "door")
  /\ tags info = Some (str_tags ["wood"; "door"])
  /\ py_in (get_or_none (tile_type info)) (tags_or_empty (tags info)) = true.
Proof. repeat split. Qed.

(* ------------------------------------------------------------------ *)
(** ** Failed batches *)




(* ------------------------------------------------------------------ *)
(** ** Extraction of the answer *)




(* ------------------------------------------------------------------ *)
(** ** Saving the catalog *)

(** C2 does not hold, whatever the encoder: a save that fails just after
    opening the file leaves it empty, which is neither the old catalog
    nor the new one. *)
Lemma save_index_is_not_atomic : ~ (exists json_dump, save_is_atomic json_dump).
Proof.
  intros [json_dump H].
  specialize (H [] "{}" 1).
  rewrite interrupted_content in H. simpl in H.
  destruct H as [H|H]; [discriminate|].
  injection H as H. unfold encoded in H.
  destruct (String.concat EmptyString (json_dump [])); discriminate.
Qed.

(** C2, amended.  [save_index] writes the file in place: a save that
    completes leaves the encoded catalog and a line feed, whatever the
    file held; a save that fails before the open leaves the file as it
    was; a save that fails later leaves a beginning of the new text, the
    old catalog being lost from the open on. *)
Theorem save_index_overwrites_in_place (json_dump : catalog -> list string)
        (data : catalog) (old : option string) :
  save_index json_dump data old = Some (encoded json_dump data)
  /\ save_index_interrupted json_dump 0 data old = old
  /\ (forall n, exists written,
        save_index_interrupted json_dump (S n) data old = Some written /\
        String.prefix written (encoded json_dump data) = true).
Proof.
  assert (Hpre : forall n,
            String.prefix (glue (firstn n (json_dump data ++ [newline])))
                          (encoded json_dump data) = true).
  { intros n. rewrite encoded_glue.
    rewrite <- (firstn_skipn n (json_dump data ++ [newline])) at 2.
    rewrite glue_app. apply prefix_append. }
  repeat split.
  - unfold save_index.
    rewrite <- (firstn_all (save_index_ops json_dump data)).
    fold (save_index_interrupted json_dump
            (List.length (save_index_ops json_dump data)) data old).
    rewrite save_index_ops_writes at 1. simpl List.length.
    rewrite interrupted_content, encoded_glue. f_equal. f_equal.
    apply firstn_all2.
    rewrite (length_app (map WriteText _)), length_map. lia.
  - intros n. eexists. split; [apply interrupted_content|apply Hpre].
Qed.

(* ------------------------------------------------------------------ *)
(** ** The consistency engine *)

(** C7.  In report mode [check_atlas] touches no file, and the checks,
    when they end, hand back the sprites they loaded with no fix
    counted.  In fix mode on an existing file the first file operation
    is the backup of the file as it was, before anything is loaded or
    changed; at most one save follows; a save happens only after all
    the checks have run without an exception, writes the sprites they
    end with, and only when they counted a fix; and when they did count
    one, the save happens. *)
Theorem check_atlas_effects (a : atlas) (file : option catalog) :
  fst (check_atlas a false file) = []
  /\ (forall st, snd (check_atlas a false file) = Ok (Some st) ->
        file = Some (c_sprites st) /\ c_fixes st = 0)
  /\ (forall data, file = Some data ->
        exists saves,
          fst (check_atlas a true file) = BackupTaken data :: saves
          /\ List.length saves <= 1
          /\ (forall event, In event saves ->
                exists st,
                  run_checks a true data = Ok st /\ 0 < c_fixes st /\
                  event = IndexSaved (c_sprites st))
          /\ (forall st, snd (check_atlas a true file) = Ok (Some st) ->
                run_checks a true data = Ok st /\
                saves = if 0 <? c_fixes st
                        then [IndexSaved (c_sprites st)] else []))
  /\ (file = None -> fst (check_atlas a true file) = []).
Proof.
  repeat split.
  - destruct file as [data|]; simpl; [|reflexivity].
    destruct (enriched_keys data); [reflexivity|].
    now destruct (run_checks a false data).
  - destruct file as [data|]; simpl in *; [|discriminate].
    destruct (enriched_keys data); [discriminate|].
    destruct (run_checks a false data) as [st'|] eqn:E; [|discriminate].
    simpl in H. injection H as ->.
    apply run_checks_report in E. f_equal. symmetry. apply E.
  - destruct file as [data|]; simpl in *; [|discriminate].
    destruct (enriched_keys data); [discriminate|].
    destruct (run_checks a false data) as [st'|] eqn:E; [|discriminate].
    simpl in H. injection H as ->.
    now apply run_checks_report in E.
  - intros data ->. simpl.
    destruct (enriched_keys data).
    { exists []. simpl. repeat split; try lia; try tauto; discriminate. }
    destruct (run_checks a true data) as [st|e] eqn:E.
    + exists (if 0 <? c_fixes st then [IndexSaved (c_sprites st)] else []).
      simpl. repeat split.
      * destruct (0 <? c_fixes st); simpl; lia.
      * intros event Hin. exists st.
        destruct (0 <? c_fixes st) eqn:F; [|contradiction].
        apply Nat.ltb_lt in F. destruct Hin as [<-|[]]. auto.
      * injection H as <-. reflexivity.
      * injection H as <-. reflexivity.
    + exists []. simpl. repeat split; try lia; try tauto; discriminate.
  - intros ->. reflexivity.
Qed.

(** C6 at a failing input, on an atlas without extra checks: a sprite of
    tile type ["armour"] tagged ["armor"].  The first fix run finds no
    tile type among the tags, then respells the tag, which puts the tile
    type there; the second run, on what the first saved, removes it:
    one fix, not zero. *)

Theorem second_fix_run_still_fixes :
  check_atlas Kenney true (Some armour_catalog)
    = ([BackupTaken armour_catalog; IndexSaved armour_respelled],
       Ok (Some (mkCheck armour_respelled [] 1)))
  /\ check_atlas Kenney true (Some armour_respelled)
     = ([BackupTaken armour_respelled; IndexSaved armour_stripped],
        Ok (Some (mkCheck armour_stripped
                          [("FEW_TAGS", "item/armour/plate.png")] 1)))
  /\ c_fixes (mkCheck armour_stripped
                      [("FEW_TAGS", "item/armour/plate.png")] 1) <> 0.
Proof.
  split; [vm_compute; reflexivity|].
  split; [vm_compute; reflexivity|].
  discriminate.
Qed.

(** The same with the checks of [check_dcss]: a player sprite of tile
    type ["creature"].  One loop strips ["player"] from the tags of a
    creature and a later one adds it back for the directory, in every
    run: two fixes each time, and the tags the run started from. *)

Lemma dcss_fix_runs_never_settle :
  exists st,
    run_checks Utumno true player_catalog = Ok st
    /\ c_sprites st = player_catalog
    /\ c_fixes st = 2.
Proof. eexists. split; [vm_compute; reflexivity|]. split; reflexivity. Qed.

(* ------------------------------------------------------------------ *)
(** ** The fix loop of the verify pass *)

(** C10 at a failing input.  A sprite without a ["tags"] member, as the
    merge step leaves a bare sprite when the oracle gives it no tags,
    is among those the verify pass reviews.  A fix that names it and
    carries nothing else changes none of its fields; the comparison of
    the absent tags with the empty list of [old] reports a change all
    the same, the fix is counted and its log line written, and writing
    the new value raises [KeyError]. *)

Theorem verify_counts_a_fix_that_changes_nothing :
  let key := "dungeon/walls/stone.png" in
  let sprites := [(key, untagged_sprite)] in
  merge_entry [ ("description", JStr "A grey stone wall");
                ("tags", JArr []); ("tile_type", JStr "wall") ] bare_sprite
    = untagged_sprite
  /\ verifiable untagged_sprite = true
  /\ apply_fix_fields [("index", JInt 1)] untagged_sprite = untagged_sprite
  /\ apply_fixes [key] [JObj [("index", JInt 1)]] (mkVerify sprites 0 [])
     = (mkVerify sprites 1 [LogFix key], Some KeyError).
Proof. repeat split. Qed.

(* ------------------------------------------------------------------ *)
(** ** Further properties of the enrichment run *)

(** X1.  A limit of [L >= 1] batches keeps the first [L] batches of the
    plan without limit, and nothing else. *)
Theorem limit_keeps_first_batches (sprites : catalog) (B L : nat) :
  1 <= B -> 1 <= L ->
  plan_batches sprites B L = firstn L (plan_batches sprites B 0)
  /\ List.length (plan_batches sprites B L) <= L.
Proof.
  intros HB HL.
  assert (E : plan_batches sprites B L = firstn L (plan_batches sprites B 0)).
  { unfold plan_batches, apply_limit. simpl.
    destruct (L =? 0) eqn:E0; [apply Nat.eqb_eq in E0; lia|].
    now apply batch_slices_firstn. }
  split; [exact E|]. rewrite E. apply firstn_le_length.
Qed.

Lemma limit_keeps_first_batches_witness :
  1 <= 2 /\ 1 <= 1 /\
  plan_batches planner_demo 2 1 = [ ["logo.png"; "item/ring/gold.png"] ] /\
  List.length (plan_batches planner_demo 2 1) <= 1.
Proof.
  split; [lia|]. split; [lia|]. split; [reflexivity|].
  apply (limit_keeps_first_batches planner_demo 2 1); lia.
Defined.

(** X2.  On a catalog whose sprites are all enriched the run plans no
    batch, calls the oracle not once and saves nothing: the catalog in
    memory and the file stay as loaded. *)
Theorem nothing_to_do_when_all_enriched
        (json_loads : string -> option json) (has_image : string -> bool)
        (oracle : nat -> run_outcome)
        (raw_image : string -> list (list pixel))
        (save_fault : nat -> catalog -> option (nat * exn))
        (json_dump : catalog -> list string)
        (sprites : catalog) (output : option string)
        (B limit : nat) (dry_run : bool) :
  (forall k info, In (k, info) sprites -> is_enriched info = true) ->
  process_atlas json_loads has_image oracle raw_image save_fault json_dump
                sprites output B limit dry_run
    = (mkRun sprites [] 0 output, None)
  /\ plan_batches sprites B limit = [].
Proof.
  intros H. apply todo_all_enriched in H. split.
  - unfold process_atlas. now rewrite H.
  - now apply plan_batches_nothing_todo.
Qed.

Lemma nothing_to_do_when_all_enriched_witness :
  (forall k info, In (k, info) armour_catalog -> is_enriched info = true) /\
  process_atlas JsonText.loads (fun _ => true) flaky_oracle plain_image
                sound_disk keys_dump armour_catalog None 12 0 false
    = (mkRun armour_catalog [] 0 None, None).
Proof.
  assert (H : forall k info, In (k, info) armour_catalog ->
                             is_enriched info = true).
  { intros k info [[= <- <-]|[]]. reflexivity. }
  split; [exact H|].
  exact (proj1 (nothing_to_do_when_all_enriched JsonText.loads (fun _ => true)
                  flaky_oracle plain_image sound_disk keys_dump
                  armour_catalog None 12 0 false H)).
Defined.

(** X3.  However a run ends, by its last batch or by an exception, the
    catalog in memory and every catalog it saved have the keys of the
    loaded catalog, in the same order.  The output file is then whole
    (it holds the catalog in memory as the last save wrote it, or is
    as the run found it when nothing was merged) or, when the run ended
    by an exception raised inside [save_index], torn: it holds what
    that save had written of the catalog in memory.  It is whole
    whenever the run ends without an exception, and whenever no save
    raises. *)
Theorem run_keeps_keys_and_checkpoint
        (json_loads : string -> option json) (has_image : string -> bool)
        (oracle : nat -> run_outcome)
        (raw_image : string -> list (list pixel))
        (save_fault : nat -> catalog -> option (nat * exn))
        (json_dump : catalog -> list string)
        (sprites : catalog) (output : option string)
        (B limit : nat) (dry_run : bool) :
  let run :=
    process_atlas json_loads has_image oracle raw_image save_fault json_dump
                  sprites output B limit dry_run in
  Dict.keys (st_sprites (fst run)) = Dict.keys sprites
  /\ Forall (fun saved => Dict.keys saved = Dict.keys sprites)
            (st_saved (fst run))
  /\ (file_whole json_dump sprites output (fst run)
      \/ file_torn save_fault json_dump output (fst run) (snd run))
  /\ (snd run = None -> file_whole json_dump sprites output (fst run))
  /\ ((forall n data, save_fault n data = None) ->
      file_whole json_dump sprites output (fst run)).
Proof.
  intros run.
  assert (H0 : run_inv (Dict.keys sprites) (mkRun sprites [] 0 output)).
  { split; [reflexivity|constructor]. }
  assert (W0 : file_whole json_dump sprites output (mkRun sprites [] 0 output)).
  { now split. }
  assert (Hk : run_inv (Dict.keys sprites) (fst run)).
  { unfold run, process_atlas.
    destruct (todo sprites); [exact H0|].
    destruct dry_run; [exact H0|].
    now apply process_batches_inv. }
  assert (Hf : file_whole json_dump sprites output (fst run)
               \/ file_torn save_fault json_dump output (fst run) (snd run)).
  { unfold run, process_atlas.
    destruct (todo sprites); [now left|].
    destruct dry_run; [now left|].
    now apply process_batches_file. }
  destruct Hk as [Hk1 Hk2].
  split; [exact Hk1|]. split; [exact Hk2|]. split; [exact Hf|]. split.
  - intros Hn. destruct Hf as [Hw|(n & e & Ho & _)]; [exact Hw|congruence].
  - intros Hno. destruct Hf as [Hw|(n & e & _ & Hs & _)]; [exact Hw|].
    rewrite Hno in Hs. discriminate.
Qed.

(** X4.  A run makes at most three oracle calls for each planned batch
    and saves the catalog at most once for each. *)
Theorem run_call_and_save_bounds
        (json_loads : string -> option json) (has_image : string -> bool)
        (oracle : nat -> run_outcome)
        (raw_image : string -> list (list pixel))
        (save_fault : nat -> catalog -> option (nat * exn))
        (json_dump : catalog -> list string)
        (sprites : catalog) (output : option string)
        (B limit : nat) (dry_run : bool) :
  let fin :=
    fst (process_atlas json_loads has_image oracle raw_image save_fault
                       json_dump sprites output B limit dry_run) in
  st_calls fin <= 3 * List.length (plan_batches sprites B limit)
  /\ List.length (st_saved fin) <= List.length (plan_batches sprites B limit).
Proof.
  unfold process_atlas.
  destruct (todo sprites); [simpl; lia|].
  destruct dry_run; [simpl; lia|].
  apply (process_batches_counts json_loads has_image oracle raw_image
           save_fault json_dump
           (plan_batches sprites B limit) (mkRun sprites [] 0 output)).
Qed.

(** X5.  A run never touches a sprite that was enriched when it was
    loaded: at the end it is the same in memory and in every saved
    catalog. *)
Theorem run_leaves_enriched_sprites
        (json_loads : string -> option json) (has_image : string -> bool)
        (oracle : nat -> run_outcome)
        (raw_image : string -> list (list pixel))
        (save_fault : nat -> catalog -> option (nat * exn))
        (json_dump : catalog -> list string)
        (sprites : catalog) (output : option string)
        (B limit : nat) (dry_run : bool) (k : string) (info : sprite_info) :
  NoDup (Dict.keys sprites) -> 1 <= B ->
  In (k, info) sprites -> is_enriched info = true ->
  let fin :=
    fst (process_atlas json_loads has_image oracle raw_image save_fault
                       json_dump sprites output B limit dry_run) in
  Dict.get k (st_sprites fin) = Some info
  /\ Forall (fun saved => Dict.get k saved = Some info) (st_saved fin).
Proof.
  intros Hnd HB Hin He.
  assert (Hget : Dict.get k sprites = Some info) by now apply In_get_Some.
  assert (H0 : key_kept k (Some info) (mkRun sprites [] 0 output))
    by (split; [exact Hget|constructor]).
  unfold process_atlas.
  destruct (todo sprites) eqn:Et; [exact H0|].
  destruct dry_run; [exact H0|].
  apply process_batches_frame; [|exact H0].
  intros batch Hb Hk.
  pose proof (plan_batches_todo sprites B limit k batch HB Hb Hk) as Htodo.
  apply todo_In in Htodo. destruct Htodo as (info' & Hin' & He').
  assert (info = info') by (eapply catalog_key_unique; eauto).
  congruence.
Qed.

Lemma run_leaves_enriched_sprites_witness :
  NoDup (Dict.keys planner_demo) /\ 1 <= 2 /\
  Dict.get "dungeon/doors/open.png"
    (st_sprites (fst (process_atlas JsonText.loads (fun _ => true)
                        flaky_oracle plain_image sound_disk keys_dump
                        planner_demo None 2 0 false)))
  = Some (tagged_sprite "An open wooden door" ["wood"; "exterior"] "door").
Proof.
  assert (Hnd : NoDup (Dict.keys planner_demo)).
  { repeat constructor; simpl; intuition discriminate. }
  split; [exact Hnd|]. split; [lia|].
  refine (proj1 (run_leaves_enriched_sprites JsonText.loads (fun _ => true)
                   flaky_oracle plain_image sound_disk keys_dump
                   planner_demo None 2 0 false
                   "dungeon/doors/open.png"
                   (tagged_sprite "An open wooden door" ["wood"; "exterior"]
                                  "door")
                   Hnd (le_S _ _ (le_n 1)) _ eq_refl)).
  simpl. auto.
Defined.

(** X6.  When the array has an entry for every key sent and each entry
    is complete (a description, a tile type, and a non-empty list of
    tags that does not hold the tile type), every sprite of the batch
    is enriched after the merge. *)
Theorem complete_answer_enriches_batch (valid_keys : list string)
        (enrichments : list json) (sprites : catalog) :
  NoDup valid_keys ->
  (forall key, In key valid_keys -> In key (Dict.keys sprites)) ->
  List.length valid_keys <= List.length enrichments ->
  Forall (fun e => complete_entry e = true)
         (firstn (List.length valid_keys) enrichments) ->
  forall key, In key valid_keys ->
    exists info,
      Dict.get key (fst (merge_enrichments valid_keys enrichments sprites 0))
        = Some info
      /\ is_enriched info = true.
Proof. apply merge_complete_enriches. Qed.

Lemma complete_answer_enriches_batch_witness :
  NoDup ["a/1.png"; "a/2.png"; "a/3.png"] /\
  exists info,
    Dict.get "a/2.png"
      (fst (merge_enrichments ["a/1.png"; "a/2.png"; "a/3.png"] three_entries
              five_bare 0)) = Some info
    /\ is_enriched info = true.
Proof.
  assert (Hnd : NoDup ["a/1.png"; "a/2.png"; "a/3.png"]).
  { repeat constructor; simpl; intuition discriminate. }
  split; [exact Hnd|].
  apply (complete_answer_enriches_batch ["a/1.png"; "a/2.png"; "a/3.png"]
           three_entries five_bare Hnd).
  - simpl. intuition.
  - simpl. lia.
  - repeat constructor.
  - simpl. auto.
Defined.

(** X7.  With an image for every key, few enough colours in every
    batch for its text, saves that do not raise, and an oracle whose
    call for each batch of the plan answers at once with a complete
    entry for each of its keys, a run without limit ends without
    exception with every sprite enriched; the output file is whole and
    holds the catalog in memory; and a next run finds nothing to
    plan. *)
Theorem reliable_oracle_enriches_catalog
        (json_loads : string -> option json) (has_image : string -> bool)
        (oracle : nat -> run_outcome)
        (raw_image : string -> list (list pixel))
        (save_fault : nat -> catalog -> option (nat * exn))
        (json_dump : catalog -> list string)
        (sprites : catalog) (output : option string) (B : nat) :
  NoDup (Dict.keys sprites) -> 1 <= B ->
  (forall k, has_image k = true) ->
  (forall n data, save_fault n data = None) ->
  Forall (within_palette raw_image) (plan_batches sprites B 0) ->
  reliable_oracle json_loads oracle (plan_batches sprites B 0) ->
  exists fin,
    process_atlas json_loads has_image oracle raw_image save_fault json_dump
                  sprites output B 0 false = (fin, None)
    /\ all_enriched (st_sprites fin)
    /\ file_whole json_dump sprites output fin
    /\ (forall B', plan_batches (st_sprites fin) B' 0 = []).
Proof.
  intros Hnd HB Himg Hno Hpal Hrel.
  rewrite process_atlas_is_loop.
  destruct (process_batches_reliable json_loads has_image oracle raw_image
              save_fault json_dump Himg Hno
              (plan_batches sprites B 0) (mkRun sprites [] 0 output))
    as (fin & E & He & Hf & Hk).
  { now apply plan_batches_nodup. }
  { unfold plan_batches. now apply batch_slices_nonempty. }
  { exact Hpal. }
  { intros k Hk. rewrite plan_batches_concat in Hk by exact HB. simpl in Hk.
    apply (Permutation_in _ (ordered_keys_perm sprites)) in Hk.
    apply todo_In in Hk. destruct Hk as (info & Hin & _).
    apply in_map_iff. now exists (k, info). }
  { intros i batch Hi. apply Hrel. exact Hi. }
  simpl in Hf, Hk.
  assert (Hall : all_enriched (st_sprites fin)).
  { intros k info Hin.
    assert (Hg : Dict.get k (st_sprites fin) = Some info).
    { apply In_get_Some; [now rewrite Hk|exact Hin]. }
    destruct (in_dec string_dec k (List.concat (plan_batches sprites B 0)))
      as [Hplanned|Hnot].
    - destruct (He k Hplanned) as (info' & Hg' & Hi). congruence.
    - rewrite (Hf k Hnot) in Hg.
      destruct (is_enriched info) eqn:Ei; [reflexivity|].
      exfalso. apply Hnot. eapply unenriched_is_planned; eauto. }
  assert (Hfile : file_whole json_dump sprites output fin).
  { pose proof (process_batches_file json_loads has_image oracle raw_image
                  save_fault json_dump sprites output
                  (plan_batches sprites B 0) (mkRun sprites [] 0 output))
      as Hw.
    rewrite E in Hw. cbn [fst snd] in Hw.
    destruct Hw as [Hw|(n & e & Ho & _)];
      [now split|exact Hw|discriminate]. }
  exists fin. split; [exact E|]. split; [exact Hall|].
  split; [exact Hfile|].
  intros B'. apply plan_batches_nothing_todo. now apply todo_all_enriched.
Qed.

Lemma reliable_oracle_enriches_catalog_witness :
  NoDup (Dict.keys straddle_catalog) /\ 1 <= 2 /\
  Forall (within_palette plain_image) (plan_batches straddle_catalog 2 0) /\
  reliable_oracle JsonText.loads steady_oracle
                  (plan_batches straddle_catalog 2 0) /\
  exists fin,
    process_atlas JsonText.loads (fun _ => true) steady_oracle plain_image
                  sound_disk keys_dump straddle_catalog None 2 0 false
      = (fin, None)
    /\ all_enriched (st_sprites fin)
    /\ (forall B', plan_batches (st_sprites fin) B' 0 = []).
Proof.
  assert (Hnd : NoDup (Dict.keys straddle_catalog)).
  { repeat constructor; simpl; intuition discriminate. }
  assert (Hpal : Forall (within_palette plain_image)
                        (plan_batches straddle_catalog 2 0)).
  { apply Forall_forall. intros batch _.
    exists (colors_of_image 128 flag_image). split.
    - unfold colors_of_batch.
      induction batch as [|k ks IH]; [intros y []|].
      cbn [map flat_map]. apply incl_app; [apply incl_refl|exact IH].
    - vm_compute. lia. }
  assert (Hrel : reliable_oracle JsonText.loads steady_oracle
                                 (plan_batches straddle_catalog 2 0)).
  { intros i batch Hi. eexists. exists steady_answer.
    split; [reflexivity|]. split; [vm_compute; reflexivity|].
    destruct i as [|[|i]]; cbn in Hi.
    - injection Hi as <-. split; [simpl; lia|]. repeat constructor.
    - injection Hi as <-. split; [simpl; lia|]. repeat constructor.
    - destruct i; discriminate. }
  split; [exact Hnd|]. split; [lia|]. split; [exact Hpal|].
  split; [exact Hrel|].
  destruct (reliable_oracle_enriches_catalog JsonText.loads (fun _ => true)
              steady_oracle plain_image sound_disk keys_dump
              straddle_catalog None 2 Hnd (le_S _ _ (le_n 1))
              (fun _ => eq_refl) (fun _ _ => eq_refl) Hpal Hrel)
    as (fin & E & Hall & _ & Hplan).
  exists fin. split; [exact E|]. split; [exact Hall|exact Hplan].
Defined.

(* ------------------------------------------------------------------ *)
(** ** Further properties of the verify pass *)

(** X8.  For a catalog with distinct keys and a batch size [B >= 1], with
    no limit, the batches of the verify pass are consecutive slices of
    the sorted list of the keys whose sprite has a description and a
    tile type, each such key once; every enriched sprite is among them;
    there are [ceil(M / B)] batches for [M] such sprites, of at most [B]
    keys each. *)
Theorem verify_batches_cover_sorted (sprites : catalog) (B : nat) :
  NoDup (Dict.keys sprites) -> 1 <= B ->
  let batches := verify_batches sprites B 0 in
  List.concat batches = verify_keys sprites
  /\ StronglySorted str_le (List.concat batches)
  /\ NoDup (List.concat batches)
  /\ (forall k, In k (List.concat batches) <->
                exists info, In (k, info) sprites /\ verifiable info = true)
  /\ (forall k info, In (k, info) sprites -> is_enriched info = true ->
                     In k (List.concat batches))
  /\ List.length batches
     = ceil_div (List.length
                   (filter (fun kv => verifiable (snd kv)) sprites)) B
  /\ Forall (fun batch => List.length batch <= B) batches.
Proof.
  intros Hnd HB batches.
  assert (Hc : List.concat batches = verify_keys sprites).
  { unfold batches, verify_batches, apply_limit. simpl.
    now apply batch_slices_concat. }
  rewrite Hc. repeat split.
  - apply sorted_strongly.
  - eapply Permutation_NoDup;
      [apply Permutation_sym, verify_keys_perm|now apply NoDup_map_filter].
  - apply verify_keys_In.
  - apply verify_keys_In.
  - intros k info Hin He. apply verify_keys_In. exists info.
    split; [exact Hin|now apply is_enriched_verifiable].
  - unfold batches, verify_batches, apply_limit. simpl.
    rewrite batch_slices_count by exact HB.
    now rewrite (Permutation_length (verify_keys_perm sprites)), length_map.
  - now apply batch_slices_bound.
Qed.

Lemma verify_batches_cover_sorted_witness :
  NoDup (Dict.keys planner_demo) /\ 1 <= 36 /\
  verify_batches planner_demo 36 0 = [ ["dungeon/doors/open.png"] ] /\
  List.concat (verify_batches planner_demo 36 0) = verify_keys planner_demo.
Proof.
  assert (Hnd : NoDup (Dict.keys planner_demo)).
  { repeat constructor; simpl; intuition discriminate. }
  split; [exact Hnd|]. split; [lia|]. split; [reflexivity|].
  refine (proj1 (verify_batches_cover_sorted planner_demo 36 Hnd _)). lia.
Defined.

(** X9.  The fix loop of the verify pass, however it ends, neither adds
    nor drops a key, and a sprite that had a description and a tile
    type still has both: a fix can replace them but never empties
    them. *)
Theorem verify_fixes_keep_sprites_reviewable (valid_keys : list string)
        (fixes : list json) (st : verify_state) :
  let st' := fst (apply_fixes valid_keys fixes st) in
  Dict.keys (v_sprites st') = Dict.keys (v_sprites st)
  /\ (forall k info,
        Dict.get k (v_sprites st) = Some info -> verifiable info = true ->
        exists info', Dict.get k (v_sprites st') = Some info'
                      /\ verifiable info' = true).
Proof.
  split; [apply apply_fixes_keys|apply apply_fixes_stays_verifiable].
Qed.

(* ------------------------------------------------------------------ *)
(** ** The batch grid *)

(** X10.  For a non-empty list of images and one column at least,
    [compose_batch_grid] returns a grid; it pastes as many images as
    there are image-name pairs; every pasted image lies inside the grid
    with the room for its label below it; and no two pasted images
    overlap. *)
Theorem batch_grid_keeps_images_apart (images : list (nat * nat))
        (names : list string) (cols : nat) :
  images <> [] -> 1 <= cols ->
  exists g,
    compose_batch_grid images names cols = inr g
    /\ List.length (pastes g)
       = Nat.min (List.length images) (List.length names)
    /\ (forall i p, nth_error (pastes g) i = Some p ->
          at_x p + img_w p <= grid_w g /\
          at_y p + img_h p + label_h <= grid_h g)
    /\ (forall i j p q, i <> j ->
          nth_error (pastes g) i = Some p ->
          nth_error (pastes g) j = Some q -> apart p q).
Proof.
  intros Hne Hc.
  destruct (compose_batch_grid images names cols) as [e|g] eqn:E.
  { exfalso. unfold compose_batch_grid in E.
    destruct images; [now apply Hne|].
    destruct (cols =? 0) eqn:E0; [apply Nat.eqb_eq in E0; lia|discriminate]. }
  exists g. split; [reflexivity|]. split; [|split].
  - rewrite (compose_pastes images names cols g E).
    now rewrite length_paste_all, length_combine.
  - intros i p Hp.
    destruct (paste_in_cell images names cols g i p E Hp)
      as (Hw & Hh & Hr & Hcol & Hx0 & Hx1 & Hy0 & Hy1).
    rewrite Hw, Hh. split; nia.
  - intros i j p q Hij Hp Hq.
    destruct (paste_in_cell images names cols g i p E Hp)
      as (_ & _ & _ & Hci & Hpx0 & Hpx1 & Hpy0 & Hpy1).
    destruct (paste_in_cell images names cols g j q E Hq)
      as (_ & _ & _ & Hcj & Hqx0 & Hqx1 & Hqy0 & Hqy1).
    unfold apart.
    pose proof (Nat.div_mod_eq i cols) as Di.
    pose proof (Nat.div_mod_eq j cols) as Dj.
    destruct (Nat.lt_trichotomy (i mod cols) (j mod cols)) as [Hlt|[Heq|Hgt]].
    + left. nia.
    + destruct (Nat.lt_trichotomy (i / cols) (j / cols)) as [Hl|[He|Hg]].
      * right. right. left. unfold label_h in *. nia.
      * exfalso. apply Hij. nia.
      * right. right. right. unfold label_h in *. nia.
    + right. left. nia.
Qed.

Lemma batch_grid_keeps_images_apart_witness :
  [(256, 256); (256, 512); (128, 256)] <> [] /\ 1 <= 2 /\
  exists g,
    compose_batch_grid [(256, 256); (256, 512); (128, 256)]
                       ["a"; "b"; "c"] 2 = inr g
    /\ List.length (pastes g) = Nat.min 3 3.
Proof.
  split; [discriminate|]. split; [lia|].
  destruct (batch_grid_keeps_images_apart
              [(256, 256); (256, 512); (128, 256)] ["a"; "b"; "c"] 2)
    as (g & E & Hl & _); [discriminate|lia|].
  exists g. split; [exact E|exact Hl].
Defined.

(* ------------------------------------------------------------------ *)
(** ** The report of unindexed tiles *)

(** X11.  With a tile size of one pixel at least in each direction,
    [report_unindexed] lists exactly the tiles of the atlas that show a
    pixel and that no sprite of the index covers, each once, row by row
    and from left to right; it counts each covered position once,
    however many sprites cover it; and its counts are those of its
    lists.  With a tile size of zero it raises. *)
Theorem unindexed_report_is_exact (atlas_width atlas_height tw th : nat)
        (visible : nat -> nat -> bool) (sprites : list placement) :
  1 <= tw -> 1 <= th ->
  exists r,
    report_unindexed atlas_width atlas_height tw th visible sprites = Some r
    /\ (forall p, In p (tiles r) <->
                  fst p < atlas_height / th /\ snd p < atlas_width / tw /\
                  visible (fst p) (snd p) = true /\
                  ~ exists s, In s sprites /\ covers s p)
    /\ StronglySorted pos_lt (tiles r)
    /\ unindexed_nonempty_tiles r = List.length (tiles r)
    /\ unindexed_nonempty_tiles r <= total_atlas_tiles r
    /\ total_atlas_tiles r = (atlas_height / th) * (atlas_width / tw)
    /\ exists indexed,
         NoDup indexed
         /\ (forall p, In p indexed <-> exists s, In s sprites /\ covers s p)
         /\ indexed_tile_positions r = List.length indexed.
Proof.
  intros Htw Hth. unfold report_unindexed.
  destruct (tw =? 0) eqn:E1; [apply Nat.eqb_eq in E1; lia|].
  destruct (th =? 0) eqn:E2; [apply Nat.eqb_eq in E2; lia|].
  simpl. eexists. split; [reflexivity|]. simpl.
  destruct (indexed_positions_spec sprites) as [Hnd Hin].
  split; [|split; [|split; [|split; [|split]]]].
  - intros p. rewrite scan_tiles_In, Hin. tauto.
  - apply scan_tiles_sorted.
  - reflexivity.
  - apply scan_tiles_length.
  - reflexivity.
  - exists (indexed_positions sprites). auto.
Qed.

Lemma unindexed_report_is_exact_witness :
  1 <= 32 /\ 1 <= 32 /\
  report_unindexed 96 64 32 32 small_visible small_index
    = Some (mkReport 6 2 3 [(0, 2); (1, 0); (1, 1)]) /\
  exists r,
    report_unindexed 96 64 32 32 small_visible small_index = Some r
    /\ StronglySorted pos_lt (tiles r).
Proof.
  split; [lia|]. split; [lia|]. split; [reflexivity|].
  destruct (unindexed_report_is_exact 96 64 32 32 small_visible small_index)
    as (r & E & _ & Hs & _); [lia|lia|].
  exists r. split; [exact E|exact Hs].
Defined.

(* ------------------------------------------------------------------ *)
(** ** Sprites as text *)

(** X12.  An image with at most 712 colours among its pixels that are
    not transparent converts, and its grid reads back against its
    palette: the cell of a transparent pixel is the dot, the cell of any
    other pixel is an alias under which the palette has the colour of
    that pixel, and the dot is no alias of the palette. *)
Theorem image_grid_reads_back (image : list (list pixel)) (thr : N)
        (cs : list string) :
  incl (colors_of_image thr image) cs -> List.length cs <= 712 ->
  exists grid palette,
    image_to_grid_and_palette image thr [] = Some (grid, palette) /\
    Forall2 (Forall2 (decodes thr palette)) image grid /\
    Dict.get transparent_cell palette = None.
Proof.
  intros Hcs Hlen. destruct empty_in_sequence as [Hs Hu].
  destruct (image_total image thr [] cs Hs Hu Hcs Hlen) as [grid [pal E]].
  exists grid, pal. split; [exact E|].
  destruct (image_spec image thr [] grid pal Hs Hu E)
    as [ext [-> [Hs' [_ [Hc _]]]]].
  cbn [app] in *. destruct (in_sequence_aliases ext Hs') as [Hnd Hin].
  split.
  - eapply Forall2_impl; [|exact Hc]. intros row cells.
    apply Forall2_impl. intros p c. unfold cell_of, decodes.
    destruct (opaque thr p); [|tauto].
    intros H. apply dict_get_NoDup.
    + now rewrite map_fst_flipped.
    + change (c, hex_color p) with (flipped (hex_color p, c)).
      now apply in_map.
  - apply dict_get_None. rewrite map_fst_flipped. intros H.
    apply Hin, alias_shape in H. now destruct H.
Qed.

Lemma image_grid_reads_back_witness :
  incl (colors_of_image 128 flag_image) (colors_of_image 128 flag_image) /\
  List.length (colors_of_image 128 flag_image) <= 712 /\
  image_to_grid_and_palette flag_image 128 []
    = Some ([["A"; "B"]; ["."; "A"]], [("A", "#FF0000"); ("B", "#00FF00")]) /\
  exists grid palette,
    image_to_grid_and_palette flag_image 128 [] = Some (grid, palette) /\
    Dict.get transparent_cell palette = None.
Proof.
  split; [apply incl_refl|]. split; [vm_compute; lia|].
  split; [reflexivity|].
  destruct (image_grid_reads_back flag_image 128
              (colors_of_image 128 flag_image))
    as (g & pal & E & _ & Hd); [apply incl_refl|vm_compute; lia|].
  exists g, pal. split; [exact E|exact Hd].
Defined.

(** X13.  A batch of images with at most 712 colours in all converts
    under one colour map: every cell of every grid is the dot for a
    transparent pixel and otherwise an alias the final map gives to the
    colour of the pixel, also for the images converted before a colour
    was added.  The colours of the map are those of the pixels that are
    not transparent, each once, in the order in which they first appear
    (image after image, row after row, from the left), and the colour
    that appears [i]-th has the [i]-th alias of the sequence: the map
    is the two lists paired off. *)
Theorem batch_shares_one_palette (images : list (list (list pixel)))
        (thr : N) (cs : list string) :
  incl (colors_of_batch thr images) cs -> List.length cs <= 712 ->
  exists grids color_map,
    batch_grids images thr [] = Some (grids, color_map) /\
    Forall2 (Forall2 (Forall2 (cell_of thr color_map))) images grids /\
    NoDup (map fst color_map) /\
    map fst color_map = first_seen [] (colors_of_batch thr images) /\
    map snd color_map = firstn (List.length color_map) alias_sequence /\
    color_map
    = combine (first_seen [] (colors_of_batch thr images)) alias_sequence.
Proof.
  intros Hcs Hlen. destruct empty_in_sequence as [Hs Hu].
  destruct (batch_total thr images cs [] Hs Hu Hcs Hlen) as [grids [fin E]].
  exists grids, fin. split; [exact E|].
  destruct (batch_spec thr images [] grids fin Hs Hu E)
    as [ext [_ [[Hnd Hseq] [Hc _]]]].
  pose proof (batch_keys thr images [] grids fin Hs Hu E) as Hkeys.
  cbn [map app] in Hkeys.
  split; [exact Hc|]. split; [exact Hnd|]. split; [exact Hkeys|].
  split; [exact Hseq|].
  rewrite <- (combine_fst_snd fin) at 1.
  rewrite Hseq, <- (length_map fst fin), combine_firstn_length.
  now rewrite Hkeys.
Qed.

Lemma batch_shares_one_palette_witness :
  incl (colors_of_batch 128 [flag_image; leaf_image])
       (colors_of_batch 128 [flag_image; leaf_image]) /\
  List.length (colors_of_batch 128 [flag_image; leaf_image]) <= 712 /\
  first_seen [] (colors_of_batch 128 [flag_image; leaf_image])
    = ["#FF0000"; "#00FF00"; "#0A0BFC"] /\
  batch_grids [flag_image; leaf_image] 128 []
    = Some ([[["A"; "B"]; ["."; "A"]]; [["B"; "C"]]],
            [("#FF0000", "A"); ("#00FF00", "B"); ("#0A0BFC", "C")]) /\
  exists grids color_map,
    batch_grids [flag_image; leaf_image] 128 [] = Some (grids, color_map) /\
    color_map
    = combine (first_seen [] (colors_of_batch 128 [flag_image; leaf_image]))
              alias_sequence.
Proof.
  split; [apply incl_refl|]. split; [vm_compute; lia|].
  split; [reflexivity|]. split; [reflexivity|].
  destruct (batch_shares_one_palette [flag_image; leaf_image] 128
              (colors_of_batch 128 [flag_image; leaf_image]))
    as (g & cm & E & _ & _ & _ & _ & Hc); [apply incl_refl|vm_compute; lia|].
  exists g, cm. split; [exact E|exact Hc].
Defined.

(** X14.  A batch whose pixels that are not transparent have more than
    712 colours does not convert: the alias generator is at its end
    when the 713th colour asks for an alias, and [next] raises
    [StopIteration]. *)
Theorem too_many_colors_stop_batch (images : list (list (list pixel)))
        (thr : N) (l : list string) :
  NoDup l -> incl l (colors_of_batch thr images) -> 712 < List.length l ->
  batch_grids images thr [] = None.
Proof.
  intros Hnd Hin Hlen.
  destruct (batch_grids images thr []) as [[grids fin]|] eqn:E; [|reflexivity].
  exfalso. destruct empty_in_sequence as [Hs Hu].
  destruct (batch_spec thr images [] grids fin Hs Hu E)
    as [ext [_ [Hseq [Hc _]]]].
  apply batch_colors_covered in Hc.
  assert (Hl : List.length l <= List.length (map fst fin)).
  { apply NoDup_incl_length; [exact Hnd|].
    intros k Hk. now apply Hc, Hin. }
  rewrite length_map in Hl. apply in_sequence_length in Hseq. lia.
Qed.

Lemma too_many_colors_stop_batch_witness :
  NoDup (colors_of_batch 128 [rainbow_image]) /\
  incl (colors_of_batch 128 [rainbow_image])
       (colors_of_batch 128 [rainbow_image]) /\
  712 < List.length (colors_of_batch 128 [rainbow_image]) /\
  batch_grids [rainbow_image] 128 [] = None.
Proof.
  assert (Hnd : NoDup (colors_of_batch 128 [rainbow_image])).
  { assert (H : nodup string_dec (colors_of_batch 128 [rainbow_image])
                = colors_of_batch 128 [rainbow_image])
      by (vm_compute; reflexivity).
    rewrite <- H. apply NoDup_nodup. }
  assert (Hlen : 712 < List.length (colors_of_batch 128 [rainbow_image])).
  { vm_compute. lia. }
  split; [exact Hnd|]. split; [apply incl_refl|]. split; [exact Hlen|].
  apply (too_many_colors_stop_batch [rainbow_image] 128
           (colors_of_batch 128 [rainbow_image]) Hnd);
    [apply incl_refl|exact Hlen].
Defined.

(** X15.  Every cell of a converted batch fills exactly two characters
    once padded, so that the columns of the text grids line up. *)
Theorem batch_cells_pad_to_two (images : list (list (list pixel)))
        (thr : N) (grids : list (list (list string)))
        (color_map : list (string * string)) :
  batch_grids images thr [] = Some (grids, color_map) ->
  Forall (Forall (Forall (fun cell => String.length (pad_cell cell) = 2)))
         grids.
Proof.
  intros E. destruct empty_in_sequence as [Hs Hu].
  destruct (batch_spec thr images [] grids color_map Hs Hu E)
    as [ext [_ [Hseq [Hc _]]]].
  destruct (in_sequence_aliases color_map Hseq) as [_ Hin].
  eapply Forall2_right; [|exact Hc]. intros img grid.
  apply Forall2_right. intros row cells. apply Forall2_right.
  intros p c. unfold cell_of. destruct (opaque thr p).
  - intros H. apply pad_cell_two.
    assert (Ha : In c alias_sequence).
    { apply Hin. change c with (snd (hex_color p, c)). now apply in_map. }
    now destruct (alias_shape c Ha).
  - intros ->. reflexivity.
Qed.

Lemma batch_cells_pad_to_two_witness :
  batch_grids [flag_image; leaf_image] 128 []
    = Some ([[["A"; "B"]; ["."; "A"]]; [["B"; "C"]]],
            [("#FF0000", "A"); ("#00FF00", "B"); ("#0A0BFC", "C")]) /\
  Forall (Forall (Forall (fun cell => String.length (pad_cell cell) = 2)))
         [[["A"; "B"]; ["."; "A"]]; [["B"; "C"]]].
Proof.
  split; [reflexivity|].
  apply (batch_cells_pad_to_two [flag_image; leaf_image] 128 _
           [("#FF0000", "A"); ("#00FF00", "B"); ("#0A0BFC", "C")]).
  reflexivity.
Defined.

(* ------------------------------------------------------------------ *)
(** ** What the consistency checks keep *)

(** X16.  In either mode and for any atlas, checks that end leave the
    catalog with the keys it had, in their order; they never change a
    tile type; they leave whole every sprite that is not enriched; and
    when they count no fix the catalog is the one that was loaded, so
    that a fix run that saves nothing has nothing to save. *)
Theorem checks_touch_only_enriched_sprites (a : atlas) (fix_mode : bool)
        (sprites : catalog) (st : check_state) :
  NoDup (Dict.keys sprites) ->
  run_checks a fix_mode sprites = Ok st ->
  Dict.keys (c_sprites st) = Dict.keys sprites
  /\ (c_fixes st = 0 -> c_sprites st = sprites)
  /\ forall k info, In (k, info) sprites ->
       exists info', Dict.get k (c_sprites st) = Some info'
                     /\ tile_type info' = tile_type info
                     /\ (is_enriched info = false -> info' = info).
Proof.
  intros Hnd Hrun.
  destruct (run_checks_frame a fix_mode sprites st Hrun) as (K & _ & Z & F).
  cbn [c_sprites c_fixes] in *.
  split; [exact K|]. split; [exact Z|].
  intros k info Hin.
  destruct (F k info (dict_get_NoDup k info sprites Hnd Hin))
    as (info' & G & T & U).
  exists info'. split; [exact G|]. split; [exact T|].
  intros Hne. apply U. unfold enriched_keys. intros Hk.
  apply in_map_iff in Hk. destruct Hk as [[k2 i2] [Ek Hf]].
  cbn [fst] in Ek. subst k2. apply filter_In in Hf. destruct Hf as [Hi He].
  cbn [snd] in He.
  rewrite (catalog_key_unique sprites Hnd k i2 info Hi Hin) in He.
  congruence.
Qed.

Lemma checks_touch_only_enriched_sprites_witness :
  NoDup (Dict.keys armour_catalog) /\
  run_checks Kenney true armour_catalog = Ok (mkCheck armour_respelled [] 1) /\
  Dict.keys armour_respelled = Dict.keys armour_catalog.
Proof.
  assert (Hnd : NoDup (Dict.keys armour_catalog)).
  { repeat constructor. intros []. }
  assert (Hrun : run_checks Kenney true armour_catalog
                 = Ok (mkCheck armour_respelled [] 1))
    by (vm_compute; reflexivity).
  split; [exact Hnd|]. split; [exact Hrun|].
  exact (proj1 (checks_touch_only_enriched_sprites Kenney true armour_catalog
                  (mkCheck armour_respelled [] 1) Hnd Hrun)).
Defined.

(** X17.  The fix of the altar alignment, on tags without a repeated
    entry: the new tags hold ["sacred"], hold ["holy"] exactly when the
    god of the altar is a holy one and ["unholy"] exactly when it is an
    unholy one, so that a second look finds nothing to fix; they have no
    repeated entry either, and every other tag the altar had is still
    there. *)
Theorem altar_fix_settles_alignment (key : string) (ts : list json) :
  NoDup ts ->
  let ts' := fold_left apply_tag_fix (altar_tag_fixes key ts) ts in
  py_in (JStr "sacred") ts' = true
  /\ py_in (JStr "holy") ts' = should_holy key
  /\ py_in (JStr "unholy") ts' = should_unholy key
  /\ altar_tag_fixes key ts' = []
  /\ NoDup ts'
  /\ forall t, In t ts -> t <> JStr "holy" -> t <> JStr "unholy" -> In t ts'.
Proof.
  intros Hnd ts'.
  assert (H3 : py_in (JStr "sacred") ts' = true
               /\ py_in (JStr "holy") ts' = should_holy key
               /\ py_in (JStr "unholy") ts' = should_unholy key
               /\ NoDup ts'
               /\ forall t, In t ts -> t <> JStr "holy" ->
                            t <> JStr "unholy" -> In t ts').
  { subst ts'. unfold altar_tag_fixes.
    destruct (py_in (JStr "sacred") ts) eqn:Es;
      destruct (py_in (JStr "holy") ts) eqn:Eh;
      destruct (py_in (JStr "unholy") ts) eqn:Eu;
      destruct (should_holy key); destruct (should_unholy key);
      cbn [negb andb app fold_left];
      (split; [|split; [|split; [|split]]]);
      try (repeat apply NoDup_apply_tag_fix; exact Hnd);
      try (intros t Ht Hh Hu;
           repeat first [ exact Ht
                        | apply In_apply_add
                        | apply In_apply_remove; [assumption|] ]);
      repeat first
        [ rewrite py_in_add_same
        | rewrite py_in_remove_same
            by (repeat apply NoDup_apply_tag_fix; exact Hnd)
        | rewrite py_in_add_other by discriminate
        | rewrite py_in_remove_other by discriminate ];
      first [reflexivity | assumption]. }
  destruct H3 as (Hs & Hh & Hu & Hn & Hk).
  split; [exact Hs|]. split; [exact Hh|]. split; [exact Hu|].
  split; [|split; [exact Hn|exact Hk]].
  unfold altar_tag_fixes. rewrite Hs, Hh, Hu.
  destruct (should_holy key); destruct (should_unholy key); reflexivity.
Qed.

Lemma altar_fix_settles_alignment_witness :
  NoDup (str_tags ["altar"; "holy"; "stone"]) /\
  fold_left apply_tag_fix
    (altar_tag_fixes "dungeon/altars/altar_makhleb.png"
                     (str_tags ["altar"; "holy"; "stone"]))
    (str_tags ["altar"; "holy"; "stone"])
    = str_tags ["altar"; "stone"; "sacred"; "unholy"] /\
  altar_tag_fixes "dungeon/altars/altar_makhleb.png"
    (fold_left apply_tag_fix
       (altar_tag_fixes "dungeon/altars/altar_makhleb.png"
                        (str_tags ["altar"; "holy"; "stone"]))
       (str_tags ["altar"; "holy"; "stone"])) = [].
Proof.
  assert (Hnd : NoDup (str_tags ["altar"; "holy"; "stone"])).
  { repeat constructor; simpl; intuition discriminate. }
  split; [exact Hnd|]. split; [vm_compute; reflexivity|].
  exact (proj1 (proj2 (proj2 (proj2
           (altar_fix_settles_alignment "dungeon/altars/altar_makhleb.png"
              (str_tags ["altar"; "holy"; "stone"]) Hnd))))).
Defined.
